(** * sf_benchmarks: the evaluation, dispatch and timing engine of [src/main.cpp]

    A shallow embedding of the benchmark driver: the domain mapper
    [transform_domain], the adapters [scalar_func_apply], [vec_func_apply]
    and [sctl_apply], the timing harness [test_func], the reporter
    ([operator<<] on [BenchResult]), the registry tables and the
    dispatcher in [main].

    The C++ code is a template over the value type [VAL_T] (float, double,
    complex<double>).  The embedding is generic in the same way: an
    arithmetic type is an instance of the class [Arith].  Three families of
    instances are given: IEEE-754 binary64 and binary32 (through the
    executable specification [SpecFloat] of the standard library), exact
    rational arithmetic ([Qc], "the code up to floating-point rounding"),
    and complex numbers over either. *)

From Stdlib Require Import ZArith QArith Qpower Qcanon SpecFloat Lqa Lia.
From stdpp Require Import gmap strings list pretty.

(** ** Arithmetic types *)

(** What the program needs of a C++ arithmetic type. *)
Class Arith (A : Type) := {
  vadd : A → A → A;
  vsub : A → A → A;
  vmul : A → A → A;
  vdiv : A → A → A;
  (** a numeric literal, or an integer converted to the type *)
  vlit : Q → A;
  (** [x /= n] for an integral [n] *)
  vdivn : A → Z → A;
}.

Declare Scope arith_scope.
Delimit Scope arith_scope with A.
Infix "+" := vadd : arith_scope.
Infix "-" := vsub : arith_scope.
Infix "*" := vmul : arith_scope.
Infix "/" := vdiv : arith_scope.

(** An implicit or explicit conversion between two arithmetic types. *)
Class Cast (A B : Type) := cast : A → B.

(** Stream formatting of a number at a given [precision()]: the text that
    [os << x] produces.  The formatting itself is the standard library's. *)
Class Show (A : Type) := show : nat → A → string.

(** *** Exact arithmetic *)

Module Exact.
#[global] Instance arith : Arith Qc := {|
  vadd := Qcplus; vsub := Qcminus; vmul := Qcmult; vdiv := Qcdiv;
  vlit := Q2Qc;
  vdivn x n := Qcdiv x (Q2Qc (inject_Z n));
|}.
#[global] Instance cast_id : Cast Qc Qc := λ x, x.
End Exact.

(** *** IEEE-754 binary floating point *)

Module IEEE.
(** The correctly rounded value of a rational: how a decimal literal or an
    integer becomes a floating-point number. *)
Definition of_Q (prec emax : Z) (q : Q) : spec_float :=
  match Qnum q with
  | Z0 => S754_zero false
  | Zpos n =>
      let '(mz, ez, lz) :=
        SFdiv_core_binary prec emax (Zpos n) 0 (Zpos (Qden q)) 0 in
      binary_round_aux prec emax false mz ez lz
  | Zneg n =>
      let '(mz, ez, lz) :=
        SFdiv_core_binary prec emax (Zpos n) 0 (Zpos (Qden q)) 0 in
      binary_round_aux prec emax true mz ez lz
  end.

(** Conversion to another format, rounding to nearest even. *)
Definition convert (prec emax : Z) (x : spec_float) : spec_float :=
  match x with
  | S754_finite s m e => binary_round prec emax s m e
  | _ => x
  end.

(** The rational a finite number stands for. *)
Definition to_Q (x : spec_float) : option Q :=
  match x with
  | S754_zero _ => Some 0%Q
  | S754_finite s m e =>
      let v := match e with
               | Z0 => inject_Z (Zpos m)
               | Zpos p => inject_Z (Zpos m * 2 ^ Zpos p)
               | Zneg p => Qmake (Zpos m) (2 ^ p)
               end in
      Some (if s then Qopp v else v)
  | _ => None
  end.

(** C++ [double]. *)
Record double := Double { dbits : spec_float }.
(** C++ [float]. *)
Record float := Float { fbits : spec_float }.

Definition lift2 {A} (mk : spec_float → A) (un : A → spec_float)
    (op : spec_float → spec_float → spec_float) (x y : A) : A :=
  mk (op (un x) (un y)).

#[global] Instance arith_double : Arith double := {|
  vadd := lift2 Double dbits (SFadd 53 1024);
  vsub := lift2 Double dbits (SFsub 53 1024);
  vmul := lift2 Double dbits (SFmul 53 1024);
  vdiv := lift2 Double dbits (SFdiv 53 1024);
  vlit q := Double (of_Q 53 1024 q);
  vdivn x n := Double (SFdiv 53 1024 (dbits x) (of_Q 53 1024 (inject_Z n)));
|}.

#[global] Instance arith_float : Arith float := {|
  vadd := lift2 Float fbits (SFadd 24 128);
  vsub := lift2 Float fbits (SFsub 24 128);
  vmul := lift2 Float fbits (SFmul 24 128);
  vdiv := lift2 Float fbits (SFdiv 24 128);
  vlit q := Float (of_Q 24 128 q);
  vdivn x n := Float (SFdiv 24 128 (fbits x) (of_Q 24 128 (inject_Z n)));
|}.

#[global] Instance cast_double : Cast double double := λ x, x.
#[global] Instance cast_double_float : Cast double float :=
  λ x, Float (convert 24 128 (dbits x)).
(** [float] to [double] is exact. *)
Definition widen (x : float) : double := Double (convert 53 1024 (fbits x)).

Definition valid_double (x : double) : Prop :=
  valid_binary 53 1024 (dbits x) = true.
Definition valid_float (x : float) : Prop :=
  valid_binary 24 128 (fbits x) = true.

(** Comparison of doubles, as [<] and [<=] of the language. *)
Definition ltb (x y : double) : bool := SFltb (dbits x) (dbits y).
Definition leb (x y : double) : bool := SFleb (dbits x) (dbits y).
End IEEE.

(** *** Complex numbers, [std::complex<A>] *)

Record complex (A : Type) := Complex { re : A; im : A }.
Arguments Complex {A} _ _.
Arguments re {A} _.
Arguments im {A} _.

Section ComplexArith.
Context {A : Type} `{!Arith A}.
Local Open Scope arith_scope.

Definition cadd (z w : complex A) : complex A :=
  Complex (re z + re w) (im z + im w).
Definition csub (z w : complex A) : complex A :=
  Complex (re z - re w) (im z - im w).
Definition cmul (z w : complex A) : complex A :=
  Complex (re z * re w - im z * im w) (re z * im w + im z * re w).
Definition cdiv (z w : complex A) : complex A :=
  let d := re w * re w + im w * im w in
  Complex ((re z * re w + im z * im w) / d) ((im z * re w - re z * im w) / d).

#[export] Instance arith_complex : Arith (complex A) := {|
  vadd := cadd; vsub := csub; vmul := cmul; vdiv := cdiv;
  vlit q := Complex (vlit q) (vlit 0%Q);
  vdivn z n := Complex (vdivn (re z) n) (vdivn (im z) n);
|}.

(** A real converted to a complex has imaginary part zero. *)
#[export] Instance cast_complex : Cast A (complex A) :=
  λ x, Complex x (vlit 0%Q).
End ComplexArith.

(** ** Loops and buffers *)

(** [for (size_t i = i0; i < N; i += step) body]: the loop state is threaded
    through [body]; [None] is undefined behaviour inside the body.  The
    recursion is on [fuel]; with [1 <= step], [N] units of fuel are enough
    (lemma [for_loop_fuel]). *)
Fixpoint for_loop {S : Type} (fuel N step : nat) (body : nat → S → option S)
    (i : nat) (s : S) : option S :=
  if decide (i < N) then
    match fuel with
    | O => None
    | Datatypes.S fuel' =>
        s' ← body i s; for_loop fuel' N step body (i + step) s'
    end
  else Some s.

(** A memory access of an adapter: the index read in the input buffer or
    written in the output buffer. *)
Inductive access := Load (i : nat) | Store (i : nat).

Definition access_index (a : access) : nat :=
  match a with Load i | Store i => i end.
Definition loads (log : list access) : list nat :=
  omap (λ a, match a with Load i => Some i | Store _ => None end) log.
Definition stores (log : list access) : list nat :=
  omap (λ a, match a with Store i => Some i | Load _ => None end) log.

(** Each of the three adapter templates returns a function-local
    [static const] closure over [f].  Every call in [main] passes a lambda
    expression, whose closure type is its own, so every call is an
    instantiation of its own and its closure captures the [f] of that call:
    an adapter is a function of [f]. *)
Section Adapters.
Context {Real : Type}.

(** [multi_eval_func<Real>], a
    [std::function<void(const Real *, Real *, size_t)>]: called with the
    input buffer, the output buffer and the count, it leaves the output
    buffer updated.  [None]: an access outside a buffer. *)
Definition multi_eval_func : Type :=
  list Real → list Real → nat → option (list Real).

(** [x.load_a(vals + i)] and [Vec::LoadAligned(vals + i)]: the [W] lanes
    [vals[i] .. vals[i+W-1]]. *)
Definition load_a (W : nat) (vals : list Real) (i : nat) : option (list Real) :=
  if decide (i + W ≤ length vals) then Some (take W (drop i vals)) else None.

(** [y.store_a(res + i)] and [y.StoreAligned(res + i)]: the lanes of [y]
    go to [res[i] ..]. *)
Definition store_a (y : list Real) (res : list Real) (i : nat) : option (list Real) :=
  if decide (i + length y ≤ length res) then Some (list_inserts i y res) else None.

(** The buffer state of a vector loop, with the accesses made so far. *)
Definition simd_body (W : nat) (f : list Real → list Real) (vals : list Real)
    (i : nat) (st : list Real * list access) : option (list Real * list access) :=
  x ← load_a W vals i;
  let y := f x in
  res' ← store_a y st.1 i;
  Some (res', st.2 ++ (Load <$> seq i W) ++ (Store <$> seq i (length y))).

Definition simd_run (W : nat) (f : list Real → list Real)
    (vals res : list Real) (N : nat) : option (list Real * list access) :=
  for_loop N N W (simd_body W f vals) 0 (res, []).

(** [vec_func_apply<VEC_T, Real>(f)], with [W = VEC_T::size()]:
    [for (i = 0; i < N; i += VEC_T::size())
       { x.load_a(vals + i); y = f(x); y.store_a(res + i); }] *)
Definition vec_func_apply (W : nat) (f : list Real → list Real) : multi_eval_func :=
  λ vals res N, fst <$> simd_run W f vals res N.

(** [sctl_apply<Real, VecLen>(f)]:
    [for (i = 0; i < N; i += VecLen)
       { v = Vec::LoadAligned(vals + i); f(v).StoreAligned(res + i); }] *)
Definition sctl_apply (VecLen : nat) (f : list Real → list Real) : multi_eval_func :=
  λ vals res N, fst <$> simd_run VecLen f vals res N.

(** [scalar_func_apply<Real>(f)]:
    [for (i = 0; i < N; i++) res[i] = f(vals[i]);] *)
Definition scalar_body (f : Real → Real) (vals : list Real)
    (i : nat) (res : list Real) : option (list Real) :=
  x ← vals !! i;
  if decide (i < length res) then Some (<[i := f x]> res) else None.

Definition scalar_func_apply (f : Real → Real) : multi_eval_func :=
  λ vals res N, for_loop N N 1 (scalar_body f vals) 0 res.
End Adapters.
Arguments multi_eval_func : clear implicits.

(** ** The world outside the program: the monotonic clock and the random
    number generator *)

(** [struct timespec]. *)
Record timespec := Timespec { tv_sec : Z; tv_nsec : Z }.

(** [size_t] arithmetic wraps at 2^64. *)
Definition size_t_mul (a b : Z) : Z := (a * b) mod 2 ^ 64.

(** The indeterminate value found at index [i] of a freshly allocated
    vector ([Eigen::VectorX<T> res(size)] does not initialise). *)
Class Indeterminate (T : Type) := indeterminate : nat → T.

(** The coefficient-wise functions of Eigen arrays. *)
Inductive OPS :=
  | COS | SIN | TAN | COSH | SINH | TANH | EXP | LOG | LOG10 | POW35 | POW13
  | ASIN | ACOS | ATAN | ASINH | ACOSH | ATANH | ERF | ERFC | LGAMMA
  | DIGAMMA | NDTRI | SQRT | RSQRT.

(** [x.array().cos()], ..., [x.array().pow(3.5)], ...: the function applied
    to one coefficient. *)
Class ArrayOps (T : Type) := array_op : OPS → T → T.

Section Harness.
Context {D : Type} `{!Arith D}.

(** The clock is the sequence of its readings and the number of readings
    taken; the generator is the sequence of its values (each in [-1, 1],
    the range of Eigen's [Random()]) and the number of values consumed. *)
Record world := World {
  clock : nat → timespec;
  ticks : nat;
  rand : nat → D;
  drawn : nat;
}.

(** Computations that read the clock or the generator, and that may run
    into undefined behaviour ([None]). *)
Definition M (A : Type) : Type := world → option (A * world).

#[export] Instance M_ret : MRet M := λ A a w, Some (a, w).
#[export] Instance M_bind : MBind M :=
  λ A B f m w, match m w with Some (a, w') => f a w' | None => None end.

Definition lift_option {A} (o : option A) : M A :=
  λ w, match o with Some a => Some (a, w) | None => None end.

(** [clock_gettime(CLOCK_MONOTONIC, &ts); return ts;] *)
Definition get_wtime : M timespec :=
  λ w, Some (clock w (ticks w),
             World (clock w) (S (ticks w)) (rand w) (drawn w)).

(** [(tf->tv_sec - ts->tv_sec) + (tf->tv_nsec - ts->tv_nsec) * 1E-9] *)
Definition get_wtime_diff (ts tf : timespec) : D :=
  (vlit (inject_Z (tv_sec tf - tv_sec ts))
   + vlit (inject_Z (tv_nsec tf - tv_nsec ts)) * vlit (1 # 1000000000))%A.

(** [class Params]: [std::pair<double, double> domain{0.0, 1.0}]. *)
Record Params := Build_Params { domain : D * D }.
Definition Params_default : Params := Build_Params (vlit 0, vlit 1).

Context {VAL_T : Type} `{!Arith VAL_T, !Cast D VAL_T}.

(** [transform_domain]:
    [VAL_T delta = upper - lower; return vals.array() * delta + lower;] *)
Definition transform_domain (vals : list VAL_T) (lower upper : D) : list VAL_T :=
  let delta : VAL_T := cast (upper - lower)%A in
  (λ v, v * delta + cast lower)%A <$> vals.

(** [class BenchResult].  [n_evals] has no initialiser: after the
    one-argument constructor it is indeterminate ([None]).  [written] is
    not a member of the class: it records whether the entries of [res]
    have been written since the vector was allocated.  Until then they are
    indeterminate, and reading them is undefined.  An evaluation is taken
    to write the buffer it is given, as the three adapter templates, the
    pair-output loop and the array assignments do. *)
Record BenchResult := Build_BenchResult {
  res : list VAL_T;
  eval_time : D;
  label : string;
  n_evals : option Z;
  params : Params;
  written : bool;
}.

(** [BenchResult(const std::string &label_) : label(label_)] *)
Definition BenchResult_label (label_ : string) : BenchResult :=
  Build_BenchResult [] (vlit 0) label_ None Params_default false.

(** [BenchResult(label_, size, n_evals_, params_)
      : res(size), label(label_), n_evals(n_evals_), params(params_)] *)
Definition BenchResult_sized `{!Indeterminate VAL_T}
    (label_ : string) (size : nat) (n_evals_ : Z) (params_ : Params) : BenchResult :=
  Build_BenchResult (indeterminate <$> seq 0 size) (vlit 0) label_
                    (Some n_evals_) params_ false.

(** [res.res.data()], the output buffer; what an evaluation through
    [resptr], or an assignment to [res.res], leaves in the result; and the
    assignment to [res.eval_time]. *)
Definition data (br : BenchResult) : list VAL_T := res br.
Definition set_data (br : BenchResult) (resptr : list VAL_T) : BenchResult :=
  Build_BenchResult resptr (eval_time br) (label br) (n_evals br) (params br)
                    true.
Definition set_eval_time (br : BenchResult) (t : D) : BenchResult :=
  Build_BenchResult (res br) t (label br) (n_evals br) (params br) (written br).

(** [double Mevals() const { return n_evals / eval_time / 1E6; }] *)
Definition Mevals (br : BenchResult) : option D :=
  n ← n_evals br;
  Some (vlit (inject_Z n) / eval_time br / vlit 1000000)%A.

(** *** The reporter, [operator<<] on [BenchResult] *)

(** [os << left << setw(w) << s]: padded on the right to [w] characters. *)
Definition setw_left (w : nat) (s : string) : string :=
  s +:+ String.concat EmptyString (replicate (w - String.length s) " ").

Definition endl : string := String (Ascii.ascii_of_nat 10) EmptyString.

(** [VAL_T mean = 0.0; for (const auto &v : br.res) mean += v;
     mean /= br.res.size();] *)
Definition mean (l : list VAL_T) : VAL_T :=
  vdivn (foldl vadd (vlit 0) l) (Z.of_nat (length l)).

(** The loop for the mean reads every entry of [br.res]: [None] if the
    buffer has entries and they were never written. *)
Definition read_mean (br : BenchResult) : option VAL_T :=
  if decide (res br ≠ [] ∧ written br = false) then None
  else Some (mean (res br)).

(** The text that [os << br] appends to the stream; [None] if an
    indeterminate value would be read: an entry of a buffer that was
    allocated and never written, or the count [n_evals] that the
    one-argument constructor leaves. *)
Definition operator_lshift `{!Show D, !Show VAL_T} (br : BenchResult) : option string :=
  mean ← read_mean br;
  if decide (length (res br) ≠ 0) then
    mevals ← Mevals br;
    Some (setw_left 25 (label br +:+ ": ") +:+ setw_left 15 (show 6 mevals)
          +:+ setw_left 15 (show 15 mean) +:+ setw_left 5 " "
          +:+ "[" +:+ show 5 (domain (params br)).1 +:+ ", "
          +:+ show 5 (domain (params br)).2 +:+ "]" +:+ endl)
  else Some EmptyString.

(** *** The timing harness, [test_func] *)

(** The adapter types [FUN_T] that the first overload of [test_func] is
    instantiated at: [multi_eval_func<Real>], [fun_cdx1_x2] (one input, a
    pair of results) and [std::shared_ptr<baobzi::Baobzi>] (the
    approximant, given by its call operator). *)
Inductive FUN_T :=
  | Multi (f : multi_eval_func VAL_T)
  | PairOut (f : VAL_T → VAL_T * VAL_T)
  | Baobzi (f : multi_eval_func VAL_T).

(** [params[name]] on a [std::unordered_map]: a missing entry is
    default-constructed and inserted. *)
Definition operator_index (params : gmap string Params) (name : string)
    : Params * gmap string Params :=
  match params !! name with
  | Some par => (par, params)
  | None => (Params_default, <[name := Params_default]> params)
  end.

(** [std::tie(resptr[i * 2], resptr[i * 2 + 1]) = f(vals[i]);] *)
Definition pair_body (f : VAL_T → VAL_T * VAL_T) (vals : list VAL_T)
    (i : nat) (resptr : list VAL_T) : option (list VAL_T) :=
  x ← vals !! i;
  if decide (i * 2 + 1 < length resptr)
  then Some (<[i * 2 + 1 := (f x).2]> (<[i * 2 := (f x).1]> resptr))
  else None.

(** One full-buffer evaluation, the body of the repeat loop:
    [if constexpr (is_same_v<FUN_T, fun_cdx1_x2>)
       for (i = 0; i < vals.size(); ++i) std::tie(...) = f(vals[i]);
     else if constexpr (is_same_v<FUN_T, shared_ptr<baobzi::Baobzi>>)
       f->operator()(vals.data(), resptr, vals.size());
     else f(vals.data(), resptr, vals.size());] *)
Definition evaluate (f : FUN_T) (vals resptr : list VAL_T) : option (list VAL_T) :=
  match f with
  | PairOut f => for_loop (length vals) (length vals) 1 (pair_body f vals) 0 resptr
  | Baobzi f => f vals resptr (length vals)
  | Multi f => f vals resptr (length vals)
  end.

(** [res_size = vals.size();
     if constexpr (is_same_v<FUN_T, fun_cdx1_x2>) res_size *= 2;] *)
Definition res_size (f : FUN_T) (n : nat) : nat :=
  match f with PairOut _ => n * 2 | _ => n end.

(** [test_func(name, library_prefix, funs, params, vals_in, Nrepeat)], the
    overload on [FUN_T].  [params] is the function's own copy of the table:
    the entry that [params[name]] inserts is not seen by the caller.
    [resptr] points into [res.res]: every evaluation writes the buffer of
    [res]. *)
Definition test_func `{!Indeterminate VAL_T}
    (name library_prefix : string) (funs : gmap string FUN_T)
    (params : gmap string Params) (vals_in : list VAL_T) (Nrepeat : nat)
    : M BenchResult :=
  let label := library_prefix +:+ "_" +:+ name in
  match funs !! name with
  | None => mret (BenchResult_label label)
  | Some f =>
      let par := (operator_index params name).1 in
      let vals := transform_domain vals_in (domain par).1 (domain par).2 in
      let res_size := res_size f (length vals) in
      let n_evals := size_t_mul (Z.of_nat (length vals)) (Z.of_nat Nrepeat) in
      let res := BenchResult_sized label res_size n_evals par in
      st ← get_wtime;
      res ← lift_option
        (for_loop Nrepeat Nrepeat 1
           (λ k res, resptr ← evaluate f vals (data res); Some (set_data res resptr))
           0 res);
      ft ← get_wtime;
      mret (set_eval_time res (get_wtime_diff st ft))
  end.

(** The overload of [test_func] on [OPS::OPS]: every repeat assigns
    [res_eigen = x.array().op()]. *)
Definition test_func_OPS `{!Indeterminate VAL_T, !ArrayOps VAL_T}
    (name library_prefix : string) (funs : gmap string OPS)
    (params : gmap string Params) (vals_in : list VAL_T) (Nrepeat : nat)
    : M BenchResult :=
  let label := library_prefix +:+ "_" +:+ name in
  match funs !! name with
  | None => mret (BenchResult_label label)
  | Some OP =>
      let par := (operator_index params name).1 in
      let x := transform_domain vals_in (domain par).1 (domain par).2 in
      let res := BenchResult_sized label (length x)
                   (size_t_mul (Z.of_nat (length x)) (Z.of_nat Nrepeat)) par in
      st ← get_wtime;
      res ← lift_option
        (for_loop Nrepeat Nrepeat 1
           (λ k res, Some (set_data res (array_op OP <$> x))) 0 res);
      ft ← get_wtime;
      mret (set_eval_time res (get_wtime_diff st ft))
  end.
End Harness.

Arguments world : clear implicits.
Arguments M : clear implicits.
Arguments Params : clear implicits.
Arguments BenchResult : clear implicits.
Arguments FUN_T : clear implicits.

(** [std::cout << test_func(...)]: the text one call adds to the output. *)
Definition report {D VAL_T} `{!Arith D, !Arith VAL_T, !Show D, !Show VAL_T}
    (call : M D (BenchResult D VAL_T)) : M D string :=
  br ← call; lift_option (operator_lshift br).

(** Statements run one after the other, their output concatenated. *)
Fixpoint sequence {D} (stmts : list (M D string)) : M D string :=
  match stmts with
  | [] => mret EmptyString
  | stmt :: rest => out ← stmt; out' ← sequence rest; mret (out +:+ out')
  end.

(** ** The registry: the tables of [main] *)

(** The keys of each table, in the order of its initialiser list. *)
Definition fort_funs_keys : list string :=
  ["bessel_Y0"; "bessel_J0"].

Definition hank10x_funs_keys : list string :=
  ["hank103"].

Definition gsl_funs_keys : list string :=
  ["sin_pi"; "cos_pi"; "sin"; "cos"; "sinc"; "sinc_pi"; "erf"; "erfc";
   "tgamma"; "lgamma"; "log"; "exp"; "pow13"; "bessel_Y0"; "bessel_Y1";
   "bessel_Y2"; "bessel_I0"; "bessel_I1"; "bessel_I2"; "bessel_J0";
   "bessel_J1"; "bessel_J2"; "bessel_K0"; "bessel_K1"; "bessel_K2";
   "bessel_j0"; "bessel_j1"; "bessel_j2"; "bessel_y0"; "bessel_y1";
   "bessel_y2"; "hermite_0"; "hermite_1"; "hermite_2"; "hermite_3";
   "riemann_zeta"].

Definition gsl_complex_funs_keys : list string :=
  ["sin"; "cos"; "log"; "dilog"; "lgamma"].

Definition boost_funs_fx1_keys : list string :=
  ["sin_pi"; "cos_pi"; "tgamma"; "lgamma"; "digamma"; "pow13"; "erf"; "erfc";
   "sinc_pi"; "bessel_Y0"; "bessel_Y1"; "bessel_Y2"; "bessel_I0";
   "bessel_I1"; "bessel_I2"; "bessel_J0"; "bessel_J1"; "bessel_J2";
   "bessel_K0"; "bessel_K1"; "bessel_K2"; "bessel_j0"; "bessel_j1";
   "bessel_j2"; "bessel_y0"; "bessel_y1"; "bessel_y2"; "hermite_0";
   "hermite_1"; "hermite_2"; "hermite_3"; "riemann_zeta"].

Definition boost_funs_dx1_keys : list string :=
  ["sin_pi"; "cos_pi"; "tgamma"; "lgamma"; "digamma"; "pow13"; "erf"; "erfc";
   "sinc_pi"; "bessel_Y0"; "bessel_Y1"; "bessel_Y2"; "bessel_I0";
   "bessel_I1"; "bessel_I2"; "bessel_J0"; "bessel_J1"; "bessel_J2";
   "bessel_K0"; "bessel_K1"; "bessel_K2"; "bessel_j0"; "bessel_j1";
   "bessel_j2"; "bessel_y0"; "bessel_y1"; "bessel_y2"; "hermite_0";
   "hermite_1"; "hermite_2"; "hermite_3"; "riemann_zeta"].

Definition std_funs_fx1_keys : list string :=
  ["tgamma"; "lgamma"; "sin"; "cos"; "tan"; "asin"; "acos"; "atan"; "asin";
   "acos"; "atan"; "sinh"; "cosh"; "tanh"; "asinh"; "acosh"; "atanh";
   "sin_pi"; "cos_pi"; "erf"; "erfc"; "log"; "log2"; "log10"; "exp"; "exp2";
   "exp10"; "sqrt"; "rsqrt"; "pow3.5"; "pow13"].

Definition std_funs_dx1_keys : list string :=
  ["tgamma"; "lgamma"; "sin"; "cos"; "tan"; "asin"; "acos"; "atan"; "asin";
   "acos"; "atan"; "sinh"; "cosh"; "tanh"; "asinh"; "acosh"; "atanh";
   "sin_pi"; "cos_pi"; "erf"; "erfc"; "log"; "log2"; "log10"; "exp"; "exp2";
   "exp10"; "sqrt"; "rsqrt"; "pow3.5"; "pow13"].

Definition amdlibm_funs_fx1_keys : list string :=
  ["sin"; "cos"; "tan"; "sinh"; "cosh"; "tanh"; "asin"; "acos"; "atan";
   "asinh"; "acosh"; "atanh"; "log"; "log2"; "log10"; "exp"; "exp2"; "exp10";
   "sqrt"; "pow3.5"; "pow13"].

Definition amdlibm_funs_dx1_keys : list string :=
  ["sin"; "cos"; "tan"; "sinh"; "cosh"; "tanh"; "asin"; "acos"; "atan";
   "asinh"; "acosh"; "atanh"; "log"; "log2"; "log10"; "exp"; "exp2"; "exp10";
   "sqrt"; "pow3.5"; "pow13"].

Definition amdlibm_funs_dx4_keys : list string :=
  ["sin"; "cos"; "tan"; "log"; "log2"; "exp"; "exp2"; "pow3.5"; "pow13"].

Definition amdlibm_funs_fx8_keys : list string :=
  ["sin"; "cos"; "tan"; "log"; "log2"; "exp"; "exp2"; "pow3.5"; "pow13"].

Definition sleef_funs_fx1_keys : list string :=
  ["sin_pi"; "cos_pi"; "sin"; "cos"; "tan"; "sinh"; "cosh"; "tanh"; "asin";
   "acos"; "atan"; "asinh"; "acosh"; "atanh"; "log"; "log2"; "log10"; "exp";
   "exp2"; "exp10"; "erf"; "erfc"; "lgamma"; "tgamma"; "sqrt"; "pow3.5";
   "pow13"].

Definition sleef_funs_dx1_keys : list string :=
  ["sin_pi"; "cos_pi"; "sin"; "cos"; "tan"; "sinh"; "cosh"; "tanh"; "asin";
   "acos"; "atan"; "asinh"; "acosh"; "atanh"; "log"; "log2"; "log10"; "exp";
   "exp2"; "exp10"; "erf"; "erfc"; "lgamma"; "tgamma"; "sqrt"; "pow3.5";
   "pow13"].

Definition sleef_funs_fx8_keys : list string :=
  ["sin_pi"; "cos_pi"; "sin"; "cos"; "tan"; "sinh"; "cosh"; "tanh"; "asin";
   "acos"; "atan"; "asinh"; "acosh"; "atanh"; "log"; "log2"; "log10"; "exp";
   "exp2"; "exp10"; "erf"; "erfc"; "lgamma"; "tlgamma"; "sqrt"; "pow3.5";
   "pow13"].

Definition sleef_funs_dx4_keys : list string :=
  ["sin_pi"; "cos_pi"; "sin"; "cos"; "tan"; "sinh"; "cosh"; "tanh"; "asin";
   "acos"; "atan"; "asinh"; "acosh"; "atanh"; "log"; "log2"; "log10"; "exp";
   "exp2"; "exp10"; "erf"; "erfc"; "lgamma"; "tlgamma"; "sqrt"; "pow3.5";
   "pow13"].

Definition sleef_funs_fx16_keys : list string :=
  ["sin_pi"; "cos_pi"; "sin"; "cos"; "tan"; "sinh"; "cosh"; "tanh"; "asin";
   "acos"; "atan"; "asinh"; "acosh"; "atanh"; "log"; "log2"; "log10"; "exp";
   "exp2"; "exp10"; "erf"; "erfc"; "lgamma"; "tlgamma"; "sqrt"; "pow3.5";
   "pow13"].

Definition sleef_funs_dx8_keys : list string :=
  ["sin_pi"; "cos_pi"; "sin"; "cos"; "tan"; "sinh"; "cosh"; "tanh"; "asin";
   "acos"; "atan"; "asinh"; "acosh"; "atanh"; "log"; "log2"; "log10"; "exp";
   "exp2"; "exp10"; "erf"; "erfc"; "lgamma"; "tlgamma"; "sqrt"; "pow3.5";
   "pow13"].

Definition af_funs_fx8_keys : list string :=
  ["sqrt"; "sin"; "cos"; "tan"; "sinh"; "cosh"; "tanh"; "asinh"; "acosh";
   "atanh"; "asin"; "acos"; "atan"; "exp"; "exp2"; "exp10"; "log"; "log2";
   "log10"; "pow3.5"; "pow13"].

Definition af_funs_dx4_keys : list string :=
  ["sqrt"; "sin"; "cos"; "tan"; "sinh"; "cosh"; "tanh"; "asinh"; "acosh";
   "atanh"; "asin"; "acos"; "atan"; "exp"; "exp2"; "exp10"; "log"; "log2";
   "log10"; "pow3.5"; "pow13"].

Definition af_funs_fx16_keys : list string :=
  ["sqrt"; "sin"; "cos"; "tan"; "sinh"; "cosh"; "tanh"; "asinh"; "acosh";
   "atanh"; "asin"; "acos"; "atan"; "exp"; "exp2"; "exp10"; "log"; "log2";
   "log10"; "pow3.5"; "pow13"].

Definition af_funs_dx8_keys : list string :=
  ["sqrt"; "sin"; "cos"; "tan"; "sinh"; "cosh"; "tanh"; "asinh"; "acosh";
   "atanh"; "asin"; "acos"; "atan"; "exp"; "exp2"; "exp10"; "log"; "log2";
   "log10"; "pow3.5"; "pow13"].

Definition sctl_funs_fx8_keys : list string :=
  ["copy"; "exp"; "sin"; "cos"; "rsqrt"].

Definition sctl_funs_dx4_keys : list string :=
  ["copy"; "exp"; "sin"; "cos"; "rsqrt"].

Definition sctl_funs_fx16_keys : list string :=
  ["copy"; "exp"; "sin"; "cos"; "rsqrt"].

Definition sctl_funs_dx8_keys : list string :=
  ["copy"; "exp"; "sin"; "cos"; "rsqrt"].

Definition eigen_funs_keys : list string :=
  ["sin"; "cos"; "tan"; "sinh"; "cosh"; "tanh"; "exp"; "log"; "log10";
   "pow3.5"; "pow13"; "asin"; "acos"; "atan"; "asinh"; "atanh"; "acosh";
   "erf"; "erfc"; "lgamma"; "digamma"; "ndtri"; "sqrt"; "rsqrt"].

Definition potential_baobzi_funs_keys : list string :=
  ["bessel_Y0"; "bessel_Y1"; "bessel_Y2"; "bessel_I0"; "bessel_I1";
   "bessel_I2"; "bessel_J0"; "bessel_J1"; "bessel_J2"; "hermite_0";
   "hermite_1"; "hermite_2"; "hermite_3"].

(** [eigen_funs]. *)
Definition eigen_funs_entries : list (string * OPS) :=
  [("sin", SIN); ("cos", COS); ("tan", TAN); ("sinh", SINH); ("cosh", COSH);
   ("tanh", TANH); ("exp", EXP); ("log", LOG); ("log10", LOG10);
   ("pow3.5", POW35); ("pow13", POW13); ("asin", ASIN); ("acos", ACOS);
   ("atan", ATAN); ("asinh", ASINH); ("atanh", ATANH); ("acosh", ACOSH);
   ("erf", ERF); ("erfc", ERFC); ("lgamma", LGAMMA); ("digamma", DIGAMMA);
   ("ndtri", NDTRI); ("sqrt", SQRT); ("rsqrt", RSQRT)].

(** [M_PI] of <math.h>. *)
Definition M_PI : Q := 314159265358979323846 # 100000000000000000000.

(** [baobzi_input_t], as [create_baobzi_func] fills it. *)
Record baobzi_input_t (D : Type) := Build_baobzi_input {
  func : D → D;
  dim : Z;
  order : Z;
  tol : D;
  minimum_leaf_fraction : D;
  split_multi_eval : Z;
}.
Arguments Build_baobzi_input {D} _ _ _ _ _ _.

(** The external libraries: the function behind the lambda registered in
    table [t] under key [k], for each shape of lambda; the Hankel routine;
    and the constructor of the approximant, which returns its call
    operator. *)
Class Libraries (F D : Type) := {
  lib_f : string → string → F → F;
  lib_d : string → string → D → D;
  lib_c : string → string → complex D → complex D;
  lib_vec_f : string → string → list F → list F;
  lib_vec_d : string → string → list D → list D;
  hank103 : complex D → complex D * complex D;
  new_Baobzi : baobzi_input_t D → D → D → multi_eval_func D;
}.

Section Program.
Context {F D : Type} `{!Arith F, !Arith D, !Cast D F, !Cast D D}.
Context `{!Indeterminate F, !Indeterminate D, !Indeterminate (complex D)}.
Context `{!ArrayOps F, !ArrayOps D, !Show F, !Show D, !Show (complex D)}.
Context `{!Libraries F D}.
(** Whether the program is compiled with [__AVX512F__]. *)
Context (AVX512F : bool).

Definition table {V} (entry : string → V) (keys : list string) : gmap string V :=
  list_to_map ((λ k, (k, entry k)) <$> keys).

Definition scalar_f (t : string) : list string → gmap string (FUN_T F) :=
  table (λ k, Multi (scalar_func_apply (lib_f t k))).
Definition scalar_d (t : string) : list string → gmap string (FUN_T D) :=
  table (λ k, Multi (scalar_func_apply (lib_d t k))).
Definition scalar_c (t : string) : list string → gmap string (FUN_T (complex D)) :=
  table (λ k, Multi (scalar_func_apply (lib_c t k))).
Definition vec_f (W : nat) (t : string) : list string → gmap string (FUN_T F) :=
  table (λ k, Multi (vec_func_apply W (lib_vec_f t k))).
Definition vec_d (W : nat) (t : string) : list string → gmap string (FUN_T D) :=
  table (λ k, Multi (vec_func_apply W (lib_vec_d t k))).
Definition sctl_f (W : nat) (t : string) : list string → gmap string (FUN_T F) :=
  table (λ k, Multi (sctl_apply W (lib_vec_f t k))).
Definition sctl_d (W : nat) (t : string) : list string → gmap string (FUN_T D) :=
  table (λ k, Multi (sctl_apply W (lib_vec_d t k))).

Definition fort_funs := scalar_d "fort_funs" fort_funs_keys.
Definition hank10x_funs : gmap string (FUN_T (complex D)) :=
  table (λ k, PairOut hank103) hank10x_funs_keys.
Definition gsl_funs := scalar_d "gsl_funs" gsl_funs_keys.
Definition gsl_complex_funs := scalar_c "gsl_complex_funs" gsl_complex_funs_keys.
Definition boost_funs_fx1 := scalar_f "boost_funs_fx1" boost_funs_fx1_keys.
Definition boost_funs_dx1 := scalar_d "boost_funs_dx1" boost_funs_dx1_keys.
Definition std_funs_fx1 := scalar_f "std_funs_fx1" std_funs_fx1_keys.
Definition std_funs_dx1 := scalar_d "std_funs_dx1" std_funs_dx1_keys.
Definition amdlibm_funs_fx1 := scalar_f "amdlibm_funs_fx1" amdlibm_funs_fx1_keys.
Definition amdlibm_funs_dx1 := scalar_d "amdlibm_funs_dx1" amdlibm_funs_dx1_keys.
Definition amdlibm_funs_dx4 := vec_d 4 "amdlibm_funs_dx4" amdlibm_funs_dx4_keys.
Definition amdlibm_funs_fx8 := vec_f 8 "amdlibm_funs_fx8" amdlibm_funs_fx8_keys.
Definition sleef_funs_fx1 := scalar_f "sleef_funs_fx1" sleef_funs_fx1_keys.
Definition sleef_funs_dx1 := scalar_d "sleef_funs_dx1" sleef_funs_dx1_keys.
Definition sleef_funs_fx8 := vec_f 8 "sleef_funs_fx8" sleef_funs_fx8_keys.
Definition sleef_funs_dx4 := vec_d 4 "sleef_funs_dx4" sleef_funs_dx4_keys.
Definition sleef_funs_fx16 := vec_f 16 "sleef_funs_fx16" sleef_funs_fx16_keys.
Definition sleef_funs_dx8 := vec_d 8 "sleef_funs_dx8" sleef_funs_dx8_keys.
Definition af_funs_fx8 := vec_f 8 "af_funs_fx8" af_funs_fx8_keys.
Definition af_funs_dx4 := vec_d 4 "af_funs_dx4" af_funs_dx4_keys.
Definition af_funs_fx16 := vec_f 16 "af_funs_fx16" af_funs_fx16_keys.
Definition af_funs_dx8 := vec_d 8 "af_funs_dx8" af_funs_dx8_keys.
Definition sctl_funs_fx8 := sctl_f 8 "sctl_funs_fx8" sctl_funs_fx8_keys.
Definition sctl_funs_dx4 := sctl_d 4 "sctl_funs_dx4" sctl_funs_dx4_keys.
Definition sctl_funs_fx16 := sctl_f 16 "sctl_funs_fx16" sctl_funs_fx16_keys.
Definition sctl_funs_dx8 := sctl_d 8 "sctl_funs_dx8" sctl_funs_dx8_keys.
Definition eigen_funs : gmap string OPS := list_to_map eigen_funs_entries.
Definition potential_baobzi_funs : gmap string (D → D) :=
  table (lib_d "potential_baobzi_funs") potential_baobzi_funs_keys.

(** The domain table [params] of [main]. *)
(** [{.domain{lo, hi}}] *)
Definition Domain (lo hi : D) : Params D := Build_Params (lo, hi).
Definition params_init : gmap string (Params D) :=
  let two_pi := (vlit 2 * vlit M_PI)%A in
  list_to_map
    [("sin_pi", Domain (vlit 0) (vlit 2)); ("cos_pi", Domain (vlit 0) (vlit 2));
     ("sin", Domain (vlit 0) two_pi); ("cos", Domain (vlit 0) two_pi);
     ("tan", Domain (vlit 0) two_pi); ("asin", Domain (vlit (-1)) (vlit 1));
     ("acos", Domain (vlit (-1)) (vlit 1));
     ("atan", Domain (vlit (-100)) (vlit 100));
     ("erf", Domain (vlit (-1)) (vlit 1)); ("erfc", Domain (vlit (-1)) (vlit 1));
     ("exp", Domain (vlit (-10)) (vlit 10)); ("log", Domain (vlit 0) (vlit 10));
     ("asinh", Domain (vlit (-100)) (vlit 100));
     ("acosh", Domain (vlit 1) (vlit 1000));
     ("atanh", Domain (vlit (-1)) (vlit 1));
     ("bessel_Y0", Domain (vlit (1 # 10)) (vlit 30));
     ("bessel_Y1", Domain (vlit (1 # 10)) (vlit 30));
     ("bessel_Y2", Domain (vlit (1 # 10)) (vlit 30))].

(** *** The dispatcher *)

(** [for (int i = 0; i < argc; ++i) res.insert(argv[i]);] *)
Definition parse_args (argc : Z) (argv : list string) : option (gset string) :=
  for_loop (Z.to_nat argc) (Z.to_nat argc) 1
    (λ i res, arg ← argv !! i; Some ({[arg]} ∪ res)) 0 ∅.

(** [for (auto kv : funs) fun_union.insert(kv.first);] *)
Definition insert_keys {V} (funs : gmap string V) (fun_union : gset string)
    : gset string :=
  map_fold (λ k _ acc, {[k]} ∪ acc) fun_union funs.

(** The nineteen loops that fill [fun_union], and the four more under
    [#ifdef __AVX512F__]. *)
Definition fun_union : gset string :=
  let u := insert_keys amdlibm_funs_fx1 ∅ in
  let u := insert_keys amdlibm_funs_dx1 u in
  let u := insert_keys boost_funs_fx1 u in
  let u := insert_keys boost_funs_dx1 u in
  let u := insert_keys eigen_funs u in
  let u := insert_keys fort_funs u in
  let u := insert_keys gsl_funs u in
  let u := insert_keys gsl_complex_funs u in
  let u := insert_keys hank10x_funs u in
  let u := insert_keys sleef_funs_fx1 u in
  let u := insert_keys sleef_funs_dx1 u in
  let u := insert_keys std_funs_fx1 u in
  let u := insert_keys std_funs_dx1 u in
  let u := insert_keys af_funs_dx4 u in
  let u := insert_keys amdlibm_funs_dx4 u in
  let u := insert_keys amdlibm_funs_fx8 u in
  let u := insert_keys sctl_funs_dx4 u in
  let u := insert_keys sleef_funs_dx4 u in
  let u := insert_keys sleef_funs_fx8 u in
  if AVX512F then
    let u := insert_keys af_funs_dx8 u in
    let u := insert_keys sctl_funs_dx8 u in
    let u := insert_keys sleef_funs_dx8 u in
    insert_keys sleef_funs_fx16 u
  else u.

(** [if (input_keys.size() > 0)
       std::set_intersection(fun_union, input_keys, inserter(keys_to_eval));
     else keys_to_eval = fun_union;] *)
Definition keys_to_eval (input_keys : gset string) : gset string :=
  if decide (0 < size input_keys) then fun_union ∩ input_keys else fun_union.

(** [create_baobzi_func(infun, domain)] *)
Definition create_baobzi_func (infun : D → D) (domain : D * D) : FUN_T D :=
  let input := Build_baobzi_input infun 1 8 (vlit (1 # 10000000000))
                                  (vlit (6 # 10)) 0 in
  let hl := (vlit (5 # 10) * (domain.2 - domain.1))%A in
  let center := (domain.1 + hl)%A in
  Baobzi (new_Baobzi input center hl).

(** [for (auto &key : keys_to_eval)
       if (potential_baobzi_funs.count(key))
         baobzi_funs[key] = create_baobzi_func(..., params[key].domain);]
    The loop state is [baobzi_funs] and the table [params], in which
    [params[key]] may insert a default entry. *)
Definition create_baobzi_funs (keys : list string) (params : gmap string (Params D))
    : gmap string (FUN_T D) * gmap string (Params D) :=
  foldl (λ '(baobzi_funs, params) key,
           match potential_baobzi_funs !! key with
           | Some infun =>
               let '(par, params) := operator_index params key in
               (<[key := create_baobzi_func infun (domain par)]> baobzi_funs, params)
           | None => (baobzi_funs, params)
           end)
        (∅, params) keys.

(** *** The canonical sample *)

(** [Eigen::ArrayXd::Random(n)]: the next [n] values of the generator. *)
Definition Random (n : nat) : M D (list D) :=
  λ w, Some (rand w <$> seq (drawn w) n,
             World (clock w) (ticks w) (rand w) (drawn w + n)).

(** [Eigen::ArrayX<cdouble>::Random(n)]: two values for each entry. *)
Definition Random_cdouble (n : nat) : M D (list (complex D)) :=
  λ w, Some ((λ i, Complex (rand w (drawn w + 2 * i)) (rand w (drawn w + 2 * i + 1)))
               <$> seq 0 n,
             World (clock w) (ticks w) (rand w) (drawn w + 2 * n)).

(** The three sample vectors of a run configuration. *)
Record samples := Build_samples {
  vals : list D;
  fvals : list F;
  cvals : list (complex D);
}.

(** [vals = 0.5 * (ArrayXd::Random(n_eval) + 1.0);
     fvals = vals.cast<float>();
     cvals = 0.5 * (ArrayX<cdouble>::Random(n_eval) + complex<double>{1.0, 1.0});] *)
Definition draw_samples (n_eval : Z) : M D samples :=
  r ← Random (Z.to_nat n_eval);
  let vals := (λ x, vlit (5 # 10) * (x + vlit 1))%A <$> r in
  let fvals := cast <$> vals in
  c ← Random_cdouble (Z.to_nat n_eval);
  let cvals := (λ z, Complex (vlit (5 # 10) * (re z + vlit 1))%A
                             (vlit (5 # 10) * (im z + vlit 1))%A) <$> c in
  mret (Build_samples vals fvals cvals).

(** *** The sweep over the backends for one key *)

(** The body of [for (auto key : keys_to_eval)]: one [std::cout <<
    test_func(...)] for each backend, then a newline. *)
Definition sweep (baobzi_funs : gmap string (FUN_T D)) (params : gmap string (Params D))
    (s : samples) (n_repeat : nat) (key : string) : M D string :=
  let '(Build_samples vals fvals cvals) := s in
  sequence (
    [ report (test_func key "boost_fx1" boost_funs_fx1 params fvals n_repeat);
      report (test_func key "std_fx1" std_funs_fx1 params fvals n_repeat);
      report (test_func key "amdlibm_fx1" amdlibm_funs_fx1 params fvals n_repeat);
      report (test_func key "amdlibm_fx8" amdlibm_funs_fx8 params fvals n_repeat);
      report (test_func key "sleef_fx1" sleef_funs_fx1 params fvals n_repeat);
      report (test_func key "sleef_fx8" sleef_funs_fx8 params fvals n_repeat);
      report (test_func key "af_fx8" af_funs_fx8 params fvals n_repeat);
      report (test_func key "sctl_fx8" sctl_funs_fx8 params fvals n_repeat);
      report (test_func_OPS key "eigen_fxx" eigen_funs params fvals n_repeat) ]
    ++ (if AVX512F then
      [ report (test_func key "agnerfog_fx16" af_funs_fx16 params fvals n_repeat);
        report (test_func key "sctl_fx16" sctl_funs_fx16 params fvals n_repeat);
        report (test_func key "sleef_fx16" sleef_funs_fx16 params fvals n_repeat) ]
      else [])
    ++
    [ report (test_func key "std_dx1" std_funs_dx1 params vals n_repeat);
      report (test_func key "fort_dx1" fort_funs params vals n_repeat);
      report (test_func key "amdlibm_dx1" amdlibm_funs_dx1 params vals n_repeat);
      report (test_func key "boost_dx1" boost_funs_dx1 params vals n_repeat);
      report (test_func key "gsl_dx1" gsl_funs params vals n_repeat);
      report (test_func key "gsl_cdx1" gsl_complex_funs params cvals n_repeat);
      report (test_func key "sleef_dx1" sleef_funs_dx1 params vals n_repeat);
      report (test_func key "hank10x_dx1" hank10x_funs params cvals n_repeat);
      report (test_func key "baobzi_dx1" baobzi_funs params vals n_repeat);
      report (test_func_OPS key "eigen_dxx" eigen_funs params vals n_repeat);
      report (test_func key "amdlibm_dx4" amdlibm_funs_dx4 params vals n_repeat);
      report (test_func key "agnerfog_dx4" af_funs_dx4 params vals n_repeat);
      report (test_func key "sctl_dx4" sctl_funs_dx4 params vals n_repeat);
      report (test_func key "sleef_dx4" sleef_funs_dx4 params vals n_repeat) ]
    ++ (if AVX512F then
      [ report (test_func key "agnerfog_dx8" af_funs_dx8 params vals n_repeat);
        report (test_func key "sctl_dx8" sctl_funs_dx8 params vals n_repeat);
        report (test_func key "sleef_dx8" sleef_funs_dx8 params vals n_repeat) ]
      else [])
    ++ [ mret endl ]).

(** [run_sets = {{1024, 1e4}, {1024 * 1e4, 1}}], a vector of pairs of
    [int]. *)
Definition run_sets : list (Z * Z) := [(1024, 10000); (10240000, 1)]%Z.

(** The body of [for (auto &run_set : run_sets)]: the samples are drawn,
    then every key is swept.  The text written to [std::cerr] is left out.
    The samples are returned next to the output for the statements about
    them. *)
Definition run_set_body (baobzi_funs : gmap string (FUN_T D))
    (params : gmap string (Params D)) (keys : list string) (run_set : Z * Z)
    : M D (samples * string) :=
  let '(n_eval, n_repeat) := run_set in
  s ← draw_samples n_eval;
  out ← sequence (sweep baobzi_funs params s (Z.to_nat n_repeat) <$> keys);
  mret (s, out).

Fixpoint for_run_sets (body : Z * Z → M D (samples * string)) (l : list (Z * Z))
    : M D (list samples * string) :=
  match l with
  | [] => mret ([], EmptyString)
  | run_set :: rest =>
      '(s, out) ← body run_set;
      '(ss, out') ← for_run_sets body rest;
      mret (s :: ss, out +:+ out')
  end.

(** [main(argc, argv)]: the samples of the run configurations, the text
    written to [std::cout] and the exit status.  The keys are visited in
    the order of [elements], which stands for the iteration order of the
    [std::set]. *)
Definition main (argc : Z) (argv : list string) : M D (list samples * string * Z) :=
  input_keys ← lift_option (parse_args (argc - 1) (drop 1 argv));
  let params := params_init in
  let keys_to_eval := keys_to_eval input_keys in
  let '(baobzi_funs, params) := create_baobzi_funs (elements keys_to_eval) params in
  '(ss, out) ← for_run_sets
     (run_set_body baobzi_funs params (elements keys_to_eval)) run_sets;
  mret (ss, out, 0%Z).
End Program.

(** ** Specification vocabulary *)

(** What [c] iterations of a vector loop of width [W] leave in the first
    [c * W] output positions: the lanes of [f] on each block of [W]
    inputs, one block after the other. *)
Definition lanes_out {Real} (W : nat) (f : list Real → list Real)
    (vals : list Real) (c : nat) : list Real :=
  seq 0 c ≫= λ k, f (take W (drop (k * W) vals)).

(** A function on vectors of [W] lanes. *)
Definition lanes {Real} (W : nat) (f : list Real → list Real) : Prop :=
  ∀ x, length x = W → length (f x) = W.

Section HarnessVocabulary.
Context {D VAL_T : Type} `{!Arith D, !Arith VAL_T, !Cast D VAL_T}.
Context `{!Indeterminate VAL_T}.

(** The timed part of [test_func], once the adapter is found and the
    inputs are mapped: [R] evaluations [body] into a fresh buffer of [size]
    entries between two readings of the clock; [n] is the number of
    inputs.  The buffer has been written if there was an evaluation. *)
Definition timed_run (label : string) (par : Params D) (size n : nat)
    (body : list VAL_T → option (list VAL_T)) (R : nat) (w : world D)
    : option (BenchResult D VAL_T * world D) :=
  match for_loop R R 1 (λ _ resptr, body resptr) 0
                 (indeterminate <$> seq 0 size) with
  | Some resptr =>
      Some (Build_BenchResult resptr
              (get_wtime_diff (clock w (ticks w)) (clock w (S (ticks w))))
              label
              (Some (size_t_mul (Z.of_nat n) (Z.of_nat R)))
              par (bool_decide (0 < R)),
            World (clock w) (S (S (ticks w))) (rand w) (drawn w))
  | None => None
  end.

(** An adapter that writes in place: on an output buffer of the size that
    [test_func] allocates, an evaluation returns and leaves a buffer of
    that size. *)
Definition in_place (f : FUN_T VAL_T) (vals : list VAL_T) : Prop :=
  ∀ resptr, length resptr = res_size f (length vals) →
    ∃ out, evaluate f vals resptr = Some out ∧ length out = length resptr.

(** A deterministic (pure) adapter: what an evaluation leaves in the output
    buffer is a function of the inputs alone, whatever the buffer held. *)
Definition pure_adapter (f : FUN_T VAL_T) (vals : list VAL_T) : Prop :=
  ∃ out, length out = res_size f (length vals)
    ∧ ∀ resptr, length resptr = res_size f (length vals) →
        evaluate f vals resptr = Some out.

(** The inputs that [test_func] evaluates for [name]: the sample mapped
    into the domain that [params[name]] gives. *)
Definition mapped_inputs (params : gmap string (Params D)) (name : string)
    (vals_in : list VAL_T) : list VAL_T :=
  let par := (operator_index params name).1 in
  transform_domain vals_in (domain par).1 (domain par).2.

(** The results of a pair-output adapter, one pair after the other. *)
Definition pairs_out (f : VAL_T → VAL_T * VAL_T) (vals : list VAL_T) : list VAL_T :=
  vals ≫= λ x, [(f x).1; (f x).2].
End HarnessVocabulary.

Section ReportVocabulary.
Context {D VAL_T : Type} `{!Arith D, !Arith VAL_T, !Cast D VAL_T}.
Context `{!Indeterminate VAL_T, !ArrayOps VAL_T, !Show D, !Show VAL_T}.

(** What [std::cout << test_func(...)] comes to for a backend, in terms of
    the inputs [x] that its adapter is given: the report of the timed run
    of the adapter for [key] on [x], and the report of the empty result if
    the table has no adapter for [key]. *)
Definition report_run (library_prefix key : string) (par : Params D)
    (funs : gmap string (FUN_T VAL_T)) (x : list VAL_T) (R : nat) : M D string :=
  let label := library_prefix +:+ "_" +:+ key in
  report (match funs !! key with
          | Some f => timed_run label par (res_size f (length x)) (length x)
                                (evaluate f x) R
          | None => mret (BenchResult_label label)
          end).

Definition report_run_OPS (library_prefix key : string) (par : Params D)
    (funs : gmap string OPS) (x : list VAL_T) (R : nat) : M D string :=
  let label := library_prefix +:+ "_" +:+ key in
  report (match funs !! key with
          | Some OP => timed_run label par (length x) (length x)
                                 (λ _, Some (array_op OP <$> x)) R
          | None => mret (BenchResult_label label)
          end).
End ReportVocabulary.

(** A reading of the clock: [tv_nsec] counts the nanoseconds of the current
    second. *)
Definition valid_timespec (t : timespec) : Prop :=
  (0 ≤ tv_sec t ∧ 0 ≤ tv_nsec t < 1000000000)%Z.

(** [ts] is strictly earlier than [tf]. *)
Definition timespec_lt (ts tf : timespec) : Prop :=
  (tv_sec ts < tv_sec tf ∨ (tv_sec ts = tv_sec tf ∧ tv_nsec ts < tv_nsec tf))%Z.
Definition timespec_le (ts tf : timespec) : Prop :=
  (tv_sec ts < tv_sec tf ∨ (tv_sec ts = tv_sec tf ∧ tv_nsec ts ≤ tv_nsec tf))%Z.

(** [CLOCK_MONOTONIC]: valid readings that never go back. *)
Definition monotonic (clock : nat → timespec) : Prop :=
  ∀ i, valid_timespec (clock i) ∧ timespec_le (clock i) (clock (S i)).

(** ** Concrete instances for the examples *)

Module Demo.
(** Integers print as the stream prints them; other rationals as a
    fraction. *)
Definition show_Q (q : Q) : string :=
  if decide (Qden q = 1%positive) then pretty (Qnum q)
  else pretty (Qnum q) +:+ "/" +:+ pretty (Zpos (Qden q)).

#[export] Instance show_Qc : Show Qc := λ _ x, show_Q (this x).
#[export] Instance show_double : Show IEEE.double :=
  λ _ x, match IEEE.to_Q (IEEE.dbits x) with
         | Some q => show_Q (Qred q)
         | None => "nan"
         end.
#[export] Instance show_float : Show IEEE.float :=
  λ _ x, match IEEE.to_Q (IEEE.fbits x) with
         | Some q => show_Q (Qred q)
         | None => "nan"
         end.
#[export] Instance show_complex {A} `{!Show A} : Show (complex A) :=
  λ p z, "(" +:+ show p (re z) +:+ "," +:+ show p (im z) +:+ ")".

(** Some content for fresh buffers. *)
#[export] Instance garbage {A} `{!Arith A} : Indeterminate A :=
  λ i, vlit (inject_Z (Z.of_nat i + 7)).

(** The identity for every coefficient-wise function. *)
#[export] Instance array_ops {A} : ArrayOps A := λ _ x, x.

(** External libraries that copy their input; the approximant evaluates
    its oracle. *)
#[export] Instance libraries {F D} : Libraries F D := {|
  lib_f _ _ x := x;
  lib_d _ _ x := x;
  lib_c _ _ z := z;
  lib_vec_f _ _ x := x;
  lib_vec_d _ _ x := x;
  hank103 z := (z, z);
  new_Baobzi input _ _ := scalar_func_apply (func D input);
|}.

(** A clock whose readings are 0 s, 2.5 s, 4 s, 6.5 s and so on, and one
    that stands still; a generator that alternates between -1 and 1. *)
Definition ticking {D} `{!Arith D} : world D :=
  World (λ i, Timespec (Z.of_nat i * 2) (Z.of_nat (i `mod` 2) * 500000000)) 0
        (λ i, vlit (if Nat.even i then -1 else 1)) 0.
Definition frozen {D} `{!Arith D} : world D :=
  World (λ _, Timespec 5 0) 0 (λ i, vlit (if Nat.even i then -1 else 1)) 0.

(** A table with a scalar adapter, a vector adapter of four lanes and a
    pair-output adapter. *)
Definition funs {A} `{!Arith A} : gmap string (FUN_T A) :=
  list_to_map
    [("square", Multi (scalar_func_apply (λ x, x * x)%A));
     ("sinh", Multi (scalar_func_apply (λ x, x + x * x * x)%A));
     ("reverse4", Multi (vec_func_apply 4 reverse));
     ("twice_thrice", PairOut (λ x, (x + x, x + x + x)%A))].
Definition ops : gmap string OPS :=
  list_to_map [("sin", SIN); ("cos", COS); ("sinh", SINH)].

(** Command lines. *)
Definition argv_filter : list string :=
  ["sf_benchmarks"; "sin"; "not_a_function"; "bessel_Y0"].
Definition argv_unknown : list string := ["sf_benchmarks"; "not_a_function"].

(** Rational and floating-point samples. *)
Definition sample_Qc : list Qc := Q2Qc <$> [0; 1 # 4; 1 # 2; 1]%Q.
Definition sample_double : list IEEE.double := vlit <$> [0; 1 # 4; 1 # 2; 1]%Q.
End Demo.

Section Backends.
Context {F D : Type} `{!Arith F, !Arith D, !Cast D F, !Cast D D}.
Context `{!Indeterminate F, !Indeterminate D, !Indeterminate (complex D)}.
Context `{!ArrayOps F, !ArrayOps D, !Show F, !Show D, !Show (complex D)}.
Context `{!Libraries F D}.

(** A backend as [sweep] probes it: its label prefix and its table, by the
    type of its values and the overload of [test_func] that serves it. *)
Inductive backend :=
  | Float_backend (library_prefix : string) (funs : gmap string (FUN_T F))
  | Float_OPS_backend (library_prefix : string) (funs : gmap string OPS)
  | Double_backend (library_prefix : string) (funs : gmap string (FUN_T D))
  | Double_OPS_backend (library_prefix : string) (funs : gmap string OPS)
  | Complex_backend (library_prefix : string)
      (funs : gmap string (FUN_T (complex D))).

Definition backend_keys (b : backend) : gset string :=
  match b with
  | Float_backend _ funs => dom funs
  | Float_OPS_backend _ funs => dom funs
  | Double_backend _ funs => dom funs
  | Double_OPS_backend _ funs => dom funs
  | Complex_backend _ funs => dom funs
  end.

(** The backends in the order of the sweep, before and after the
    approximants. *)
Definition backends_before (AVX512F : bool) : list backend :=
  [ Float_backend "boost_fx1" boost_funs_fx1;
    Float_backend "std_fx1" std_funs_fx1;
    Float_backend "amdlibm_fx1" amdlibm_funs_fx1;
    Float_backend "amdlibm_fx8" amdlibm_funs_fx8;
    Float_backend "sleef_fx1" sleef_funs_fx1;
    Float_backend "sleef_fx8" sleef_funs_fx8;
    Float_backend "af_fx8" af_funs_fx8;
    Float_backend "sctl_fx8" sctl_funs_fx8;
    Float_OPS_backend "eigen_fxx" eigen_funs ]
  ++ (if AVX512F then
        [ Float_backend "agnerfog_fx16" af_funs_fx16;
          Float_backend "sctl_fx16" sctl_funs_fx16;
          Float_backend "sleef_fx16" sleef_funs_fx16 ]
      else [])
  ++ [ Double_backend "std_dx1" std_funs_dx1;
       Double_backend "fort_dx1" fort_funs;
       Double_backend "amdlibm_dx1" amdlibm_funs_dx1;
       Double_backend "boost_dx1" boost_funs_dx1;
       Double_backend "gsl_dx1" gsl_funs;
       Complex_backend "gsl_cdx1" gsl_complex_funs;
       Double_backend "sleef_dx1" sleef_funs_dx1;
       Complex_backend "hank10x_dx1" hank10x_funs ].
Definition backends_after (AVX512F : bool) : list backend :=
  [ Double_OPS_backend "eigen_dxx" eigen_funs;
    Double_backend "amdlibm_dx4" amdlibm_funs_dx4;
    Double_backend "agnerfog_dx4" af_funs_dx4;
    Double_backend "sctl_dx4" sctl_funs_dx4;
    Double_backend "sleef_dx4" sleef_funs_dx4 ]
  ++ (if AVX512F then
        [ Double_backend "agnerfog_dx8" af_funs_dx8;
          Double_backend "sctl_dx8" sctl_funs_dx8;
          Double_backend "sleef_dx8" sleef_funs_dx8 ]
      else []).

(** All the backends of a run. *)
Definition backends (AVX512F : bool) (baobzi_funs : gmap string (FUN_T D))
    : list backend :=
  backends_before AVX512F
  ++ [Double_backend "baobzi_dx1" baobzi_funs]
  ++ backends_after AVX512F.

(** The key set of every backend. *)
Definition backend_key_sets (AVX512F : bool)
    (baobzi_funs : gmap string (FUN_T D)) : list (gset string) :=
  backend_keys <$> backends AVX512F baobzi_funs.

(** Probing a backend for a key: every backend of a value type is given
    the same sample vector. *)
Definition probe (params : gmap string (Params D)) (s : samples)
    (n_repeat : nat) (key : string) (b : backend) : M D string :=
  match b with
  | Float_backend library_prefix funs =>
      report (test_func key library_prefix funs params (fvals s) n_repeat)
  | Float_OPS_backend library_prefix funs =>
      report (test_func_OPS key library_prefix funs params (fvals s) n_repeat)
  | Double_backend library_prefix funs =>
      report (test_func key library_prefix funs params (vals s) n_repeat)
  | Double_OPS_backend library_prefix funs =>
      report (test_func_OPS key library_prefix funs params (vals s) n_repeat)
  | Complex_backend library_prefix funs =>
      report (test_func key library_prefix funs params (cvals s) n_repeat)
  end.

(** A backend run for [key] on given inputs: [xf] for a backend on
    [float], [xd] for one on [double], [xc] for one on [complex<double>];
    [par] is the entry of the domain table for [key]. *)
Definition run_backend (par : Params D) (n_repeat : nat) (key : string)
    (xf : list F) (xd : list D) (xc : list (complex D)) (b : backend)
    : M D string :=
  match b with
  | Float_backend library_prefix funs =>
      report_run library_prefix key par funs xf n_repeat
  | Float_OPS_backend library_prefix funs =>
      report_run_OPS library_prefix key par funs xf n_repeat
  | Double_backend library_prefix funs =>
      report_run library_prefix key par funs xd n_repeat
  | Double_OPS_backend library_prefix funs =>
      report_run_OPS library_prefix key par funs xd n_repeat
  | Complex_backend library_prefix funs =>
      report_run library_prefix key par funs xc n_repeat
  end.

(** The sweep for [key] in terms of the inputs that the adapters are
    given: the samples of the configuration are mapped into the domain of
    [key], once for each value type, and every backend is run on the
    mapped inputs of its type. *)
Definition sweep_on_mapped_inputs (AVX512F : bool)
    (baobzi_funs : gmap string (FUN_T D)) (params : gmap string (Params D))
    (s : samples) (n_repeat : nat) (key : string) : M D string :=
  let par := (operator_index params key).1 in
  let xf := mapped_inputs params key (fvals s) in
  let xd := mapped_inputs params key (vals s) in
  let xc := mapped_inputs params key (cvals s) in
  sequence ((run_backend par n_repeat key xf xd xc
               <$> backends AVX512F baobzi_funs)
            ++ [mret endl]).
End Backends.

Section SampleVocabulary.
Context {F D : Type} `{!Arith D, !Cast D F}.

(** The samples that [draw_samples] makes of the values of the generator
    from position [d] on: [n] values for [vals], then [2 * n] for
    [cvals]. *)
Definition samples_at (rand : nat → D) (d n : nat) : samples (F := F) :=
  let vals := (λ x, vlit (5 # 10) * (x + vlit 1))%A <$> (rand <$> seq d n) in
  Build_samples vals (cast <$> vals)
    ((λ z, Complex (vlit (5 # 10) * (re z + vlit 1))%A
                   (vlit (5 # 10) * (im z + vlit 1))%A)
       <$> ((λ i, Complex (rand (d + n + 2 * i)) (rand (d + n + 2 * i + 1)))
              <$> seq 0 n)).

(** A step of the program that leaves the generator as it is (it may read
    the clock). *)
Definition same_generator (w w' : world D) : Prop :=
  rand w' = rand w ∧ drawn w' = drawn w ∧ clock w' = clock w.
End SampleVocabulary.

(** What the harness relies on in the external libraries: a vector
    function returns as many lanes as it is given, and the approximant
    evaluates in place. *)
Definition well_behaved {F D : Type} `{!Libraries F D} : Prop :=
  (∀ t k W, lanes W (lib_vec_f t k))
  ∧ (∀ t k W, lanes W (lib_vec_d t k))
  ∧ (∀ input center hl (vals resptr : list D),
       length resptr = length vals →
       ∃ out, new_Baobzi input center hl vals resptr (length vals) = Some out
              ∧ length out = length resptr).

(** A table whose adapters all write in place on [n] inputs. *)
Definition safe_table {VAL_T : Type} (n : nat) (funs : gmap string (FUN_T VAL_T))
    : Prop :=
  ∀ key f vals, funs !! key = Some f → length vals = n → in_place f vals.

(** A statement that returns, whatever the world. *)
Definition returns {D A : Type} (stmt : M D A) : Prop :=
  ∀ w, is_Some (stmt w).

(** Two floating-point numbers that are the same but for the sign of a
    zero: [w] is [v], or [v] is -0.0 and [w] is +0.0. *)
Definition same_number (v w : spec_float) : Prop :=
  w = v ∨ (v = S754_zero true ∧ w = S754_zero false).

(** *** Floating-point values

    The vocabulary in which the rounding of [SpecFloat] is specified: the
    rational value of a mantissa and an exponent, the position of a
    rational between two consecutive multiples of a power of two, and the
    double-precision instances of the two formulas of the harness. *)

(** Powers of two as rationals. *)
Definition pow2 (e : Z) : Q := (2 ^ e)%Q.

(** The value of a mantissa at an exponent. *)
Definition F2Q (m e : Z) : Q := (inject_Z m * pow2 e)%Q.

(** Where a nonnegative [x] lies between two consecutive multiples of [2^e]. *)
Definition located (x : Q) (m : Z) (l : location) (e : Z) : Prop :=
  match l with
  | loc_Exact => (x == F2Q m e)%Q
  | loc_Inexact Lt => (F2Q m e < x ∧ x < F2Q m e + (1 # 2) * pow2 e)%Q
  | loc_Inexact Eq => (x == F2Q m e + (1 # 2) * pow2 e)%Q
  | loc_Inexact Gt => (F2Q m e + (1 # 2) * pow2 e < x ∧ x < F2Q m e + pow2 e)%Q
  end.

(** The magnitude of a floating-point number (0 if it is not finite). *)
Definition SFabs_Q (x : spec_float) : Q :=
  match x with
  | S754_finite _ m e => F2Q (Zpos m) e
  | _ => 0%Q
  end.

(** The exponent at which [binary_round_aux] rounds. *)
Definition round_exp (prec emax mx ex : Z) : Z :=
  Z.max ex (fexp prec emax (Zdigits2 mx + ex)).

(** A rounded result: zero or finite, of a given sign, within the format. *)
Definition rounded (prec emax : Z) (s : bool) (r : spec_float) : Prop :=
  r = S754_zero s
  ∨ ∃ m e, r = S754_finite s m e
           ∧ (emin prec emax ≤ e ≤ emax - prec)%Z ∧ (Zpos m < 2 ^ prec)%Z.

(** The value of a floating-point number (0 if it is not finite). *)
Definition SF2Q (x : spec_float) : Q :=
  match x with
  | S754_finite s m e => F2Q (cond_Zopp s (Zpos m)) e
  | _ => 0%Q
  end.

(** A finite number with a value in [[lo, hi]]. *)
Definition SF_between (lo hi : Q) (x : spec_float) : Prop :=
  ∃ q, IEEE.to_Q x = Some q ∧ (lo <= q)%Q ∧ (q <= hi)%Q.

(** [(tf->tv_sec - ts->tv_sec) + (tf->tv_nsec - ts->tv_nsec) * 1E-9] on the
    two differences. *)
Definition elapsed_double (ds dn : Z) : spec_float :=
  SFadd 53 1024 (IEEE.of_Q 53 1024 (inject_Z ds))
    (SFmul 53 1024 (IEEE.of_Q 53 1024 (inject_Z dn))
       (IEEE.of_Q 53 1024 (1 # 1000000000))).

(** [n_evals / eval_time / 1E6]. *)
Definition Mevals_double (n : Z) (t : spec_float) : spec_float :=
  SFdiv 53 1024 (SFdiv 53 1024 (IEEE.of_Q 53 1024 (inject_Z n)) t)
    (IEEE.of_Q 53 1024 1000000).

(** The invariant of the vector loop after [c] iterations. *)
Definition simd_inv {Real} (W : nat) (f : list Real → list Real)
    (vals : list Real) (n c : nat) (st : list Real * list access) : Prop :=
  length st.1 = n * W
  ∧ take (c * W) st.1 = lanes_out W f vals c
  ∧ loads st.2 = seq 0 (c * W)
  ∧ stores st.2 = seq 0 (c * W).

(** A statement that leaves the generator as it is. *)
Definition keeps_generator {D} (stmt : M D string) : Prop :=
  ∀ w out w', stmt w = Some (out, w') → same_generator w w'.

(** Goals on canonical rationals, as goals on rationals. *)
Ltac qc_to_q :=
  unfold Qcle, Qclt, Qcplus, Qcmult, Qcminus, Qcopp, Qcdiv, Qcinv in *;
  simpl in *; rewrite ?Qred_correct in *.

(** ** The version report *)

(** How a call ends: it returns, it throws, or its behaviour is
    undefined. *)
Inductive exception := runtime_error (what : string) | out_of_range.
Inductive outcome (A : Type) :=
  | Returned (a : A)
  | Thrown (e : exception)
  | Undefined.
Arguments Returned {A} _.
Arguments Thrown {A} _.
Arguments Undefined {A}.

(** [std::to_string] on an [int]. *)
Definition to_string (n : Z) : string := pretty n.

(** [get_sleef_version], of the macros [SLEEF_VERSION_MAJOR],
    [SLEEF_VERSION_MINOR] and [SLEEF_VERSION_PATCHLEVEL]. *)
Definition get_sleef_version
    (SLEEF_VERSION_MAJOR SLEEF_VERSION_MINOR SLEEF_VERSION_PATCHLEVEL : Z)
    : string :=
  to_string SLEEF_VERSION_MAJOR +:+ "." +:+ to_string SLEEF_VERSION_MINOR
  +:+ "." +:+ to_string SLEEF_VERSION_PATCHLEVEL.

(** [get_af_version], of the macro [VECTORCLASS_H]:
    [to_string(VECTORCLASS_H / 10000) + "."
     + to_string((VECTORCLASS_H / 100) % 100) + "."
     + to_string(VECTORCLASS_H % 10)], in [int] arithmetic. *)
Definition get_af_version (VECTORCLASS_H : Z) : string :=
  to_string (Z.quot VECTORCLASS_H 10000) +:+ "."
  +:+ to_string (Z.rem (Z.quot VECTORCLASS_H 100) 100) +:+ "."
  +:+ to_string (Z.rem VECTORCLASS_H 10).

(** [get_eigen_version], of the macros [EIGEN_WORLD_VERSION],
    [EIGEN_MAJOR_VERSION] and [EIGEN_MINOR_VERSION]. *)
Definition get_eigen_version
    (EIGEN_WORLD_VERSION EIGEN_MAJOR_VERSION EIGEN_MINOR_VERSION : Z)
    : string :=
  to_string EIGEN_WORLD_VERSION +:+ "." +:+ to_string EIGEN_MAJOR_VERSION
  +:+ "." +:+ to_string EIGEN_MINOR_VERSION.

(** [fgets(buffer, n + 1, stream)]: at most [n] characters, up to and
    with the first newline; the characters read and the rest of the
    stream. *)
Fixpoint fgets (n : nat) (stream : string) : string * string :=
  match n, stream with
  | Datatypes.S n', String c rest =>
      if Ascii.eqb c (Ascii.ascii_of_nat 10) then (String c EmptyString, rest)
      else let '(line, rest') := fgets n' rest in (String c line, rest')
  | _, _ => (EmptyString, stream)
  end.

(** [buffer.data()] read as a C string: the characters before the first
    NUL. *)
Fixpoint c_str (buffer : string) : string :=
  match buffer with
  | EmptyString => EmptyString
  | String c rest =>
      if Ascii.eqb c Ascii.zero then EmptyString else String c (c_str rest)
  end.

Fixpoint has_NUL (s : string) : bool :=
  match s with
  | EmptyString => false
  | String c rest => Ascii.eqb c Ascii.zero || has_NUL rest
  end.

(** [while (fgets(buffer.data(), buffer.size(), pipe.get()) != nullptr)
      result += buffer.data();] with a buffer of 128 characters.  [fgets]
    returns [nullptr] at the end of the stream.  The recursion is on
    [fuel]; the length of the stream is enough (lemma
    [while_fgets_all]). *)
Fixpoint while_fgets (fuel : nat) (stream result : string) : option string :=
  match stream with
  | EmptyString => Some result
  | String _ _ =>
      match fuel with
      | O => None
      | Datatypes.S fuel' =>
          let '(buffer, stream') := fgets 127 stream in
          while_fgets fuel' stream' (result +:+ c_str buffer)
      end
  end.

(** [result.pop_back()]: undefined on the empty string. *)
Fixpoint pop_back (s : string) : option string :=
  match s with
  | EmptyString => None
  | String c EmptyString => Some EmptyString
  | String c rest => String c <$> pop_back rest
  end.

(** [s.substr(pos)]: throws [std::out_of_range] if [pos > s.size()]. *)
Definition substr (s : string) (pos : nat) : outcome string :=
  if decide (pos ≤ String.length s)
  then Returned (String.substring pos (String.length s - pos) s)
  else Thrown out_of_range.

Section Environment.
(** [popen(cmd, "r")]: what the command writes to its standard output, or
    [None] if the pipe cannot be opened. *)
Context (popen : string → option string).

(** [exec(cmd)] *)
Definition exec (cmd : string) : outcome string :=
  match popen cmd with
  | None => Thrown (runtime_error "popen() failed!")
  | Some stream =>
      match while_fgets (String.length stream) stream EmptyString with
      | Some result =>
          match pop_back result with
          | Some result => Returned result
          | None => Undefined
          end
      | None => Undefined
      end
  end.

Definition get_sctl_version : outcome string :=
  exec "cd ../extern/SCTL; git describe --tags".

Definition get_baobzi_version : outcome string :=
  match exec "cd ../extern/baobzi; git describe --tags" with
  | Returned s => substr s 1
  | Thrown e => Thrown e
  | Undefined => Undefined
  end.

Definition get_cpu_name : outcome string :=
  exec "grep -m1 'model name' /proc/cpuinfo | cut -d' ' --complement -f1-3".
End Environment.


(** Whether the character [c] occurs in [s]. *)
Fixpoint occurs (c : Ascii.ascii) (s : string) : bool :=
  match s with
  | EmptyString => false
  | String d rest => Ascii.eqb d c || occurs c rest
  end.

(** The decimal point of a version string. *)
Definition point : Ascii.ascii := Ascii.ascii_of_nat 46.

(** The library prefix that the sweep gives to the labels of a backend,
    and the number of backends that have an adapter for a key. *)
Definition backend_prefix {F D} (b : backend (F := F) (D := D)) : string :=
  match b with
  | Float_backend library_prefix _ => library_prefix
  | Float_OPS_backend library_prefix _ => library_prefix
  | Double_backend library_prefix _ => library_prefix
  | Double_OPS_backend library_prefix _ => library_prefix
  | Complex_backend library_prefix _ => library_prefix
  end.

Definition adapters_for {F D} (key : string)
    (bs : list (backend (F := F) (D := D))) : nat :=
  length (filter (λ b, key ∈ backend_keys b) bs).

(** A statement that reads the clock [d] times. *)
Definition reads {D} (d : nat) (stmt : M D string) : Prop :=
  ∀ w out w', stmt w = Some (out, w') → ticks w' = ticks w + d.

(** * Properties *)

(** ** Loops *)

Lemma for_loop_exit {S} fuel N step (body : nat → S → option S) i s :
  N ≤ i → for_loop fuel N step body i s = Some s.
Proof. intros ?. destruct fuel; simpl; case_decide; done || lia. Qed.

Lemma for_loop_step {S} fuel N step (body : nat → S → option S) i s :
  i < N →
  for_loop (Datatypes.S fuel) N step body i s
  = body i s ≫= for_loop fuel N step body (i + step).
Proof. intros ?. simpl. case_decide; done || lia. Qed.

(** With a positive step the loop never runs out of fuel: any two amounts
    that cover the distance to [N] give the same result. *)
Lemma for_loop_fuel {S} fuel fuel' N step (body : nat → S → option S) i s :
  1 ≤ step → N - i ≤ fuel → N - i ≤ fuel' →
  for_loop fuel N step body i s = for_loop fuel' N step body i s.
Proof.
  intros Hstep. revert fuel' i s.
  induction fuel as [|fuel IH]; intros fuel' i s H1 H2.
  - rewrite !for_loop_exit by lia. done.
  - destruct (decide (i < N)) as [Hi|Hi].
    + destruct fuel' as [|fuel']; [lia|].
      rewrite !for_loop_step by done.
      destruct (body i s) as [s'|]; simpl; [|done].
      apply IH; lia.
    + rewrite !for_loop_exit by lia. done.
Qed.

(** The invariant rule for a loop that advances by [W] up to a multiple of
    [W]: the invariant is indexed by the number of iterations done. *)
Lemma for_loop_chunks {S} (I : nat → S → Prop) fuel n W
    (body : nat → S → option S) k s :
  1 ≤ W → k ≤ n → (n - k) * W ≤ fuel → I k s →
  (∀ c s, k ≤ c < n → I c s →
     ∃ s', body (c * W) s = Some s' ∧ I (Datatypes.S c) s') →
  ∃ s', for_loop fuel (n * W) W body (k * W) s = Some s' ∧ I n s'.
Proof.
  intros HW. revert k s.
  induction fuel as [|fuel IH]; intros k s Hk Hfuel HI Hbody.
  - assert (k = n) as -> by nia.
    exists s. split; [apply for_loop_exit; lia | done].
  - destruct (decide (k = n)) as [->|Hne].
    + exists s. split; [apply for_loop_exit; lia | done].
    + rewrite for_loop_step by nia.
      destruct (Hbody k s) as (s' & -> & HI'); [lia | done |]. simpl.
      replace (k * W + W) with (Datatypes.S k * W) by lia.
      apply IH; [lia | nia | done |].
      intros c s0 Hc. apply Hbody. lia.
Qed.

(** The same for a loop that counts up by one. *)
Lemma for_loop_count {S} (I : nat → S → Prop) N (body : nat → S → option S) s :
  I 0 s →
  (∀ j s, j < N → I j s → ∃ s', body j s = Some s' ∧ I (Datatypes.S j) s') →
  ∃ s', for_loop N N 1 body 0 s = Some s' ∧ I N s'.
Proof.
  intros HI Hbody.
  destruct (for_loop_chunks I N N 1 body 0 s) as (s' & Hs' & HN);
    [lia | lia | lia | done | |].
  - intros c s0 Hc Hc0. rewrite Nat.mul_1_r. apply Hbody; [lia | done].
  - rewrite Nat.mul_1_r in Hs'. simpl in Hs'. eauto.
Qed.

(** A loop that advances by [W] towards a bound that need not be a
    multiple of [W] makes [c] iterations, where [c * W] is the first
    multiple at or above the bound. *)
Lemma for_loop_ceil {S} (I : nat → S → Prop) fuel N W
    (body : nat → S → option S) k c s :
  1 ≤ W → k ≤ c → (∀ j, j < c → j * W < N) → N ≤ c * W → c - k ≤ fuel →
  I k s →
  (∀ j s, k ≤ j < c → I j s →
     ∃ s', body (j * W) s = Some s' ∧ I (Datatypes.S j) s') →
  ∃ s', for_loop fuel N W body (k * W) s = Some s' ∧ I c s'.
Proof.
  intros HW. revert k s.
  induction fuel as [|fuel IH]; intros k s Hk Hlt Hge Hfuel HI Hbody.
  - assert (k = c) as -> by lia.
    exists s. split; [apply for_loop_exit; lia | done].
  - destruct (decide (k = c)) as [->|Hne].
    + exists s. split; [apply for_loop_exit; lia | done].
    + rewrite for_loop_step by (apply Hlt; lia).
      destruct (Hbody k s) as (s' & -> & HI'); [lia | done |]. simpl.
      replace (k * W + W) with (Datatypes.S k * W) by lia.
      apply IH; [lia | done | done | lia | done |].
      intros j s0 Hj. apply Hbody. lia.
Qed.

(** A loop whose body fails at iteration [q], before the bound, fails. *)
Lemma for_loop_stuck {S} (I : nat → S → Prop) fuel N W
    (body : nat → S → option S) k q s :
  k ≤ q → q * W < N → 1 ≤ W →
  I k s →
  (∀ j s, k ≤ j < q → I j s →
     ∃ s', body (j * W) s = Some s' ∧ I (Datatypes.S j) s') →
  (∀ s, I q s → body (q * W) s = None) →
  for_loop fuel N W body (k * W) s = None.
Proof.
  intros Hk Hq HW. revert k s Hk.
  induction fuel as [|fuel IH]; intros k s Hk HI Hbody Hfail.
  - simpl. rewrite decide_True by nia. done.
  - rewrite for_loop_step by nia.
    destruct (decide (k = q)) as [->|Hne].
    + by rewrite Hfail.
    + destruct (Hbody k s) as (s' & -> & HI'); [lia | done |]. simpl.
      replace (k * W + W) with (Datatypes.S k * W) by lia.
      apply IH; [lia | done | | done].
      intros j s0 Hj. apply Hbody. lia.
Qed.

(** ** Buffers *)

Lemma list_inserts_splice {A} (l y : list A) i :
  i + length y ≤ length l →
  list_inserts i y l = take i l ++ y ++ drop (i + length y) l.
Proof.
  intros Hlen.
  rewrite <-(take_drop i l) at 1.
  assert (length (take i l) = i) as Hi by (rewrite length_take; lia).
  rewrite <-Hi at 1.
  rewrite <-(Nat.add_0_r (length (take i l))).
  rewrite list_inserts_app_r. f_equal.
  rewrite <-(take_drop (length y) (drop i l)).
  rewrite list_inserts_0_r by (rewrite length_take, length_drop; lia).
  by rewrite drop_drop.
Qed.

Lemma take_inserts_end {A} (l y : list A) i :
  i + length y ≤ length l →
  take (i + length y) (list_inserts i y l) = take i l ++ y.
Proof.
  intros Hlen. rewrite list_inserts_splice by done.
  assert (length (take i l) = i) as Hi by (rewrite length_take; lia).
  rewrite app_assoc, take_app_length'; [done|].
  rewrite length_app. lia.
Qed.

Lemma loads_app log log' : loads (log ++ log') = loads log ++ loads log'.
Proof. apply omap_app. Qed.
Lemma stores_app log log' : stores (log ++ log') = stores log ++ stores log'.
Proof. apply omap_app. Qed.
Lemma loads_Load l : loads (Load <$> l) = l.
Proof. induction l; simpl; [done|]. unfold loads in *. simpl. by f_equal. Qed.
Lemma loads_Store l : loads (Store <$> l) = [].
Proof. induction l; simpl; done. Qed.
Lemma stores_Store l : stores (Store <$> l) = l.
Proof. induction l; simpl; [done|]. unfold stores in *. simpl. by f_equal. Qed.
Lemma stores_Load l : stores (Load <$> l) = [].
Proof. induction l; simpl; done. Qed.

(** ** The adapters *)

Section AdapterProperties.
Context {Real : Type}.
Implicit Types (vals res : list Real) (f : list Real → list Real).

Lemma lanes_out_S W f vals c :
  lanes_out W f vals (Datatypes.S c)
  = lanes_out W f vals c ++ f (take W (drop (c * W) vals)).
Proof.
  unfold lanes_out. rewrite seq_S, bind_app. simpl.
  by rewrite app_nil_r.
Qed.

Lemma length_lanes_out W f vals n :
  lanes W f → length vals = n * W → ∀ c, c ≤ n →
  length (lanes_out W f vals c) = c * W.
Proof.
  intros Hf Hvals c. induction c as [|c IH]; intros Hc; [done|].
  rewrite lanes_out_S, length_app, IH by lia.
  rewrite Hf; [lia|]. rewrite length_take, length_drop. nia.
Qed.

Lemma simd_body_inv W f vals n c st :
  lanes W f → length vals = n * W → c < n →
  simd_inv W f vals n c st →
  ∃ st', simd_body W f vals (c * W) st = Some st'
         ∧ simd_inv W f vals n (Datatypes.S c) st'.
Proof.
  intros Hf Hvals Hc (Hlen & Htake & Hloads & Hstores).
  unfold simd_body, load_a.
  rewrite decide_True by nia. simpl.
  set (x := take W (drop (c * W) vals)).
  assert (length (f x) = W) as Hy.
  { apply Hf. unfold x. rewrite length_take, length_drop. nia. }
  unfold store_a. rewrite decide_True by nia. simpl.
  eexists; split; [done|].
  unfold simd_inv; simpl. rewrite length_inserts.
  split; [done|].
  split.
  { replace (W + c * W) with (c * W + length (f x)) by lia.
    rewrite take_inserts_end by nia.
    by rewrite Htake, lanes_out_S. }
  rewrite !loads_app, !stores_app, loads_Load, loads_Store, stores_Load,
    stores_Store, Hloads, Hstores, Hy, app_nil_r. simpl.
  rewrite <-!seq_app. split; f_equal; lia.
Qed.

(** On buffers of [n * W] entries the vector loop returns: it loads every
    input index and stores every output index, each once and in order, and
    the output is [lanes_out], whatever the buffer held before. *)
Lemma simd_run_spec W f vals res n :
  1 ≤ W → lanes W f → length vals = n * W → length res = n * W →
  ∃ log, simd_run W f vals res (n * W) = Some (lanes_out W f vals n, log)
         ∧ loads log = seq 0 (n * W) ∧ stores log = seq 0 (n * W).
Proof.
  intros HW Hf Hvals Hres. unfold simd_run.
  destruct (for_loop_chunks (simd_inv W f vals n) (n * W) n W
              (simd_body W f vals) 0 (res, []))
    as ([out log] & Hrun & Hlen & Htake & Hloads & Hstores).
  - done.
  - lia.
  - lia.
  - unfold simd_inv; simpl. by rewrite take_0.
  - intros c st Hc. apply simd_body_inv; done || lia.
  - simpl in *. exists log. rewrite Hrun.
    rewrite take_ge in Htake by lia. by subst out.
Qed.

Lemma vec_func_apply_spec W f vals res n :
  1 ≤ W → lanes W f → length vals = n * W → length res = n * W →
  vec_func_apply W f vals res (n * W) = Some (lanes_out W f vals n).
Proof.
  intros. unfold vec_func_apply.
  destruct (simd_run_spec W f vals res n) as (log & -> & _); done.
Qed.

Lemma sctl_apply_spec VecLen f vals res n :
  1 ≤ VecLen → lanes VecLen f →
  length vals = n * VecLen → length res = n * VecLen →
  sctl_apply VecLen f vals res (n * VecLen) = Some (lanes_out VecLen f vals n).
Proof. apply vec_func_apply_spec. Qed.

(** *** The vector loop on any count *)

Lemma length_lanes_out_le W f vals c :
  lanes W f → c * W ≤ length vals → length (lanes_out W f vals c) = c * W.
Proof.
  intros Hf. induction c as [|c IH]; intros Hc; [done|].
  simpl in Hc. rewrite lanes_out_S, length_app, IH by lia.
  rewrite Hf; [lia|]. rewrite length_take, length_drop. lia.
Qed.

Lemma simd_body_next W f vals res j log :
  lanes W f → Datatypes.S j * W ≤ length vals →
  Datatypes.S j * W ≤ length res →
  simd_body W f vals (j * W) (lanes_out W f vals j ++ drop (j * W) res, log)
  = Some (lanes_out W f vals (Datatypes.S j) ++ drop (Datatypes.S j * W) res,
          log ++ (Load <$> seq (j * W) W) ++ (Store <$> seq (j * W) W)).
Proof.
  intros Hf Hv Hr. unfold simd_body, load_a.
  rewrite decide_True by lia. simpl.
  set (x := take W (drop (j * W) vals)).
  assert (length (f x) = W) as Hy.
  { apply Hf. unfold x. rewrite length_take, length_drop. lia. }
  assert (length (lanes_out W f vals j) = j * W) as Hlen
    by (apply length_lanes_out_le; [done | lia]).
  unfold store_a.
  rewrite decide_True by (rewrite length_app, length_drop, Hlen, Hy; lia).
  simpl. rewrite Hy. f_equal. f_equal.
  rewrite list_inserts_splice
    by (rewrite length_app, length_drop, Hlen, Hy; lia).
  rewrite take_app_length' by done.
  rewrite <-drop_drop, drop_app_length' by done.
  rewrite drop_drop, Hy, lanes_out_S, <-app_assoc. fold x.
  do 3 f_equal. lia.
Qed.

Lemma simd_run_ceil W f vals res N c :
  1 ≤ W → lanes W f → (∀ j, j < c → j * W < N) → N ≤ c * W →
  c * W ≤ length vals → c * W ≤ length res →
  ∃ log,
    simd_run W f vals res N
    = Some (lanes_out W f vals c ++ drop (c * W) res, log)
    ∧ loads log = seq 0 (c * W) ∧ stores log = seq 0 (c * W).
Proof.
  intros HW Hf Hlt Hge Hv Hr. unfold simd_run.
  assert (c ≤ N) as HcN.
  { destruct c as [|c]; [lia|]. specialize (Hlt c). nia. }
  destruct (for_loop_ceil
              (λ j st, st.1 = lanes_out W f vals j ++ drop (j * W) res
                       ∧ loads st.2 = seq 0 (j * W)
                       ∧ stores st.2 = seq 0 (j * W))
              N N W (simd_body W f vals) 0 c (res, []))
    as ([out log] & Hrun & Hout & Hloads & Hstores);
    [done | lia | done | done | lia | by rewrite drop_0 | |].
  - intros j [buf log] Hj (Hbuf & Hloads & Hstores). simpl in *. subst buf.
    rewrite simd_body_next by (done || nia).
    eexists. split; [done|]. simpl. split; [done|].
    rewrite !loads_app, !stores_app, loads_Load, loads_Store, stores_Load,
      stores_Store, Hloads, Hstores, app_nil_r. simpl.
    replace (W + j * W) with (j * W + W) by lia.
    by rewrite !seq_app.
  - simpl in *. subst out. by exists log.
Qed.

Lemma simd_run_stuck W f vals res N c :
  1 ≤ W → lanes W f → (∀ j, j < c → j * W < N) →
  length vals < c * W ∨ length res < c * W →
  simd_run W f vals res N = None.
Proof.
  intros HW Hf Hlt Hshort. unfold simd_run.
  set (q := (length vals `min` length res) / W).
  assert (q * W ≤ length vals `min` length res) as Hq
    by (rewrite Nat.mul_comm; apply Nat.Div0.mul_div_le).
  assert (length vals `min` length res < Datatypes.S q * W) as Hq'.
  { pose proof (Nat.mul_succ_div_gt (length vals `min` length res) W). lia. }
  assert (q < c) as Hqc by nia.
  pose proof (for_loop_stuck
                (λ j st, st.1 = lanes_out W f vals j ++ drop (j * W) res)
                N N W (simd_body W f vals) 0 q (res, [])) as H.
  simpl in H. apply H; clear H;
    [lia | by apply Hlt | done | by rewrite drop_0 | |].
  - intros j [buf log] Hj Hbuf. simpl in *. subst buf.
    rewrite simd_body_next by (done || nia). by eexists.
  - intros [buf log] Hbuf. simpl in *. subst buf.
    unfold simd_body, load_a. case_decide as Hload; [|done]. simpl.
    set (x := take W (drop (q * W) vals)).
    assert (length (f x) = W) as Hy.
    { apply Hf. unfold x. rewrite length_take, length_drop. lia. }
    unfold store_a. rewrite decide_False; [done|].
    rewrite length_app, length_drop, Hy.
    rewrite length_lanes_out_le by (done || lia). lia.
Qed.

(** The blocks depend on the inputs they cover only. *)
Lemma lanes_out_take W f vals c n :
  c * W ≤ n → lanes_out W f (take n vals) c = lanes_out W f vals c.
Proof.
  induction c as [|c IH]; intros Hc; [done|].
  rewrite !lanes_out_S, IH by lia. do 2 f_equal.
  rewrite !take_drop_commute, take_take. do 2 f_equal. lia.
Qed.

(** The scalar loop: position [i] receives [g (vals[i])]. *)
Lemma scalar_func_apply_spec (g : Real → Real) vals res :
  length res = length vals →
  scalar_func_apply g vals res (length vals) = Some (g <$> vals).
Proof.
  intros Hres. unfold scalar_func_apply.
  destruct (for_loop_count
              (λ j buf, length buf = length vals ∧ take j buf = g <$> take j vals)
              (length vals) (scalar_body g vals) res)
    as (out & -> & Hlen & Htake).
  - by rewrite !take_0.
  - intros j buf Hj [Hlen Htake]. unfold scalar_body.
    destruct (lookup_lt_is_Some_2 vals j Hj) as [x Hx].
    rewrite Hx. simpl. rewrite decide_True by lia.
    eexists; split; [done|]. rewrite length_insert. split; [done|].
    rewrite (take_S_r _ _ (g x)) by (apply list_lookup_insert_eq; lia).
    rewrite take_insert_ge by lia.
    by rewrite (take_S_r _ _ x Hx), fmap_app, Htake.
  - rewrite !take_ge in Htake by lia. by rewrite Htake.
Qed.
End AdapterProperties.

Lemma access_in_log (log : list access) a :
  a ∈ log → access_index a ∈ loads log ∨ access_index a ∈ stores log.
Proof.
  intros Ha. unfold loads, stores.
  destruct a as [i|i]; [left|right]; apply list_elem_of_omap;
    eexists; (split; [exact Ha|done]).
Qed.

(** C9. A batched vector adapter of lane width [W] ([vec_func_apply] and
    [sctl_apply] run the same loop), called on buffers of [n] entries with
    [W] dividing [n], returns.  It writes every output position
    [0 .. n-1]: the buffer it leaves is the blocks of [f] on the blocks of
    the input, whatever the buffer held before.  It stores to exactly the
    positions [0 .. n-1] and loads exactly the positions [0 .. n-1], each
    once and in order, so that no access has an index outside [[0, n)].
    On longer buffers that begin with the same [n] inputs it writes the
    same [n] outputs and leaves the rest of the output buffer as it was;
    on a shorter input or output buffer an access is past the end. *)
Theorem batched_adapter_in_bounds {Real} (W : nat) (f : list Real → list Real)
    (vals res : list Real) (n : nat) :
  lanes W f → (W | n) → length vals = n → length res = n →
  ∃ out log,
    simd_run W f vals res n = Some (out, log)
    ∧ vec_func_apply W f vals res n = Some out
    ∧ sctl_apply W f vals res n = Some out
    ∧ length out = n
    ∧ out = lanes_out W f vals (n / W)
    ∧ stores log = seq 0 n
    ∧ loads log = seq 0 n
    ∧ Forall (λ a, access_index a < n) log
    ∧ (∀ vals' res', n ≤ length vals' → n ≤ length res' → take n vals' = vals →
         vec_func_apply W f vals' res' n = Some (out ++ drop n res')
         ∧ sctl_apply W f vals' res' n = Some (out ++ drop n res'))
    ∧ (∀ vals' res', length vals' < n ∨ length res' < n →
         vec_func_apply W f vals' res' n = None
         ∧ sctl_apply W f vals' res' n = None).
Proof.
  intros Hf [k ->] Hvals Hres.
  destruct (decide (W = 0)) as [->|HW].
  { rewrite Nat.mul_0_r in *. exists res, [].
    unfold vec_func_apply, sctl_apply, simd_run.
    rewrite for_loop_exit by lia. simpl.
    destruct res; [|done].
    split; [done|]. split; [done|]. split; [done|]. split; [done|].
    split; [done|]. split; [done|]. split; [done|]. split; [done|].
    split; [|intros ?? [?|?]; lia].
    intros vals' res' _ _ _. by rewrite drop_0. }
  rewrite Nat.div_mul by done.
  assert (∀ j, j < k → j * W < k * W) as Hlt by (intros j Hj; nia).
  destruct (simd_run_ceil W f vals res (k * W) k)
    as (log & Hrun & Hloads & Hstores); [lia | done | done | lia..|].
  rewrite drop_ge, app_nil_r in Hrun by lia.
  exists (lanes_out W f vals k), log.
  unfold vec_func_apply, sctl_apply. rewrite Hrun. simpl.
  split; [done|]. split; [done|]. split; [done|].
  split; [apply length_lanes_out_le; [done | lia]|].
  split; [done|]. split; [done|]. split; [done|]. split.
  { apply Forall_forall. intros a Ha.
    destruct (access_in_log log a Ha) as [Hin|Hin];
      rewrite ?Hloads, ?Hstores in Hin; apply elem_of_seq in Hin; lia. }
  split.
  - intros vals' res' Hv' Hr' Htake.
    destruct (simd_run_ceil W f vals' res' (k * W) k)
      as (log' & -> & _); [lia | done | done | lia..|].
    simpl. by rewrite <-Htake, lanes_out_take.
  - intros vals' res' Hshort.
    rewrite (simd_run_stuck W f vals' res' (k * W) k); [done | lia | done..].
Qed.

Lemma batched_adapter_in_bounds_witness :
  ∃ out log,
    simd_run 4 reverse (seq 10 8) (replicate 8 0) 8 = Some (out, log)
    ∧ vec_func_apply 4 reverse (seq 10 8) (replicate 8 0) 8 = Some out
    ∧ sctl_apply 4 reverse (seq 10 8) (replicate 8 0) 8 = Some out
    ∧ length out = 8
    ∧ out = lanes_out 4 reverse (seq 10 8) (8 / 4)
    ∧ stores log = seq 0 8
    ∧ loads log = seq 0 8
    ∧ Forall (λ a, access_index a < 8) log
    ∧ (∀ vals' res', 8 ≤ length vals' → 8 ≤ length res' →
         take 8 vals' = seq 10 8 →
         vec_func_apply 4 reverse vals' res' 8 = Some (out ++ drop 8 res')
         ∧ sctl_apply 4 reverse vals' res' 8 = Some (out ++ drop 8 res'))
    ∧ (∀ vals' res' : list nat, length vals' < 8 ∨ length res' < 8 →
         vec_func_apply 4 reverse vals' res' 8 = None
         ∧ sctl_apply 4 reverse vals' res' 8 = None).
Proof.
  apply (batched_adapter_in_bounds 4 reverse (seq 10 8) (replicate 8 0) 8).
  - intros x Hx. by rewrite length_reverse.
  - by exists 2.
  - reflexivity.
  - reflexivity.
Defined.

(** The accesses of that call, in the order in which they are made. *)
Example simd_run_log :
  snd <$> simd_run 4 reverse (seq 10 8) (replicate 8 0) 8
  = Some [Load 0; Load 1; Load 2; Load 3; Store 0; Store 1; Store 2; Store 3;
          Load 4; Load 5; Load 6; Load 7; Store 4; Store 5; Store 6; Store 7].
Proof. reflexivity. Qed.

(** The lanes are stored block by block; here each block of four is
    reversed. *)
Example vec_func_apply_blocks :
  vec_func_apply 4 reverse (seq 10 8) (replicate 8 0) 8
  = Some [13; 12; 11; 10; 17; 16; 15; 14].
Proof. reflexivity. Qed.

(** On longer buffers the entries past the count are neither read nor
    written; on an output buffer that is one entry short the second store
    is past the end. *)
Example vec_func_apply_on_other_buffers :
  vec_func_apply 4 reverse (seq 10 8 ++ [99]) (replicate 10 0) 8
  = Some [13; 12; 11; 10; 17; 16; 15; 14; 0; 0]
  ∧ vec_func_apply 4 reverse (seq 10 8) (replicate 7 0) 8 = None.
Proof. split; reflexivity. Qed.

(** When the lane width does not divide the count, the last iteration
    reaches past the end of the buffers: the behaviour is undefined. *)
Example vec_func_apply_past_the_end :
  vec_func_apply 4 reverse (seq 10 6) (replicate 6 0) 6 = None.
Proof. reflexivity. Qed.

(** ** The timing harness *)

Section HarnessProperties.
Context {D VAL_T : Type} `{!Arith D, !Arith VAL_T, !Cast D VAL_T}.
Context `{!Indeterminate VAL_T, !ArrayOps VAL_T}.
Implicit Types (funs : gmap string (FUN_T VAL_T)) (params : gmap string (Params D)).
Implicit Types (vals vals_in resptr : list VAL_T) (w : world D).

Lemma length_transform_domain vals lower upper :
  length (transform_domain vals lower upper) = length vals.
Proof. unfold transform_domain. by rewrite length_fmap. Qed.

(** The repeat loop writes through [resptr]: the result holds the buffer
    that the loop on the buffer alone leaves, and has been written if the
    body ran. *)
Lemma for_loop_set_data (body : list VAL_T → option (list VAL_T)) fuel N i
    (br : BenchResult D VAL_T) :
  for_loop fuel N 1
    (λ _ br, resptr ← body (data br); Some (set_data br resptr)) i br
  = resptr ← for_loop fuel N 1 (λ _ resptr, body resptr) i (data br);
    Some (if decide (i < N) then set_data br resptr else br).
Proof.
  revert i br. induction fuel as [|fuel IH]; intros i br.
  - simpl. by case_decide.
  - destruct (decide (i < N)) as [Hi|Hi].
    + rewrite !for_loop_step by done.
      destruct (body (data br)) as [resptr|]; [|done]. simpl.
      rewrite IH. cbn [data set_data res].
      destruct (decide (i + 1 < N)); [done|].
      by rewrite for_loop_exit by lia.
    + by rewrite !for_loop_exit by lia.
Qed.

Lemma for_loop_assign (out : list VAL_T) fuel N i (br : BenchResult D VAL_T) :
  for_loop fuel N 1 (λ _ br, Some (set_data br out)) i br
  = resptr ← for_loop fuel N 1 (λ _ _, Some out) i (data br);
    Some (if decide (i < N) then set_data br resptr else br).
Proof. exact (for_loop_set_data (λ _, Some out) fuel N i br). Qed.

(** [test_func] on a name that the table has: the timed run of the adapter
    on the mapped inputs. *)
Lemma test_func_found name library_prefix funs params vals_in Nrepeat w f :
  funs !! name = Some f →
  test_func name library_prefix funs params vals_in Nrepeat w
  = let par := (operator_index params name).1 in
    let vals := transform_domain vals_in (domain par).1 (domain par).2 in
    timed_run (library_prefix +:+ "_" +:+ name) par
              (res_size f (length vals)) (length vals)
              (evaluate f vals) Nrepeat w.
Proof.
  intros Hf. unfold test_func, timed_run. rewrite Hf. cbv zeta.
  unfold mbind at 1 2 4, M_bind, get_wtime, lift_option, mret, M_ret.
  rewrite for_loop_set_data. unfold data, BenchResult_sized. cbn [res].
  destruct (for_loop _ _ _ _ _ _) as [resptr|] eqn:Hloop; [|done].
  destruct Nrepeat; [|done].
  cbn in Hloop. by injection Hloop as <-.
Qed.

Lemma test_func_OPS_found name library_prefix (funs : gmap string OPS)
    params vals_in Nrepeat w OP :
  funs !! name = Some OP →
  test_func_OPS name library_prefix funs params vals_in Nrepeat w
  = let par := (operator_index params name).1 in
    let x := transform_domain vals_in (domain par).1 (domain par).2 in
    timed_run (library_prefix +:+ "_" +:+ name) par (length x) (length x)
              (λ _, Some (array_op OP <$> x)) Nrepeat w.
Proof.
  intros Hf. unfold test_func_OPS, timed_run. rewrite Hf. cbv zeta.
  unfold mbind, M_bind, get_wtime, lift_option, mret, M_ret.
  rewrite for_loop_assign.
  unfold data, BenchResult_sized. cbn [res].
  destruct (for_loop _ _ _ _ _ _) as [resptr|] eqn:Hloop; [|done].
  destruct Nrepeat; [|done].
  cbn in Hloop. by injection Hloop as <-.
Qed.

(** The repeat loop over a body that writes in place returns a buffer of
    the same size. *)
Lemma repeat_in_place (body : list VAL_T → option (list VAL_T)) n resptr R :
  (∀ b, length b = n → ∃ out, body b = Some out ∧ length out = n) →
  length resptr = n →
  ∃ out, for_loop R R 1 (λ _ b, body b) 0 resptr = Some out ∧ length out = n.
Proof.
  intros Hbody Hlen.
  apply (for_loop_count (λ _ b, length b = n)); [done|].
  intros j b _ Hb. apply Hbody, Hb.
Qed.

(** The repeat loop over a body whose result does not depend on the buffer:
    after one repeat or more the buffer holds that result. *)
Lemma repeat_pure (body : list VAL_T → option (list VAL_T)) n resptr out R :
  (∀ b, length b = n → body b = Some out) →
  length out = n → length resptr = n → 1 ≤ R →
  for_loop R R 1 (λ _ b, body b) 0 resptr = Some out.
Proof.
  intros Hbody Hout Hlen HR.
  destruct (for_loop_count
              (λ j b, length b = n ∧ (1 ≤ j → b = out)) R (λ _ b, body b) resptr)
    as (b & -> & _ & Hb).
  - split; [done | lia].
  - intros j b _ [Hb _]. exists out. rewrite Hbody by done. done.
  - by rewrite Hb.
Qed.

Lemma length_indeterminate size :
  length (indeterminate (T := VAL_T) <$> seq 0 size) = size.
Proof. by rewrite length_fmap, length_seq. Qed.

Lemma timed_run_in_place label par size n body R w :
  (∀ b, length b = size → ∃ out, body b = Some out ∧ length out = size) →
  ∃ resptr,
    length resptr = size
    ∧ timed_run label par size n body R w
      = Some (Build_BenchResult resptr
                (get_wtime_diff (clock w (ticks w)) (clock w (S (ticks w))))
                label (Some (size_t_mul (Z.of_nat n) (Z.of_nat R))) par
                (bool_decide (0 < R)),
              World (clock w) (S (S (ticks w))) (rand w) (drawn w)).
Proof.
  intros Hbody. unfold timed_run.
  destruct (repeat_in_place body size (indeterminate <$> seq 0 size) R)
    as (out & -> & Hout); [done | apply length_indeterminate |].
  by exists out.
Qed.

Lemma timed_run_pure label par size n body out R w :
  (∀ b, length b = size → body b = Some out) → length out = size → 1 ≤ R →
  timed_run label par size n body R w
  = Some (Build_BenchResult out
            (get_wtime_diff (clock w (ticks w)) (clock w (S (ticks w))))
            label (Some (size_t_mul (Z.of_nat n) (Z.of_nat R))) par true,
          World (clock w) (S (S (ticks w))) (rand w) (drawn w)).
Proof.
  intros Hbody Hout HR. unfold timed_run.
  rewrite (repeat_pure body size _ out R)
    by (done || apply length_indeterminate).
  by rewrite bool_decide_true by lia.
Qed.

(** *** The adapters of the source are pure *)

Lemma pure_in_place f vals : pure_adapter f vals → in_place f vals.
Proof.
  intros (out & Hout & Hf) resptr Hlen. exists out.
  split; [by apply Hf | congruence].
Qed.

Lemma length_pairs_out g vals : length (pairs_out g vals) = length vals * 2.
Proof.
  unfold pairs_out. induction vals as [|x vals IH]; [done|].
  rewrite bind_cons, length_app, IH. simpl. lia.
Qed.

Lemma pairs_out_snoc g vals x :
  pairs_out g (vals ++ [x]) = pairs_out g vals ++ [(g x).1; (g x).2].
Proof. unfold pairs_out. rewrite bind_app. simpl. done. Qed.

(** The pair-output loop stores the pair for input [i] at positions
    [2 * i] and [2 * i + 1]. *)
Lemma evaluate_PairOut g vals resptr :
  length resptr = length vals * 2 →
  evaluate (PairOut g) vals resptr = Some (pairs_out g vals).
Proof.
  intros Hlen. simpl.
  destruct (for_loop_count
              (λ j b, length b = length vals * 2
                      ∧ take (j * 2) b = pairs_out g (take j vals))
              (length vals) (pair_body g vals) resptr)
    as (out & -> & Hout & Htake).
  - by rewrite !take_0.
  - intros j b Hj [Hb Htake]. unfold pair_body.
    destruct (lookup_lt_is_Some_2 vals j Hj) as [x Hx].
    rewrite Hx. simpl. rewrite decide_True by lia.
    eexists; split; [done|]. rewrite !length_insert. split; [done|].
    replace (Datatypes.S j * 2) with (Datatypes.S (Datatypes.S (j * 2))) by lia.
    rewrite (take_S_r _ (Datatypes.S (j * 2)) (g x).2).
    2:{ replace (Datatypes.S (j * 2)) with (j * 2 + 1) by lia.
        apply list_lookup_insert_eq. rewrite length_insert. lia. }
    rewrite (take_S_r _ (j * 2) (g x).1).
    2:{ rewrite list_lookup_insert_ne by lia.
        apply list_lookup_insert_eq. lia. }
    rewrite !take_insert_ge by lia.
    rewrite (take_S_r _ _ x Hx), pairs_out_snoc, Htake, <-app_assoc. done.
  - f_equal. rewrite !take_ge in Htake by lia. done.
Qed.

Lemma PairOut_pure g vals : pure_adapter (PairOut g) vals.
Proof.
  exists (pairs_out g vals). split; [apply length_pairs_out|].
  intros resptr Hlen. by apply evaluate_PairOut.
Qed.

Lemma scalar_func_apply_pure (g : VAL_T → VAL_T) vals :
  pure_adapter (Multi (scalar_func_apply g)) vals.
Proof.
  exists (g <$> vals). split; [by rewrite length_fmap|].
  intros resptr Hlen. simpl in *. by apply scalar_func_apply_spec.
Qed.

Lemma vec_func_apply_pure W (g : list VAL_T → list VAL_T) vals :
  1 ≤ W → lanes W g → (W | length vals) →
  pure_adapter (Multi (vec_func_apply W g)) vals.
Proof.
  intros HW Hg [n Hn]. exists (lanes_out W g vals n). split.
  - simpl. rewrite Hn. by apply (length_lanes_out W g vals n).
  - intros resptr Hlen. simpl in *. rewrite Hn.
    apply vec_func_apply_spec; done || lia.
Qed.

Lemma sctl_apply_pure VecLen (g : list VAL_T → list VAL_T) vals :
  1 ≤ VecLen → lanes VecLen g → (VecLen | length vals) →
  pure_adapter (Multi (sctl_apply VecLen g)) vals.
Proof. apply vec_func_apply_pure. Qed.
End HarnessProperties.

Section HarnessClaims.
Context {D VAL_T : Type} `{!Arith D, !Arith VAL_T, !Cast D VAL_T}.
Context `{!Indeterminate VAL_T, !ArrayOps VAL_T, !Show D, !Show VAL_T}.
Implicit Types (params : gmap string (Params D)).
Implicit Types (vals vals_in resptr : list VAL_T) (w : world D).

Lemma length_mapped_inputs params name vals_in :
  length (mapped_inputs params name vals_in) = length vals_in.
Proof. apply length_transform_domain. Qed.

Lemma operator_lshift_empty (label_ : string) :
  operator_lshift (BenchResult_label (D := D) (VAL_T := VAL_T) label_)
  = Some EmptyString.
Proof. reflexivity. Qed.

(** C3. For a name that a backend's table lacks, [test_func] (either
    overload) returns normally, without reading the clock, a result whose
    output buffer has size 0; the reporter appends the empty text for it,
    so that [std::cout << test_func(...)] writes no character. *)
Theorem missing_adapter_is_silent (name library_prefix : string) params
    vals_in (Nrepeat : nat) w :
  (∀ funs : gmap string (FUN_T VAL_T), funs !! name = None →
     ∃ br, test_func name library_prefix funs params vals_in Nrepeat w
           = Some (br, w)
       ∧ length (res br) = 0
       ∧ operator_lshift br = Some EmptyString
       ∧ report (test_func name library_prefix funs params vals_in Nrepeat) w
         = Some (EmptyString, w))
  ∧ (∀ funs : gmap string OPS, funs !! name = None →
     ∃ br, test_func_OPS name library_prefix funs params vals_in Nrepeat w
           = Some (br, w)
       ∧ length (res br) = 0
       ∧ operator_lshift br = Some EmptyString
       ∧ report (test_func_OPS name library_prefix funs params vals_in Nrepeat) w
         = Some (EmptyString, w)).
Proof.
  split; intros funs Hnone;
    exists (BenchResult_label (library_prefix +:+ "_" +:+ name));
    unfold report, test_func, test_func_OPS; rewrite Hnone;
    repeat split.
Qed.

Lemma lookup_pairs_out (g : VAL_T → VAL_T * VAL_T) vals i x :
  vals !! i = Some x →
  pairs_out g vals !! (2 * i) = Some (g x).1
  ∧ pairs_out g vals !! (2 * i + 1) = Some (g x).2.
Proof.
  unfold pairs_out. revert i.
  induction vals as [|y vals IH]; intros i Hi; [done|].
  rewrite bind_cons. destruct i as [|i]; simpl in Hi.
  - by simplify_eq.
  - replace (2 * Datatypes.S i) with (Datatypes.S (Datatypes.S (2 * i))) by lia.
    simpl. by apply IH.
Qed.

(** C5. With a pair-output adapter the output buffer of [test_func] has
    size exactly twice the number of inputs, and once the adapter has been
    evaluated (one repeat or more) the pair for input [i] is at positions
    [2 * i] and [2 * i + 1].  With any other adapter that writes in place,
    and in the overload on [OPS::OPS], the size is exactly the number of
    inputs. *)
Theorem output_buffer_size (name library_prefix : string) params vals_in
    (Nrepeat : nat) w :
  (∀ (funs : gmap string (FUN_T VAL_T)) g, funs !! name = Some (PairOut g) →
     ∃ br w', test_func name library_prefix funs params vals_in Nrepeat w
              = Some (br, w')
       ∧ length (res br) = 2 * length vals_in
       ∧ (1 ≤ Nrepeat → ∀ i x, mapped_inputs params name vals_in !! i = Some x →
            res br !! (2 * i) = Some (g x).1
            ∧ res br !! (2 * i + 1) = Some (g x).2))
  ∧ (∀ (funs : gmap string (FUN_T VAL_T)) f, funs !! name = Some f →
     (∀ g, f ≠ PairOut g) →
     in_place f (mapped_inputs params name vals_in) →
     ∃ br w', test_func name library_prefix funs params vals_in Nrepeat w
              = Some (br, w')
       ∧ length (res br) = length vals_in)
  ∧ (∀ (funs : gmap string OPS) OP, funs !! name = Some OP →
     ∃ br w', test_func_OPS name library_prefix funs params vals_in Nrepeat w
              = Some (br, w')
       ∧ length (res br) = length vals_in).
Proof.
  split; [|split].
  - intros funs g Hf. rewrite (test_func_found _ _ _ _ _ _ _ _ Hf).
    cbv zeta. fold (mapped_inputs params name vals_in).
    set (vals := mapped_inputs params name vals_in).
    assert (length vals = length vals_in) as Hvals
      by apply length_mapped_inputs.
    destruct (timed_run_in_place (library_prefix +:+ "_" +:+ name)
                (operator_index params name).1
                (res_size (PairOut g) (length vals)) (length vals)
                (evaluate (PairOut g) vals) Nrepeat w)
      as (resptr & Hlen & Hrun).
    { intros b Hb.
      destruct (pure_in_place _ _ (PairOut_pure g vals) b Hb) as (out & ? & ?).
      exists out. split; [done | congruence]. }
    rewrite Hrun. do 2 eexists. split; [done|]. simpl in *.
    split; [lia|]. intros HR i x Hx.
    rewrite (timed_run_pure _ _ _ _ _ (pairs_out g vals)) in Hrun.
    + simplify_eq. by apply lookup_pairs_out.
    + intros b Hb. by apply evaluate_PairOut.
    + apply length_pairs_out.
    + done.
  - intros funs f Hf Hnot Hin. rewrite (test_func_found _ _ _ _ _ _ _ _ Hf).
    cbv zeta. fold (mapped_inputs params name vals_in).
    set (vals := mapped_inputs params name vals_in) in *.
    destruct (timed_run_in_place (library_prefix +:+ "_" +:+ name)
                (operator_index params name).1
                (res_size f (length vals)) (length vals)
                (evaluate f vals) Nrepeat w)
      as (resptr & Hlen & Hrun).
    { intros b Hb. destruct (Hin b Hb) as (out & ? & ?). exists out.
      split; [done | congruence]. }
    rewrite Hrun. do 2 eexists. split; [done|]. simpl.
    rewrite Hlen. unfold vals. rewrite length_mapped_inputs.
    destruct f; simpl; try done. by destruct (Hnot f).
  - intros funs OP Hf. rewrite (test_func_OPS_found _ _ _ _ _ _ _ _ Hf).
    cbv zeta. fold (mapped_inputs params name vals_in).
    set (x := mapped_inputs params name vals_in).
    destruct (timed_run_in_place (library_prefix +:+ "_" +:+ name)
                (operator_index params name).1 (length x) (length x)
                (λ _, Some (array_op OP <$> x)) Nrepeat w)
      as (resptr & Hlen & Hrun).
    { intros b Hb. eexists. split; [done|]. by rewrite length_fmap. }
    rewrite Hrun. do 2 eexists. split; [done|]. simpl.
    rewrite Hlen. apply length_mapped_inputs.
Qed.

End HarnessClaims.

(** ** The domain mapper *)

(** *** In exact arithmetic *)

Section ExactMapper.
Implicit Types (lo hi v w : Qc) (vals : list Qc).

Lemma transform_domain_exact vals lo hi :
  transform_domain vals lo hi = (λ v, v * (hi - lo) + lo)%Qc <$> vals.
Proof. reflexivity. Qed.

Lemma lookup_transform_domain_exact vals lo hi i :
  transform_domain vals lo hi !! i
  = (λ v, v * (hi - lo) + lo)%Qc <$> vals !! i.
Proof. rewrite transform_domain_exact. apply list_lookup_fmap. Qed.

Lemma affine_in_range lo hi v :
  (lo < hi)%Qc → (0 ≤ v)%Qc → (v ≤ 1)%Qc →
  (lo ≤ v * (hi - lo) + lo)%Qc ∧ (v * (hi - lo) + lo ≤ hi)%Qc.
Proof. intros H1 H2 H3. qc_to_q. split; nra. Qed.

Lemma affine_increasing lo hi v w :
  (lo < hi)%Qc → (v < w)%Qc →
  (v * (hi - lo) + lo < w * (hi - lo) + lo)%Qc.
Proof. intros H1 H2. qc_to_q. nra. Qed.

Lemma affine_identity v : (v * (1 - 0) + 0)%Qc = v.
Proof. ring. Qed.
End ExactMapper.

(** *** In IEEE arithmetic *)

Lemma digits2_pos_iter_xO m k :
  Zpos (digits2_pos (Pos.iter xO m k)) = (Zpos (digits2_pos m) + Zpos k)%Z.
Proof.
  induction k as [|k IH] using Pos.peano_ind.
  - simpl. lia.
  - rewrite Pos.iter_succ. simpl. lia.
Qed.

(** Multiplying a binary64 number by 1.0 is exact. *)
Lemma SFmul_one_64 s m e :
  bounded 53 1024 m e = true →
  SFmul 53 1024 (S754_finite s m e) (S754_finite false 4503599627370496 (-52))
  = S754_finite s m e.
Proof.
  unfold bounded, canonical_mantissa. intros [Hc He]%andb_true_iff.
  apply Z.eqb_eq in Hc. apply Z.leb_le in He.
  unfold SFmul. rewrite xorb_false_r, Pos.mul_comm.
  change (4503599627370496 * m)%positive with (Pos.iter xO m 52).
  unfold binary_round_aux, shr_fexp.
  unfold Zdigits2 at 1. rewrite digits2_pos_iter_xO.
  replace (Z.pos (digits2_pos m) + 52 + (e + -52))%Z
    with (Z.pos (digits2_pos m) + e)%Z by lia.
  rewrite Hc. replace (e - (e + -52))%Z with 52%Z by lia.
  cbn -[fexp Z.leb Z.sub Z.add].
  replace (e + -52 + 52)%Z with e by lia.
  unfold Zdigits2. rewrite Hc, Z.sub_diag. cbn -[Z.leb Z.sub].
  destruct (e <=? 1024 - 53)%Z eqn:E; [done|]. apply Z.leb_gt in E. lia.
Qed.

(** The same in binary32. *)
Lemma SFmul_one_32 s m e :
  bounded 24 128 m e = true →
  SFmul 24 128 (S754_finite s m e) (S754_finite false 8388608 (-23))
  = S754_finite s m e.
Proof.
  unfold bounded, canonical_mantissa. intros [Hc He]%andb_true_iff.
  apply Z.eqb_eq in Hc. apply Z.leb_le in He.
  unfold SFmul. rewrite xorb_false_r, Pos.mul_comm.
  change (8388608 * m)%positive with (Pos.iter xO m 23).
  unfold binary_round_aux, shr_fexp.
  unfold Zdigits2 at 1. rewrite digits2_pos_iter_xO.
  replace (Z.pos (digits2_pos m) + 23 + (e + -23))%Z
    with (Z.pos (digits2_pos m) + e)%Z by lia.
  rewrite Hc. replace (e - (e + -23))%Z with 23%Z by lia.
  cbn -[fexp Z.leb Z.sub Z.add].
  replace (e + -23 + 23)%Z with e by lia.
  unfold Zdigits2. rewrite Hc, Z.sub_diag. cbn -[Z.leb Z.sub].
  destruct (e <=? 128 - 24)%Z eqn:E; [done|]. apply Z.leb_gt in E. lia.
Qed.

(** [v * 1.0 + 0.0] is [v], but for -0.0 which becomes +0.0. *)
Lemma unit_domain_64 v :
  valid_binary 53 1024 v = true →
  same_number v
    (SFadd 53 1024
       (SFmul 53 1024 v (S754_finite false 4503599627370496 (-52)))
       (S754_zero false)).
Proof.
  intros Hv. destruct v as [[|]|[|]| |s m e];
    [by right | by left | by left | by left | by left |].
  left. rewrite SFmul_one_64 by done. done.
Qed.

Lemma unit_domain_32 v :
  valid_binary 24 128 v = true →
  same_number v
    (SFadd 24 128
       (SFmul 24 128 v (S754_finite false 8388608 (-23)))
       (S754_zero false)).
Proof.
  intros Hv. destruct v as [[|]|[|]| |s m e];
    [by right | by left | by left | by left | by left |].
  left. rewrite SFmul_one_32 by done. done.
Qed.

Lemma transform_domain_unit_double (vals : list IEEE.double) :
  Forall IEEE.valid_double vals →
  Forall2 (λ v w, same_number (IEEE.dbits v) (IEEE.dbits w))
          vals (transform_domain vals (vlit 0) (vlit 1)).
Proof.
  intros Hvals. unfold transform_domain. apply Forall2_fmap_r.
  apply Forall_Forall2_diag. eapply Forall_impl; [exact Hvals|].
  intros [v] Hv. apply (unit_domain_64 v Hv).
Qed.

Lemma transform_domain_unit_float (vals : list IEEE.float) :
  Forall IEEE.valid_float vals →
  Forall2 (λ v w, same_number (IEEE.fbits v) (IEEE.fbits w))
          vals (transform_domain (D := IEEE.double) vals (vlit 0) (vlit 1)).
Proof.
  intros Hvals. unfold transform_domain. apply Forall2_fmap_r.
  apply Forall_Forall2_diag. eapply Forall_impl; [exact Hvals|].
  intros [v] Hv. apply (unit_domain_32 v Hv).
Qed.

(** C2, in exact arithmetic.  For a domain [(lo, hi)] with [lo < hi] and a
    sample with entries in [[0, 1]], the mapper computes
    [v * (hi - lo) + lo] elementwise: an affine map that preserves the
    order of the entries, strictly, and whose outputs all lie in
    [[lo, hi]].  (In floating-point arithmetic each operation rounds, and
    an output can leave the interval: see the examples on concrete
    inputs.) *)
Theorem domain_mapper_exact (lo hi : Qc) (vals : list Qc) :
  (lo < hi)%Qc →
  Forall (λ v, (0 ≤ v)%Qc ∧ (v ≤ 1)%Qc) vals →
  transform_domain vals lo hi = (λ v, v * (hi - lo) + lo)%Qc <$> vals
  ∧ (∃ a b, ∀ i v, vals !! i = Some v →
       transform_domain vals lo hi !! i = Some (a * v + b)%Qc)
  ∧ (∀ i j v w y z,
       vals !! i = Some v → vals !! j = Some w →
       transform_domain vals lo hi !! i = Some y →
       transform_domain vals lo hi !! j = Some z →
       ((v < w)%Qc → (y < z)%Qc) ∧ (v = w → y = z))
  ∧ Forall (λ y, (lo ≤ y)%Qc ∧ (y ≤ hi)%Qc) (transform_domain vals lo hi).
Proof.
  intros Hlohi Hvals. split; [reflexivity|]. split; [|split].
  - exists (hi - lo)%Qc, lo. intros i v Hv.
    rewrite lookup_transform_domain_exact, Hv. simpl. f_equal. ring.
  - intros i j v w y z Hv Hw.
    rewrite !lookup_transform_domain_exact, Hv, Hw. simpl.
    intros [= <-] [= <-]. split.
    + by apply affine_increasing.
    + by intros ->.
  - rewrite transform_domain_exact. apply Forall_fmap.
    eapply Forall_impl; [exact Hvals|]. simpl.
    intros v [H0 H1]. by apply affine_in_range.
Qed.

Lemma transform_domain_unit_exact (vals : list Qc) :
  transform_domain vals (vlit 0) (vlit 1) = vals.
Proof.
  rewrite transform_domain_exact. rewrite <-(list_fmap_id vals) at 2.
  apply list_fmap_ext. intros i v _. apply affine_identity.
Qed.

Lemma transform_domain_unit_exact_complex (vals : list (complex Qc)) :
  transform_domain (D := Qc) vals (vlit 0) (vlit 1) = vals.
Proof.
  unfold transform_domain. rewrite <-(list_fmap_id vals) at 2.
  apply list_fmap_ext. intros i [a b] _.
  unfold cast, cast_complex. simpl. unfold cadd, cmul. simpl.
  f_equal; ring.
Qed.

(** C8. With the domain (0, 1) the mapper returns its input.  In exact
    arithmetic, real or complex, the output is the input vector.  In
    floating-point arithmetic, double or single precision, no operation
    rounds: every entry comes back as it is, a zero with a positive sign. *)
Theorem unit_domain_is_identity :
  (∀ vals : list Qc, transform_domain vals (vlit 0) (vlit 1) = vals)
  ∧ (∀ vals : list (complex Qc),
       transform_domain (D := Qc) vals (vlit 0) (vlit 1) = vals)
  ∧ (∀ vals : list IEEE.double,
       Forall IEEE.valid_double vals →
       Forall2 (λ v w, same_number (IEEE.dbits v) (IEEE.dbits w))
               vals (transform_domain vals (vlit 0) (vlit 1)))
  ∧ (∀ vals : list IEEE.float,
       Forall IEEE.valid_float vals →
       Forall2 (λ v w, same_number (IEEE.fbits v) (IEEE.fbits w))
               vals (transform_domain (D := IEEE.double) vals (vlit 0) (vlit 1))).
Proof.
  split; [|split; [|split]].
  - apply transform_domain_unit_exact.
  - apply transform_domain_unit_exact_complex.
  - apply transform_domain_unit_double.
  - apply transform_domain_unit_float.
Qed.

(** ** Rounding in floating point

    [binary_round_aux] rounds to nearest, ties to even.  Its result lies
    on the same side as the rounded number of every multiple of the step
    at which it rounds: rounding is monotone and keeps what the format
    represents.  The operations of [SpecFloat] are then the rounding of
    the exact sum, product and quotient. *)

(** *** Powers of two and mantissas *)

Lemma pow2_pos e : (0 < pow2 e)%Q.
Proof. apply Qpower_0_lt. reflexivity. Qed.

Lemma pow2_add e f : (pow2 (e + f) == pow2 e * pow2 f)%Q.
Proof. apply Qpower_plus. discriminate. Qed.

Lemma pow2_succ e : (pow2 (e + 1) == 2 * pow2 e)%Q.
Proof. rewrite pow2_add. unfold pow2 at 2. simpl. ring. Qed.

Lemma pow2_le e f : (e ≤ f)%Z → (pow2 e <= pow2 f)%Q.
Proof. intros. apply Qpower_le_compat_l; [done | discriminate]. Qed.

Lemma pow2_lt e f : (e < f)%Z → (pow2 e < pow2 f)%Q.
Proof. intros. apply Qpower_lt_compat_l; [done | reflexivity]. Qed.

Lemma pow2_le_inv e f : (pow2 e <= pow2 f)%Q → (e ≤ f)%Z.
Proof. intros. eapply Qpower_le_compat_l_inv; [done | reflexivity]. Qed.

Lemma pow2_lt_inv e f : (pow2 e < pow2 f)%Q → (e < f)%Z.
Proof. intros. eapply Qpower_lt_compat_l_inv; [done | reflexivity]. Qed.

Lemma pow2_Z n : (0 ≤ n)%Z → (pow2 n == inject_Z (2 ^ n))%Q.
Proof. intros. unfold pow2. by rewrite Zpower_Qpower. Qed.

Lemma F2Q_le m n e : (F2Q m e <= F2Q n e)%Q ↔ (m ≤ n)%Z.
Proof.
  unfold F2Q. rewrite Zle_Qle. pose proof (pow2_pos e). split; intros.
  - by apply Qmult_le_r in H0.
  - by apply Qmult_le_r.
Qed.

Lemma F2Q_lt m n e : (F2Q m e < F2Q n e)%Q ↔ (m < n)%Z.
Proof.
  unfold F2Q. rewrite Zlt_Qlt. pose proof (pow2_pos e). split; intros.
  - by apply Qmult_lt_r in H0.
  - by apply Qmult_lt_r.
Qed.

Lemma F2Q_succ m e : (F2Q (m + 1) e == F2Q m e + pow2 e)%Q.
Proof. unfold F2Q. rewrite inject_Z_plus. ring. Qed.

(** Moving the exponent: [m * 2^(e + n) = (m * 2^n) * 2^e]. *)
Lemma F2Q_shift m e n : (0 ≤ n)%Z → (F2Q m (e + n) == F2Q (m * 2 ^ n) e)%Q.
Proof.
  intros. unfold F2Q. rewrite pow2_add, inject_Z_mult, (pow2_Z n) by done. ring.
Qed.

Lemma digits2_pos_spec (m : positive) :
  (2 ^ (Zpos (digits2_pos m) - 1) ≤ Zpos m < 2 ^ Zpos (digits2_pos m))%Z.
Proof.
  induction m as [m IH|m IH|]; cbn [digits2_pos]; rewrite ?Pos2Z.inj_succ.
  - replace (Z.succ (Zpos (digits2_pos m)) - 1)%Z
      with (Z.succ (Zpos (digits2_pos m) - 1)) by lia.
    rewrite !Z.pow_succ_r by lia. lia.
  - replace (Z.succ (Zpos (digits2_pos m)) - 1)%Z
      with (Z.succ (Zpos (digits2_pos m) - 1)) by lia.
    rewrite !Z.pow_succ_r by lia. lia.
  - simpl. lia.
Qed.

Lemma Zdigits2_spec (m : Z) :
  (0 < m)%Z → (2 ^ (Zdigits2 m - 1) ≤ m < 2 ^ Zdigits2 m)%Z ∧ (0 < Zdigits2 m)%Z.
Proof. destruct m; try lia. intros _. split; [apply digits2_pos_spec | done]. Qed.

Lemma Zdigits2_nonneg (m : Z) : (0 ≤ Zdigits2 m)%Z.
Proof. destruct m; simpl; lia. Qed.

(** The value of a positive mantissa in terms of its number of digits. *)
Lemma F2Q_digits m e :
  (0 < m)%Z → (pow2 (Zdigits2 m - 1 + e) <= F2Q m e ∧ F2Q m e < pow2 (Zdigits2 m + e))%Q.
Proof.
  intros Hm. destruct (Zdigits2_spec m Hm) as [[H1 H2] Hd].
  rewrite !pow2_add. unfold F2Q. pose proof (pow2_pos e).
  rewrite (pow2_Z (Zdigits2 m)), (pow2_Z (Zdigits2 m - 1)) by lia. split.
  - apply Qmult_le_r; [done|]. by rewrite <-Zle_Qle.
  - apply Qmult_lt_r; [done|]. by rewrite <-Zlt_Qlt.
Qed.

Lemma inject_Z_xO p : (inject_Z (Zpos p~0) == 2 * inject_Z (Zpos p))%Q.
Proof. rewrite Pos2Z.inj_xO, inject_Z_mult. reflexivity. Qed.
Lemma inject_Z_xI p : (inject_Z (Zpos p~1) == 2 * inject_Z (Zpos p) + 1)%Q.
Proof. rewrite Pos2Z.inj_xI, inject_Z_plus, inject_Z_mult. reflexivity. Qed.

(** One step of the shift keeps track of where [x] lies. *)
Lemma located_shr_1 (x : Q) (mrs : shr_record) (e : Z) :
  (0 ≤ shr_m mrs)%Z →
  located x (shr_m mrs) (loc_of_shr_record mrs) e →
  located x (shr_m (shr_1 mrs)) (loc_of_shr_record (shr_1 mrs)) (e + 1)
  ∧ (0 ≤ shr_m (shr_1 mrs))%Z.
Proof.
  destruct mrs as [m r s]. cbn [shr_m]. intros Hm.
  pose proof (pow2_pos e) as HP. pose proof (pow2_succ e) as HS.
  destruct m as [|p|p]; [| |lia].
  - destruct r, s; cbn; unfold F2Q; rewrite ?HS; cbn;
      change (inject_Z 0) with 0%Q; intros H;
      (split; [|lia]); try (lazymatch type of H with _ ∧ _ => destruct H as [H1 H2] end); try split; lra.
  - destruct p as [p|p|]; destruct r, s; cbn; unfold F2Q;
      rewrite ?HS, ?inject_Z_xO, ?inject_Z_xI; cbn;
      change (inject_Z 0) with 0%Q; change (inject_Z 1) with 1%Q; intros H;
      (split; [|lia]); try (lazymatch type of H with _ ∧ _ => destruct H as [H1 H2] end); try split;
      try set (M := inject_Z (Zpos p)) in *; nra.
Qed.

Lemma located_iter_pos (x : Q) (p : positive) :
  ∀ (mrs : shr_record) (e : Z),
    (0 ≤ shr_m mrs)%Z →
    located x (shr_m mrs) (loc_of_shr_record mrs) e →
    located x (shr_m (SpecFloat.iter_pos shr_1 p mrs))
            (loc_of_shr_record (SpecFloat.iter_pos shr_1 p mrs)) (e + Zpos p)
    ∧ (0 ≤ shr_m (SpecFloat.iter_pos shr_1 p mrs))%Z.
Proof.
  induction p as [p IH|p IH|]; intros mrs e Hm Hx; cbn [SpecFloat.iter_pos].
  - destruct (located_shr_1 x mrs e Hm Hx) as [H1 Hm1].
    destruct (IH _ _ Hm1 H1) as [H2 Hm2].
    destruct (IH _ _ Hm2 H2) as [H3 Hm3].
    replace (e + Zpos p~1)%Z with (e + 1 + Zpos p + Zpos p)%Z by lia. done.
  - destruct (IH _ _ Hm Hx) as [H2 Hm2].
    destruct (IH _ _ Hm2 H2) as [H3 Hm3].
    replace (e + Zpos p~0)%Z with (e + Zpos p + Zpos p)%Z by lia. done.
  - by apply located_shr_1.
Qed.

Lemma located_shr (x : Q) (mrs : shr_record) (e n : Z) :
  (0 ≤ shr_m mrs)%Z →
  located x (shr_m mrs) (loc_of_shr_record mrs) e →
  located x (shr_m (shr mrs e n).1) (loc_of_shr_record (shr mrs e n).1)
          (shr mrs e n).2
  ∧ (0 ≤ shr_m (shr mrs e n).1)%Z
  ∧ (shr mrs e n).2 = Z.max e (e + n).
Proof.
  intros Hm Hx. destruct n as [|p|p]; cbn [shr fst snd].
  - split; [done|]. split; [done | lia].
  - destruct (located_iter_pos x p mrs e Hm Hx). split; [done|].
    split; [done | lia].
  - split; [done|]. split; [done | lia].
Qed.

Lemma loc_of_shr_record_of_loc m l :
  loc_of_shr_record (shr_record_of_loc m l) = l
  ∧ shr_m (shr_record_of_loc m l) = m.
Proof. by destruct l as [|[]]. Qed.

Lemma located_bounds x m l e :
  located x m l e → (F2Q m e <= x ∧ x < F2Q m e + pow2 e)%Q.
Proof.
  pose proof (pow2_pos e). destruct l as [|[]]; cbn; intros Hx;
    try (lazymatch type of Hx with _ ∧ _ => destruct Hx end);
    split; lra.
Qed.

(** Rounding to nearest keeps every multiple of the step on its side. *)
Lemma round_nearest_even_bracket x m l e :
  located x m l e →
  (m ≤ round_nearest_even m l ≤ m + 1)%Z
  ∧ ∀ k : Z,
      ((x <= F2Q k e)%Q → (round_nearest_even m l ≤ k)%Z)
      ∧ ((F2Q k e <= x)%Q → (k ≤ round_nearest_even m l)%Z).
Proof.
  intros Hx. pose proof (pow2_pos e) as HP.
  assert (m ≤ round_nearest_even m l ≤ m + 1)%Z as Hr.
  { destruct l as [|[]]; cbn; try lia. destruct (Z.even m); lia. }
  split; [done|]. intros k.
  pose proof (F2Q_succ m e) as HS.
  destruct l as [|[]]; cbn in Hx |- *.
  - rewrite Hx. rewrite !F2Q_le. done.
  - split; intros Hk.
    + assert (F2Q m e < F2Q k e)%Q as Hlt%F2Q_lt by lra.
      destruct (Z.even m); lia.
    + assert (F2Q k e < F2Q (m + 1) e)%Q as Hlt%F2Q_lt by lra.
      destruct (Z.even m); lia.
  - destruct Hx. split; intros Hk.
    + assert (F2Q m e < F2Q k e)%Q as Hlt%F2Q_lt by lra. lia.
    + assert (F2Q k e < F2Q (m + 1) e)%Q as Hlt%F2Q_lt by lra. lia.
  - destruct Hx. split; intros Hk.
    + assert (F2Q m e < F2Q k e)%Q as Hlt%F2Q_lt by lra. lia.
    + assert (F2Q k e < F2Q (m + 1) e)%Q as Hlt%F2Q_lt by lra. lia.
Qed.

Lemma F2Q_pow2 d e : (0 ≤ d)%Z → (F2Q (2 ^ d) e == pow2 (d + e))%Q.
Proof.
  intros. unfold F2Q. rewrite pow2_add, (pow2_Z d) by done. reflexivity.
Qed.

Lemma F2Q_eq m n e : (F2Q m e == F2Q n e)%Q ↔ m = n.
Proof.
  split; [|by intros ->]. intros H.
  apply Z.le_antisymm; apply (F2Q_le _ _ e); rewrite H; apply Qle_refl.
Qed.

Lemma Zdigits2_pow2 n : (0 ≤ n)%Z → Zdigits2 (2 ^ n) = (n + 1)%Z.
Proof.
  intros Hn. assert (0 < 2 ^ n)%Z as Hp by lia.
  destruct (Zdigits2_spec _ Hp) as [[H1 H2] Hd].
  apply Z.pow_le_mono_r_iff in H1; [|lia..].
  apply Z.pow_lt_mono_r_iff in H2; lia.
Qed.

Lemma Zdigits2_le m n : (0 ≤ n)%Z → (0 ≤ m < 2 ^ n)%Z → (Zdigits2 m ≤ n)%Z.
Proof.
  intros Hn [Hm Hlt]. destruct (decide (m = 0%Z)) as [->|]; [done|].
  destruct (Zdigits2_spec m ltac:(lia)) as [[H1 H2] Hd].
  assert (2 ^ (Zdigits2 m - 1) < 2 ^ n)%Z as H by lia.
  apply Z.pow_lt_mono_r_iff in H; lia.
Qed.

Lemma succ_le_pow2_digits m : (0 ≤ m)%Z → (m + 1 ≤ 2 ^ Zdigits2 m)%Z.
Proof.
  intros Hm. destruct (decide (m = 0%Z)) as [->|]; [done|].
  destruct (Zdigits2_spec m ltac:(lia)) as [[H1 H2] Hd]. lia.
Qed.

Lemma shr_nonpos mrs e n : (n ≤ 0)%Z → shr mrs e n = (mrs, e).
Proof. by destruct n; [| lia |]. Qed.

Section Rounding.
Variables prec emax : Z.
Hypothesis Hprec : (0 < prec)%Z.

Lemma fexp_ge e : (e - prec ≤ fexp prec emax e)%Z ∧ (emin prec emax ≤ fexp prec emax e)%Z.
Proof. unfold fexp. lia. Qed.

Lemma shr_fexp_spec (x : Q) m l e :
  (0 ≤ m)%Z → located x m l e →
  located x (shr_m (shr_fexp prec emax m e l).1)
          (loc_of_shr_record (shr_fexp prec emax m e l).1)
          (shr_fexp prec emax m e l).2
  ∧ (0 ≤ shr_m (shr_fexp prec emax m e l).1)%Z
  ∧ (shr_fexp prec emax m e l).2 = Z.max e (fexp prec emax (Zdigits2 m + e)).
Proof.
  intros Hm Hx. unfold shr_fexp.
  destruct (loc_of_shr_record_of_loc m l) as [Hl Hm'].
  destruct (located_shr x (shr_record_of_loc m l) e
              (fexp prec emax (Zdigits2 m + e) - e)) as (H1 & H2 & H3).
  - by rewrite Hm'.
  - by rewrite Hl, Hm'.
  - split; [done|]. split; [done|]. rewrite H3. lia.
Qed.

(** A mantissa that fits the precision stays as it is. *)
Lemma shr_fexp_fits m e :
  (0 ≤ m < 2 ^ prec)%Z → (emin prec emax ≤ e)%Z →
  shr_fexp prec emax m e loc_Exact = (shr_record_of_loc m loc_Exact, e).
Proof.
  intros Hm He. unfold shr_fexp. apply shr_nonpos.
  pose proof (Zdigits2_le m prec ltac:(lia) Hm). unfold fexp. lia.
Qed.

(** The mantissa [2^prec] loses its last digit. *)
Lemma shr_fexp_carry e :
  (emin prec emax ≤ e)%Z →
  shr_m (shr_fexp prec emax (2 ^ prec) e loc_Exact).1 = (2 ^ (prec - 1))%Z
  ∧ (shr_fexp prec emax (2 ^ prec) e loc_Exact).2 = (e + 1)%Z.
Proof.
  intros He. unfold shr_fexp. rewrite Zdigits2_pow2 by lia.
  replace (fexp prec emax (prec + 1 + e) - e)%Z with 1%Z by (unfold fexp; lia).
  replace (2 ^ prec)%Z with (2 * 2 ^ (prec - 1))%Z
    by (rewrite <-Z.pow_succ_r by lia; f_equal; lia).
  assert (0 < 2 ^ (prec - 1))%Z as Hp by (apply Z.pow_pos_nonneg; lia).
  destruct (2 ^ (prec - 1))%Z as [|q|q]; [lia| |lia]. done.
Qed.

(** The result of rounding: the mantissa and the exponent that
    [binary_round_aux] arrives at, and on which side of every multiple of
    the step they lie. *)
Theorem binary_round_aux_spec (x : Q) sx mx ex lx :
  (0 ≤ mx)%Z → located x mx lx ex →
  ∃ m3 e3 : Z,
    binary_round_aux prec emax sx mx ex lx
    = match m3 with
      | Z0 => S754_zero sx
      | Zpos m =>
          if (e3 <=? emax - prec)%Z then S754_finite sx m e3
          else S754_infinity sx
      | Zneg _ => S754_nan
      end
    ∧ (0 ≤ m3 < 2 ^ prec)%Z
    ∧ (Z.max ex (fexp prec emax (Zdigits2 mx + ex)) ≤ e3)%Z
    ∧ (m3 < 2 ^ (prec - 1) →
       e3 = Z.max ex (fexp prec emax (Zdigits2 mx + ex)))%Z
    ∧ ∀ k : Z,
        ((x <= F2Q k (Z.max ex (fexp prec emax (Zdigits2 mx + ex))))%Q →
         (F2Q m3 e3 <= F2Q k (Z.max ex (fexp prec emax (Zdigits2 mx + ex))))%Q)
        ∧ ((F2Q k (Z.max ex (fexp prec emax (Zdigits2 mx + ex))) <= x)%Q →
           (F2Q k (Z.max ex (fexp prec emax (Zdigits2 mx + ex))) <= F2Q m3 e3)%Q).
Proof.
  intros Hmx Hx. unfold binary_round_aux.
  destruct (shr_fexp_spec x mx lx ex Hmx Hx) as (H1 & Hm1 & He1).
  destruct (shr_fexp prec emax mx ex lx) as [mrs' e'] eqn:E1.
  cbn [fst snd] in H1, Hm1, He1. rewrite <-He1.
  set (m1 := shr_m mrs') in *. set (l1 := loc_of_shr_record mrs') in *.
  destruct (round_nearest_even_bracket x m1 l1 e' H1) as [Hr Hk].
  set (m2 := round_nearest_even m1 l1) in *.
  assert (emin prec emax ≤ e')%Z as Hemin.
  { pose proof (fexp_ge (Zdigits2 mx + ex)). lia. }
  assert (m1 < 2 ^ prec)%Z as Hm1lt.
  { apply (F2Q_lt _ _ e').
    destruct (located_bounds _ _ _ _ H1) as [Hlo _].
    destruct (located_bounds _ _ _ _ Hx) as [_ Hhi].
    rewrite <-F2Q_succ in Hhi.
    pose proof (succ_le_pow2_digits mx Hmx) as Hd%(F2Q_le _ _ ex).
    rewrite F2Q_pow2 in Hd by apply Zdigits2_nonneg.
    rewrite F2Q_pow2 by lia.
    assert (pow2 (Zdigits2 mx + ex) <= pow2 (prec + e'))%Q.
    { apply pow2_le. pose proof (fexp_ge (Zdigits2 mx + ex)). lia. }
    lra. }
  destruct (decide (m2 = 2 ^ prec)%Z) as [Hcarry|Hfit].
  - destruct (shr_fexp_carry e' Hemin) as [Hm3 He3].
    rewrite Hcarry.
    destruct (shr_fexp prec emax (2 ^ prec) e' loc_Exact) as [mrs'' e''].
    cbn [fst snd] in Hm3, He3. rewrite Hm3, He3.
    exists (2 ^ (prec - 1))%Z, (e' + 1)%Z.
    assert (0 < 2 ^ (prec - 1) < 2 ^ prec)%Z as Hp.
    { split; [apply Z.pow_pos_nonneg; lia|].
      apply Z.pow_lt_mono_r; lia. }
    split; [done|]. split; [lia|]. split; [lia|]. split; [lia|].
    assert (F2Q (2 ^ (prec - 1)) (e' + 1) == F2Q m2 e')%Q as Hv.
    { rewrite F2Q_shift by lia. apply F2Q_eq. rewrite Hcarry.
      rewrite Z.pow_1_r, Z.mul_comm, <-Z.pow_succ_r by lia. f_equal. lia. }
    intros k. rewrite Hv, !F2Q_le. apply Hk.
  - rewrite shr_fexp_fits by lia.
    destruct (loc_of_shr_record_of_loc m2 loc_Exact) as [_ ->].
    exists m2, e'. split; [done|]. split; [lia|]. split; [lia|].
    split; [done|]. intros k. rewrite !F2Q_le. apply Hk.
Qed.
End Rounding.

Lemma F2Q_grid k c e : (e ≤ c)%Z → (F2Q k c == F2Q (k * 2 ^ (c - e)) e)%Q.
Proof.
  intros. rewrite <-F2Q_shift by lia. by replace (e + (c - e))%Z with c by lia.
Qed.

Lemma F2Q_one e : (F2Q 1 e == pow2 e)%Q.
Proof. unfold F2Q. change (inject_Z 1) with 1%Q. ring. Qed.

Lemma F2Q_zero e : (F2Q 0 e == 0)%Q.
Proof. unfold F2Q. change (inject_Z 0) with 0%Q. ring. Qed.

Lemma F2Q_pos m e : (0 < m)%Z → (0 < F2Q m e)%Q.
Proof. intros. rewrite <-(F2Q_zero e). by apply F2Q_lt. Qed.

Lemma F2Q_ge_pow2 m e : (0 < m)%Z → (pow2 e <= F2Q m e)%Q.
Proof. intros. rewrite <-F2Q_one. apply F2Q_le. lia. Qed.

Section RoundingBounds.
Variables prec emax : Z.
Hypothesis Hprec : (0 < prec)%Z.
Hypothesis Hmax : (prec < emax)%Z.

Theorem binary_round_aux_bounded (x : Q) sx mx ex lx b :
  (0 < mx)%Z → located x mx lx ex →
  (x <= pow2 b)%Q → (emin prec emax ≤ b < emax)%Z → (ex ≤ emax - prec)%Z →
  rounded prec emax sx (binary_round_aux prec emax sx mx ex lx)
  ∧ (SFabs_Q (binary_round_aux prec emax sx mx ex lx) <= pow2 b)%Q
  ∧ (∀ a, (emin prec emax ≤ a)%Z → (pow2 a <= x)%Q →
          (pow2 a <= SFabs_Q (binary_round_aux prec emax sx mx ex lx))%Q)
  ∧ (∀ k c, (ex ≤ c)%Z → (b + 1 - prec ≤ c)%Z → (emin prec emax ≤ c)%Z →
       ((x <= F2Q k c)%Q →
        (SFabs_Q (binary_round_aux prec emax sx mx ex lx) <= F2Q k c)%Q)
       ∧ ((F2Q k c <= x)%Q →
          (F2Q k c <= SFabs_Q (binary_round_aux prec emax sx mx ex lx))%Q)).
Proof.
  intros Hmx Hx Hb Hbr Hex.
  destruct (binary_round_aux_spec prec emax Hprec x sx mx ex lx
              ltac:(lia) Hx) as (m3 & e3 & Hr & Hm3 & He3 & Hsmall & Hk).
  fold (round_exp prec emax mx ex) in He3, Hsmall, Hk.
  set (e1 := round_exp prec emax mx ex) in *.
  destruct (located_bounds _ _ _ _ Hx) as [Hlo _].
  destruct (F2Q_digits mx ex Hmx) as [Hdig _].
  pose proof (F2Q_ge_pow2 mx ex Hmx) as Hge.
  assert (ex ≤ b)%Z as Hexb by (apply pow2_le_inv; lra).
  assert (Zdigits2 mx - 1 + ex ≤ b)%Z as Hdb by (apply pow2_le_inv; lra).
  assert (e1 ≤ b)%Z as He1b by (unfold e1, round_exp, fexp; lia).
  assert (emin prec emax ≤ e1)%Z as He1min by (unfold e1, round_exp, fexp; lia).
  assert (F2Q m3 e3 <= pow2 b)%Q as Hv.
  { rewrite <-F2Q_one, (F2Q_grid 1 b e1) by done. apply Hk.
    rewrite <-F2Q_grid, F2Q_one by done. done. }
  assert (e3 ≤ emax - prec)%Z as Hfin.
  { destruct (decide (m3 < 2 ^ (prec - 1))%Z) as [Hs|Hl].
    - rewrite (Hsmall Hs). unfold e1, round_exp, fexp, emin. lia.
    - assert (pow2 (prec - 1 + e3) <= pow2 b)%Q as ?%pow2_le_inv; [|lia].
      rewrite <-F2Q_pow2 by lia.
      assert (F2Q (2 ^ (prec - 1)) e3 <= F2Q m3 e3)%Q by (apply F2Q_le; lia).
      lra. }
  assert (SFabs_Q (binary_round_aux prec emax sx mx ex lx) == F2Q m3 e3)%Q
    as Habs.
  { rewrite Hr. destruct m3 as [|m|m]; [by rewrite F2Q_zero | | lia].
    by rewrite (proj2 (Z.leb_le _ _) Hfin). }
  split; [|split; [|split]].
  - rewrite Hr. destruct m3 as [|m|m]; [by left | | lia].
    rewrite (proj2 (Z.leb_le _ _) Hfin). right. exists m, e3.
    split; [done|]. split; lia.
  - by rewrite Habs.
  - intros a Ha Hax. rewrite Habs.
    destruct (decide (e1 ≤ a)%Z) as [Hle|Hgt].
    + rewrite <-F2Q_one, (F2Q_grid 1 a e1) by done. apply Hk.
      rewrite <-F2Q_grid, F2Q_one by done. done.
    + destruct (decide (e1 = ex)) as [Heq|Hne].
      * assert (pow2 a <= pow2 ex)%Q by (apply pow2_le; lia).
        assert (F2Q mx e1 <= F2Q m3 e3)%Q by (apply Hk; rewrite Heq; done).
        rewrite Heq in *. lra.
      * assert (e1 = Zdigits2 mx + ex - prec)%Z as He1
          by (unfold e1, round_exp, fexp in *; lia).
        assert (pow2 a <= pow2 (prec - 1 + e1))%Q by (apply pow2_le; lia).
        assert (F2Q (2 ^ (prec - 1)) e1 <= F2Q m3 e3)%Q as Hgrid.
        { apply Hk. rewrite F2Q_pow2 by lia.
          replace (prec - 1 + e1)%Z with (Zdigits2 mx - 1 + ex)%Z by lia.
          lra. }
        rewrite F2Q_pow2 in Hgrid by lia. lra.
  - intros k c Hc1 Hc2 Hc3.
    assert (e1 ≤ c)%Z as Hc by (unfold e1, round_exp, fexp; lia).
    rewrite Habs, (F2Q_grid k c e1) by done. apply Hk.
Qed.

(** *** Alignment *)

Lemma iter_xO_spec d m : Zpos (Pos.iter xO m d) = (Zpos m * 2 ^ Zpos d)%Z.
Proof.
  induction d as [|d IH] using Pos.peano_ind.
  - simpl. lia.
  - rewrite Pos.iter_succ, Pos2Z.inj_xO, IH, Pos2Z.inj_succ.
    rewrite Z.pow_succ_r by lia. lia.
Qed.

Lemma shl_align_spec mx ex ex' :
  (F2Q (Zpos (shl_align mx ex ex').1) (shl_align mx ex ex').2
   == F2Q (Zpos mx) ex)%Q
  ∧ (shl_align mx ex ex').2 = Z.min ex ex'.
Proof.
  unfold shl_align. destruct (ex' - ex)%Z as [|d|d] eqn:E; cbn [fst snd].
  - split; [reflexivity | lia].
  - split; [reflexivity | lia].
  - split; [|lia]. rewrite iter_xO_spec.
    assert (ex = ex' + Zpos d)%Z as -> by lia.
    by rewrite F2Q_shift by lia.
Qed.

Theorem binary_round_bounded sx mx ex b :
  (F2Q (Zpos mx) ex <= pow2 b)%Q →
  (emin prec emax ≤ b < emax)%Z → (ex ≤ emax - prec)%Z →
  rounded prec emax sx (binary_round prec emax sx mx ex)
  ∧ (SFabs_Q (binary_round prec emax sx mx ex) <= pow2 b)%Q
  ∧ (∀ a, (emin prec emax ≤ a)%Z → (pow2 a <= F2Q (Zpos mx) ex)%Q →
          (pow2 a <= SFabs_Q (binary_round prec emax sx mx ex))%Q)
  ∧ (∀ k c, (ex ≤ c)%Z → (b + 1 - prec ≤ c)%Z → (emin prec emax ≤ c)%Z →
       ((F2Q (Zpos mx) ex <= F2Q k c)%Q →
        (SFabs_Q (binary_round prec emax sx mx ex) <= F2Q k c)%Q)
       ∧ ((F2Q k c <= F2Q (Zpos mx) ex)%Q →
          (F2Q k c <= SFabs_Q (binary_round prec emax sx mx ex))%Q)).
Proof.
  intros Hb Hbr Hex. unfold binary_round.
  destruct (shl_align_spec mx ex (fexp prec emax (Zpos (digits2_pos mx) + ex)))
    as [Hv He].
  destruct (shl_align mx ex _) as [mz ez]. cbn [fst snd] in Hv, He.
  destruct (binary_round_aux_bounded (F2Q (Zpos mx) ex) sx (Zpos mz) ez
              loc_Exact b) as (H1 & H2 & H3 & H4);
    [done | by symmetry | done | done | lia |].
  split; [done|]. split; [done|]. split; [done|].
  intros k c Hc1 Hc2 Hc3. apply H4; lia.
Qed.
End RoundingBounds.

Lemma F2Q_opp m e : (F2Q (- m) e == - F2Q m e)%Q.
Proof. unfold F2Q. rewrite inject_Z_opp. ring. Qed.

Lemma F2Q_add m n e : (F2Q (m + n) e == F2Q m e + F2Q n e)%Q.
Proof. unfold F2Q. rewrite inject_Z_plus. ring. Qed.

Lemma F2Q_mul m n e f : (F2Q (m * n) (e + f) == F2Q m e * F2Q n f)%Q.
Proof. unfold F2Q. rewrite inject_Z_mult, pow2_add. ring. Qed.

Lemma F2Q_cond_Zopp s m e :
  (F2Q (cond_Zopp s m) e == if s then - F2Q m e else F2Q m e)%Q.
Proof. destruct s; [apply F2Q_opp | reflexivity]. Qed.

Lemma pow2_0 : (pow2 0 == 1)%Q.
Proof. reflexivity. Qed.

Lemma Qmake_pow2 m p : (Qmake m (2 ^ p) == F2Q m (Zneg p))%Q.
Proof.
  pose proof (pow2_pos (Zpos p)) as HP.
  apply (Qmult_inj_r _ _ (pow2 (Zpos p))); [lra|].
  unfold F2Q. rewrite <-Qmult_assoc, <-pow2_add.
  replace (Z.neg p + Z.pos p)%Z with 0%Z by lia.
  rewrite pow2_0, Qmult_1_r, pow2_Z by lia.
  rewrite <-Pos2Z.inj_pow. unfold Qeq, Qmult, inject_Z. simpl. lia.
Qed.

(** [IEEE.to_Q] gives the value. *)
Lemma to_Q_finite s m e :
  ∃ q, IEEE.to_Q (S754_finite s m e) = Some q
       ∧ (q == F2Q (cond_Zopp s (Zpos m)) e)%Q.
Proof.
  eexists. split; [reflexivity|]. rewrite F2Q_cond_Zopp.
  assert ((match e with
           | 0%Z => inject_Z (Zpos m)
           | Zpos p => inject_Z (Zpos m * 2 ^ Zpos p)
           | Zneg p => Qmake (Zpos m) (2 ^ p)
           end) == F2Q (Zpos m) e)%Q as Hv.
  { destruct e as [|p|p].
    - unfold F2Q. rewrite pow2_0. ring.
    - transitivity (F2Q (Zpos m) (0 + Zpos p)); [|reflexivity].
      rewrite F2Q_shift by lia. unfold F2Q. rewrite pow2_0. ring.
    - apply Qmake_pow2. }
  destruct s; by rewrite Hv.
Qed.

Lemma to_Q_rounded prec emax s r :
  rounded prec emax s r →
  ∃ q, IEEE.to_Q r = Some q
       ∧ (q == if s then - SFabs_Q r else SFabs_Q r)%Q.
Proof.
  intros [->|(m & e & -> & _)].
  - exists 0%Q. split; [done|]. by destruct s.
  - destruct (to_Q_finite s m e) as (q & Hq & Hv). exists q. split; [done|].
    by rewrite Hv, F2Q_cond_Zopp.
Qed.

Lemma to_Q_SF2Q x q : IEEE.to_Q x = Some q → (q == SF2Q x)%Q.
Proof.
  destruct x as [s|s| |s m e]; try done.
  - by intros [= <-].
  - destruct (to_Q_finite s m e) as (q' & Hq & Hv). rewrite Hq.
    by intros [= <-].
Qed.

Section Operations.
Variables prec emax : Z.
Hypothesis Hprec : (0 < prec)%Z.
Hypothesis Hmax : (prec < emax)%Z.

(** The product of two finite numbers is the rounding of the product of
    their magnitudes, with the sign of the product. *)
Theorem SFmul_bounded sx mx ex sy my ey b :
  (F2Q (Zpos mx) ex * F2Q (Zpos my) ey <= pow2 b)%Q →
  (emin prec emax ≤ b < emax)%Z → (ex + ey ≤ emax - prec)%Z →
  let r := SFmul prec emax (S754_finite sx mx ex) (S754_finite sy my ey) in
  rounded prec emax (xorb sx sy) r
  ∧ (SFabs_Q r <= pow2 b)%Q
  ∧ (∀ a, (emin prec emax ≤ a)%Z →
          (pow2 a <= F2Q (Zpos mx) ex * F2Q (Zpos my) ey)%Q →
          (pow2 a <= SFabs_Q r)%Q)
  ∧ (∀ k c, (ex + ey ≤ c)%Z → (b + 1 - prec ≤ c)%Z →
            (emin prec emax ≤ c)%Z →
       ((F2Q (Zpos mx) ex * F2Q (Zpos my) ey <= F2Q k c)%Q →
        (SFabs_Q r <= F2Q k c)%Q)
       ∧ ((F2Q k c <= F2Q (Zpos mx) ex * F2Q (Zpos my) ey)%Q →
          (F2Q k c <= SFabs_Q r)%Q)).
Proof.
  intros Hb Hbr He r. unfold r. cbn [SFmul].
  apply binary_round_aux_bounded; try done.
  unfold located. by rewrite Pos2Z.inj_mul, F2Q_mul.
Qed.

Lemma SFadd_aligned sx mx ex sy my ey :
  (F2Q (cond_Zopp sx (Zpos (shl_align mx ex (Z.min ex ey)).1)
        + cond_Zopp sy (Zpos (shl_align my ey (Z.min ex ey)).1))
       (Z.min ex ey)
   == SF2Q (S754_finite sx mx ex) + SF2Q (S754_finite sy my ey))%Q.
Proof.
  destruct (shl_align_spec mx ex (Z.min ex ey)) as [Hx1 Hx2].
  destruct (shl_align_spec my ey (Z.min ex ey)) as [Hy1 Hy2].
  rewrite Hx2 in Hx1. rewrite Hy2 in Hy1.
  replace (Z.min ex (Z.min ex ey)) with (Z.min ex ey) in Hx1 by lia.
  replace (Z.min ey (Z.min ex ey)) with (Z.min ex ey) in Hy1 by lia.
  cbn [SF2Q]. rewrite F2Q_add, !F2Q_cond_Zopp.
  destruct sx, sy; rewrite Hx1, Hy1; reflexivity.
Qed.

(** The sum of two finite numbers, when it is positive. *)
Theorem SFadd_positive sx mx ex sy my ey b :
  (0 < SF2Q (S754_finite sx mx ex) + SF2Q (S754_finite sy my ey))%Q →
  (SF2Q (S754_finite sx mx ex) + SF2Q (S754_finite sy my ey) <= pow2 b)%Q →
  (emin prec emax ≤ b < emax)%Z → (Z.min ex ey ≤ emax - prec)%Z →
  let r := SFadd prec emax (S754_finite sx mx ex) (S754_finite sy my ey) in
  rounded prec emax false r
  ∧ (SFabs_Q r <= pow2 b)%Q
  ∧ (∀ a, (emin prec emax ≤ a)%Z →
          (pow2 a <= SF2Q (S754_finite sx mx ex) + SF2Q (S754_finite sy my ey))%Q →
          (pow2 a <= SFabs_Q r)%Q)
  ∧ (∀ k c, (Z.min ex ey ≤ c)%Z → (b + 1 - prec ≤ c)%Z →
            (emin prec emax ≤ c)%Z →
       ((SF2Q (S754_finite sx mx ex) + SF2Q (S754_finite sy my ey) <= F2Q k c)%Q →
        (SFabs_Q r <= F2Q k c)%Q)
       ∧ ((F2Q k c <= SF2Q (S754_finite sx mx ex) + SF2Q (S754_finite sy my ey))%Q →
          (F2Q k c <= SFabs_Q r)%Q)).
Proof.
  intros Hpos Hb Hbr He r. unfold r. cbn [SFadd].
  pose proof (SFadd_aligned sx mx ex sy my ey) as Hsum.
  set (z := (cond_Zopp sx _ + cond_Zopp sy _)%Z) in *.
  assert (0 < z)%Z as Hz.
  { apply (F2Q_lt _ _ (Z.min ex ey)). rewrite F2Q_zero, Hsum. done. }
  destruct z as [|m|m]; [lia| |lia]. cbn [binary_normalize].
  destruct (binary_round_bounded prec emax Hprec Hmax false m (Z.min ex ey) b)
    as (H1 & H2 & H3 & H4); [by rewrite Hsum | done | done |].
  split; [done|]. split; [done|]. split.
  - intros a Ha Hax. apply H3; [done|]. by rewrite Hsum.
  - intros k c Hc1 Hc2 Hc3. rewrite <-Hsum. by apply H4.
Qed.

(** The sum of two finite numbers that cancel is +0. *)
Theorem SFadd_cancel sx mx ex sy my ey :
  (SF2Q (S754_finite sx mx ex) + SF2Q (S754_finite sy my ey) == 0)%Q →
  SFadd prec emax (S754_finite sx mx ex) (S754_finite sy my ey)
  = S754_zero false.
Proof.
  intros Hzero. cbn [SFadd].
  pose proof (SFadd_aligned sx mx ex sy my ey) as Hsum.
  set (z := (cond_Zopp sx _ + cond_Zopp sy _)%Z) in *.
  assert (z = 0)%Z as ->; [|done].
  apply (F2Q_eq _ _ (Z.min ex ey)). by rewrite F2Q_zero, Hsum.
Qed.

(** Conversion to the format. *)
Theorem convert_bounded s m e b :
  (F2Q (Zpos m) e <= pow2 b)%Q → (emin prec emax ≤ b < emax)%Z →
  (e ≤ emax - prec)%Z →
  rounded prec emax s (IEEE.convert prec emax (S754_finite s m e))
  ∧ (SFabs_Q (IEEE.convert prec emax (S754_finite s m e)) <= pow2 b)%Q.
Proof.
  intros Hb Hbr He. cbn [IEEE.convert].
  by destruct (binary_round_bounded prec emax Hprec Hmax s m e b)
    as (H1 & H2 & _).
Qed.
End Operations.

(** *** Division *)

(** Where a quotient lies, from the remainder of the integer division. *)
Lemma located_div (x : Q) (q r m2 e : Z) :
  (0 < m2)%Z → (0 ≤ r < m2)%Z →
  (x * inject_Z m2 == (inject_Z q * inject_Z m2 + inject_Z r) * pow2 e)%Q →
  located x q (new_location m2 r) e.
Proof.
  intros Hm2 Hr Hx. pose proof (pow2_pos e) as HP.
  assert (0 < inject_Z m2)%Q as HM
    by (change 0%Q with (inject_Z 0); rewrite <-Zlt_Qlt; lia).
  assert (0 <= inject_Z r)%Q as HR
    by (change 0%Q with (inject_Z 0); rewrite <-Zle_Qle; lia).
  assert (inject_Z r < inject_Z m2)%Q as HRM by (rewrite <-Zlt_Qlt; lia).
  set (M := inject_Z m2) in *. set (R := inject_Z r) in *.
  set (P := pow2 e) in *.
  assert (x * M == F2Q q e * M + R * P)%Q as Hx'.
  { rewrite Hx. unfold F2Q. fold P. ring. }
  clear Hx. set (A := F2Q q e) in *.
  assert (r = 0%Z → located x q loc_Exact e) as Hexact.
  { intros ->. unfold located. fold A. change R with 0%Q in Hx'. nra. }
  assert (r ≠ 0%Z → 0 < R)%Q as HRpos.
  { intros. unfold R. change 0%Q with (inject_Z 0). rewrite <-Zlt_Qlt. lia. }
  assert (0 < R → 2 * R < M → A < x ∧ x < A + (1 # 2) * P)%Q as Hlt.
  { intros. split; nra. }
  assert (0 < R → M < 2 * R → A + (1 # 2) * P < x ∧ x < A + P)%Q as Hgt.
  { intros. split; nra. }
  assert (2 * R == M → x == A + (1 # 2) * P)%Q as Heq.
  { intros. nra. }
  assert (∀ k, inject_Z (2 * k) == 2 * inject_Z k)%Q as H2
    by (intros; rewrite inject_Z_mult; reflexivity).
  unfold new_location, new_location_even, new_location_odd.
  destruct (Z.even m2) eqn:Even.
  - destruct (Z.eqb_spec r 0) as [->|Hne]; [by apply Hexact|].
    unfold located. fold A P.
    destruct (Z.compare_spec (2 * r) m2) as [E|E|E].
    + apply Heq. unfold R, M. by rewrite <-H2, E.
    + apply Hlt; [by apply HRpos|]. unfold R, M. rewrite <-H2.
      by rewrite <-Zlt_Qlt.
    + apply Hgt; [by apply HRpos|]. unfold R, M. rewrite <-H2.
      by rewrite <-Zlt_Qlt.
  - destruct (Z.eqb_spec r 0) as [->|Hne]; [by apply Hexact|].
    assert (2 * r ≠ m2)%Z as Hodd.
    { intros <-. rewrite Z.even_mul in Even. done. }
    unfold located. fold A P.
    destruct (Z.compare_spec (2 * r + 1) m2) as [E|E|E].
    + apply Hlt; [by apply HRpos|]. unfold R, M. rewrite <-H2.
      rewrite <-Zlt_Qlt. lia.
    + apply Hlt; [by apply HRpos|]. unfold R, M. rewrite <-H2.
      rewrite <-Zlt_Qlt. lia.
    + apply Hgt; [by apply HRpos|]. unfold R, M. rewrite <-H2.
      rewrite <-Zlt_Qlt. lia.
Qed.

Section Division.
Variables prec emax : Z.
Hypothesis Hprec : (0 < prec)%Z.
Hypothesis Hmax : (prec < emax)%Z.

Lemma SFdiv_core_binary_spec (x : Q) m1 e1 m2 e2 :
  (0 < m1)%Z → (0 < m2)%Z → (x * F2Q m2 e2 == F2Q m1 e1)%Q →
  located x (SFdiv_core_binary prec emax m1 e1 m2 e2).1.1
          (SFdiv_core_binary prec emax m1 e1 m2 e2).2
          (SFdiv_core_binary prec emax m1 e1 m2 e2).1.2
  ∧ (0 ≤ (SFdiv_core_binary prec emax m1 e1 m2 e2).1.1)%Z
  ∧ (SFdiv_core_binary prec emax m1 e1 m2 e2).1.2
    = Z.min (fexp prec emax (Zdigits2 m1 + e1 - (Zdigits2 m2 + e2))) (e1 - e2).
Proof.
  intros Hm1 Hm2 Hx. unfold SFdiv_core_binary.
  set (e' := Z.min _ _). set (s := (e1 - e2 - e')%Z).
  assert (0 ≤ s)%Z as Hs by (unfold s, e'; lia).
  set (m' := match s with Zpos _ => Z.shiftl m1 s | 0%Z => m1 | Zneg _ => 0%Z end).
  assert (m' = m1 * 2 ^ s)%Z as Hm'.
  { unfold m'. destruct s as [|p|p] eqn:E; [lia| |lia].
    by rewrite Z.shiftl_mul_pow2. }
  pose proof (Z_div_mod m' m2 ltac:(lia)) as Hdiv.
  destruct (Z.div_eucl m' m2) as [q r]. destruct Hdiv as [Hqr Hr].
  cbn [fst snd]. split; [|split; [|done]].
  - apply located_div; [done..|].
    pose proof (pow2_pos e2) as HP2.
    apply (Qmult_inj_r _ _ (pow2 e2)); [lra|].
    rewrite <-inject_Z_mult, <-inject_Z_plus.
    replace (q * m2 + r)%Z with (m1 * 2 ^ s)%Z by lia.
    rewrite inject_Z_mult, <-(pow2_Z s) by done.
    transitivity (x * F2Q m2 e2)%Q; [unfold F2Q; ring|].
    rewrite Hx. unfold F2Q.
    replace e1 with (s + e' + e2)%Z by (unfold s; lia).
    rewrite !pow2_add. ring.
  - assert (0 ≤ m')%Z by (rewrite Hm'; apply Z.mul_nonneg_nonneg; lia).
    nia.
Qed.

(** The rounding of a quotient: zero is excluded once the quotient is at
    least the smallest power of two of the format. *)
Theorem div_round_bounded (x : Q) sx m1 e1 m2 e2 a b :
  (0 < m1)%Z → (0 < m2)%Z → (x * F2Q m2 e2 == F2Q m1 e1)%Q →
  (pow2 a <= x)%Q → (x <= pow2 b)%Q →
  (emin prec emax ≤ a)%Z → (b < emax)%Z →
  let mel := SFdiv_core_binary prec emax m1 e1 m2 e2 in
  let r := binary_round_aux prec emax sx mel.1.1 mel.1.2 mel.2 in
  rounded prec emax sx r
  ∧ (SFabs_Q r <= pow2 b)%Q
  ∧ (pow2 a <= SFabs_Q r)%Q
  ∧ (∀ k c, (b + 1 - prec ≤ c)%Z → (emin prec emax ≤ c)%Z →
       ((x <= F2Q k c)%Q → (SFabs_Q r <= F2Q k c)%Q)
       ∧ ((F2Q k c <= x)%Q → (F2Q k c <= SFabs_Q r)%Q)).
Proof.
  intros Hm1 Hm2 Hx Ha Hb Hamin Hbmax mel r.
  destruct (SFdiv_core_binary_spec x m1 e1 m2 e2 Hm1 Hm2 Hx)
    as (Hloc & Hq & He).
  fold mel in Hloc, Hq, He. unfold r. clear r.
  set (q := mel.1.1) in *. set (e' := mel.1.2) in *. set (l := mel.2) in *.
  set (D := (Zdigits2 m1 + e1 - (Zdigits2 m2 + e2))%Z) in *.
  assert (a ≤ b)%Z as Hab by (apply pow2_le_inv; lra).
  assert (pow2 (D - 1) < x)%Q as HD.
  { destruct (F2Q_digits m1 e1 Hm1) as [H1 _].
    destruct (F2Q_digits m2 e2 Hm2) as [_ H2].
    pose proof (pow2_pos (Zdigits2 m2 + e2)) as HP.
    pose proof (F2Q_pos m2 e2 Hm2) as HY.
    pose proof (pow2_pos a) as HPa.
    replace (Zdigits2 m1 - 1 + e1)%Z with (D - 1 + (Zdigits2 m2 + e2))%Z
      in H1 by (unfold D; lia).
    rewrite pow2_add in H1.
    set (Y := F2Q m2 e2) in *. set (X := F2Q m1 e1) in *.
    set (P := pow2 (Zdigits2 m2 + e2)) in *. set (Q1 := pow2 (D - 1)) in *.
    nra. }
  assert (D ≤ b)%Z as HDb.
  { assert (pow2 (D - 1) < pow2 b)%Q as ?%pow2_lt_inv by lra. lia. }
  assert (pow2 e' <= x)%Q as He'x.
  { destruct (decide (e' ≤ a)%Z) as [Hle|Hgt].
    - pose proof (pow2_le e' a Hle). lra.
    - assert (e' ≤ D - 1)%Z as Hle by (unfold fexp in He; lia).
      pose proof (pow2_le e' (D - 1) Hle). lra. }
  assert (0 < q)%Z as Hqpos.
  { destruct (located_bounds _ _ _ _ Hloc) as [_ Hhi].
    rewrite <-F2Q_succ, <-F2Q_one in *.
    assert (F2Q 1 e' < F2Q (q + 1) e')%Q as ?%F2Q_lt by lra. lia. }
  destruct (binary_round_aux_bounded prec emax Hprec Hmax x sx q e' l b)
    as (H1 & H2 & H3 & H4); try done.
  { unfold emin in *. lia. }
  { unfold fexp, emin in *. lia. }
  split; [done|]. split; [done|]. split; [by apply H3|].
  intros k c Hc1 Hc2. apply H4; [|done..]. unfold fexp in He. lia.
Qed.

(** [x / y] for finite [x] and [y]. *)
Theorem SFdiv_bounded sx mx ex sy my ey (x : Q) a b :
  (x * F2Q (Zpos my) ey == F2Q (Zpos mx) ex)%Q →
  (pow2 a <= x)%Q → (x <= pow2 b)%Q →
  (emin prec emax ≤ a)%Z → (b < emax)%Z →
  let r := SFdiv prec emax (S754_finite sx mx ex) (S754_finite sy my ey) in
  rounded prec emax (xorb sx sy) r
  ∧ (SFabs_Q r <= pow2 b)%Q
  ∧ (pow2 a <= SFabs_Q r)%Q.
Proof.
  intros Hx Ha Hb Hamin Hbmax r. unfold r. cbn [SFdiv].
  destruct (div_round_bounded x (xorb sx sy) (Zpos mx) ex (Zpos my) ey a b)
    as (H1 & H2 & H3 & _); try done.
  destruct (SFdiv_core_binary prec emax (Zpos mx) ex (Zpos my) ey)
    as [[q e'] l]. done.
Qed.

(** The rounding of a positive rational. *)
Theorem of_Q_bounded (n d : positive) a b :
  (pow2 a <= Zpos n # d)%Q → (Zpos n # d <= pow2 b)%Q →
  (emin prec emax ≤ a)%Z → (b < emax)%Z →
  rounded prec emax false (IEEE.of_Q prec emax (Zpos n # d))
  ∧ (SFabs_Q (IEEE.of_Q prec emax (Zpos n # d)) <= pow2 b)%Q
  ∧ (pow2 a <= SFabs_Q (IEEE.of_Q prec emax (Zpos n # d)))%Q
  ∧ (∀ k c, (b + 1 - prec ≤ c)%Z → (emin prec emax ≤ c)%Z →
       ((Zpos n # d <= F2Q k c)%Q →
        (SFabs_Q (IEEE.of_Q prec emax (Zpos n # d)) <= F2Q k c)%Q)
       ∧ ((F2Q k c <= Zpos n # d)%Q →
          (F2Q k c <= SFabs_Q (IEEE.of_Q prec emax (Zpos n # d)))%Q)).
Proof.
  intros Ha Hb Hamin Hbmax. unfold IEEE.of_Q. cbn [Qnum Qden].
  destruct (div_round_bounded (Zpos n # d) false (Zpos n) 0 (Zpos d) 0 a b)
    as (H1 & H2 & H3 & H4); try done.
  { unfold F2Q. rewrite pow2_0, !Qmult_1_r.
    unfold Qeq, Qmult, inject_Z. simpl. lia. }
  destruct (SFdiv_core_binary prec emax (Zpos n) 0 (Zpos d) 0)
    as [[q e'] l]. done.
Qed.

(** The same for a negative rational. *)
Theorem of_Q_bounded_neg (n d : positive) a b :
  (pow2 a <= Zpos n # d)%Q → (Zpos n # d <= pow2 b)%Q →
  (emin prec emax ≤ a)%Z → (b < emax)%Z →
  rounded prec emax true (IEEE.of_Q prec emax (Zneg n # d))
  ∧ (SFabs_Q (IEEE.of_Q prec emax (Zneg n # d)) <= pow2 b)%Q
  ∧ (pow2 a <= SFabs_Q (IEEE.of_Q prec emax (Zneg n # d)))%Q
  ∧ (∀ k c, (b + 1 - prec ≤ c)%Z → (emin prec emax ≤ c)%Z →
       ((Zpos n # d <= F2Q k c)%Q →
        (SFabs_Q (IEEE.of_Q prec emax (Zneg n # d)) <= F2Q k c)%Q)
       ∧ ((F2Q k c <= Zpos n # d)%Q →
          (F2Q k c <= SFabs_Q (IEEE.of_Q prec emax (Zneg n # d)))%Q)).
Proof.
  intros Ha Hb Hamin Hbmax. unfold IEEE.of_Q. cbn [Qnum Qden].
  destruct (div_round_bounded (Zpos n # d) true (Zpos n) 0 (Zpos d) 0 a b)
    as (H1 & H2 & H3 & H4); try done.
  { unfold F2Q. rewrite pow2_0, !Qmult_1_r.
    unfold Qeq, Qmult, inject_Z. simpl. lia. }
  destruct (SFdiv_core_binary prec emax (Zpos n) 0 (Zpos d) 0)
    as [[q e'] l]. done.
Qed.
End Division.

(** ** Elapsed time and throughput *)

(** *** The signs, in exact arithmetic *)

Lemma elapsed_positive (ts tf : timespec) :
  valid_timespec ts → valid_timespec tf → timespec_lt ts tf →
  (0 < get_wtime_diff ts tf)%Qc.
Proof.
  unfold valid_timespec, timespec_lt, get_wtime_diff.
  destruct ts as [s1 n1], tf as [s2 n2]. simpl. intros H1 H2 H3.
  qc_to_q. unfold Qlt, Qplus, Qmult, inject_Z. simpl. lia.
Qed.

Lemma elapsed_nonnegative (ts tf : timespec) :
  valid_timespec ts → valid_timespec tf → timespec_le ts tf →
  (0 ≤ get_wtime_diff ts tf)%Qc.
Proof.
  unfold valid_timespec, timespec_le, get_wtime_diff.
  destruct ts as [s1 n1], tf as [s2 n2]. simpl. intros H1 H2 H3.
  qc_to_q. unfold Qle, Qplus, Qmult, inject_Z. simpl. lia.
Qed.

Lemma elapsed_zero (t : timespec) : get_wtime_diff t t = 0%Qc.
Proof.
  unfold get_wtime_diff. simpl. rewrite !Z.sub_diag.
  apply Qc_is_canon. reflexivity.
Qed.

Lemma throughput_positive (n : Z) (t : Qc) :
  (0 < n)%Z → (0 < t)%Qc →
  (0 < Q2Qc (inject_Z n) / t / Q2Qc 1000000)%Qc.
Proof.
  intros Hn Ht. qc_to_q.
  apply Qmult_lt_0_compat; [apply Qmult_lt_0_compat|].
  - unfold Qlt, inject_Z. simpl. lia.
  - by apply Qinv_lt_0_compat.
  - reflexivity.
Qed.

Lemma size_t_mul_small (a b : Z) :
  (0 ≤ a * b < 2 ^ 64)%Z → size_t_mul a b = (a * b)%Z.
Proof. intros H. unfold size_t_mul. by apply Z.mod_small. Qed.

Lemma elapsed_positive_iff (ts tf : timespec) :
  valid_timespec ts → valid_timespec tf →
  (0 < get_wtime_diff ts tf)%Qc ↔ timespec_lt ts tf.
Proof.
  unfold valid_timespec, timespec_lt, get_wtime_diff.
  destruct ts as [s1 n1], tf as [s2 n2]. simpl. intros H1 H2.
  qc_to_q. unfold Qlt, Qplus, Qmult, inject_Z. simpl. lia.
Qed.

(** *** The elapsed time in double precision *)

Lemma of_Q_nano :
  IEEE.of_Q 53 1024 (1 # 1000000000)
  = S754_finite false 4835703278458517 (-82).
Proof. vm_compute. reflexivity. Qed.

Lemma of_Q_million :
  IEEE.of_Q 53 1024 1000000 = S754_finite false 8589934592000000 (-33).
Proof. vm_compute. reflexivity. Qed.

Lemma inject_Z_le_pow2 z b : (0 ≤ b)%Z → (z ≤ 2 ^ b)%Z → (inject_Z z <= pow2 b)%Q.
Proof. intros. rewrite pow2_Z by done. by rewrite <-Zle_Qle. Qed.

Lemma pow2_le_inject_Z z a : (0 ≤ a)%Z → (2 ^ a ≤ z)%Z → (pow2 a <= inject_Z z)%Q.
Proof. intros. rewrite pow2_Z by done. by rewrite <-Zle_Qle. Qed.

Lemma F2Q_0_inject m : (F2Q m 0 == inject_Z m)%Q.
Proof. unfold F2Q. rewrite pow2_0. ring. Qed.

(** A nonzero rounded number is finite. *)
Lemma rounded_finite prec emax s r :
  rounded prec emax s r → (0 < SFabs_Q r)%Q →
  ∃ m e, r = S754_finite s m e ∧ (e ≤ emax - prec)%Z.
Proof.
  intros [->|(m & e & -> & He & _)] Hpos; [by apply Qlt_irrefl in Hpos|].
  exists m, e. split; [done | lia].
Qed.

(** An integer of up to 63 bits becomes a number between 1 and [2^63]. *)
Lemma of_Q_seconds (n : positive) :
  (Zpos n < 2 ^ 63)%Z →
  rounded 53 1024 false (IEEE.of_Q 53 1024 (inject_Z (Zpos n)))
  ∧ (SFabs_Q (IEEE.of_Q 53 1024 (inject_Z (Zpos n))) <= pow2 63)%Q
  ∧ (pow2 0 <= SFabs_Q (IEEE.of_Q 53 1024 (inject_Z (Zpos n))))%Q.
Proof.
  intros Hn.
  destruct (of_Q_bounded 53 1024 ltac:(lia) ltac:(lia) n 1 0 63)
    as (H1 & H2 & H3 & _); try done.
  - apply (pow2_le_inject_Z (Zpos n) 0); lia.
  - apply (inject_Z_le_pow2 (Zpos n) 63); lia.
Qed.

(** A count of nanoseconds is converted exactly. *)
Lemma of_Q_nanoseconds (n : positive) s :
  (Zpos n < 1000000000)%Z →
  rounded 53 1024 s
    (IEEE.of_Q 53 1024 (inject_Z (cond_Zopp s (Zpos n))))
  ∧ (SFabs_Q (IEEE.of_Q 53 1024 (inject_Z (cond_Zopp s (Zpos n))))
     == inject_Z (Zpos n))%Q.
Proof.
  intros Hn.
  assert (pow2 0 <= Zpos n # 1)%Q as Ha
    by (apply (pow2_le_inject_Z (Zpos n) 0); lia).
  assert (Zpos n # 1 <= pow2 30)%Q as Hb
    by (apply (inject_Z_le_pow2 (Zpos n) 30); lia).
  destruct s; cbn [cond_Zopp Z.opp].
  - destruct (of_Q_bounded_neg 53 1024 ltac:(lia) ltac:(lia) n 1 0 30)
      as (H1 & _ & _ & H4); try done.
    split; [done|].
    destruct (H4 (Zpos n) 0%Z ltac:(lia) ltac:(done)) as [Hle Hge].
    rewrite F2Q_0_inject in Hle, Hge.
    apply Qle_antisym; [apply Hle | apply Hge]; apply Qle_refl.
  - destruct (of_Q_bounded 53 1024 ltac:(lia) ltac:(lia) n 1 0 30)
      as (H1 & _ & _ & H4); try done.
    split; [done|].
    destruct (H4 (Zpos n) 0%Z ltac:(lia) ltac:(done)) as [Hle Hge].
    rewrite F2Q_0_inject in Hle, Hge.
    apply Qle_antisym; [apply Hle | apply Hge]; apply Qle_refl.
Qed.

(** The nanoseconds times [1E-9]: less than a second, and not zero. *)
Lemma nanoseconds_product (n : positive) s :
  (Zpos n < 1000000000)%Z →
  ∃ m e,
    SFmul 53 1024 (IEEE.of_Q 53 1024 (inject_Z (cond_Zopp s (Zpos n))))
      (IEEE.of_Q 53 1024 (1 # 1000000000))
    = S754_finite s m e
    ∧ (e ≤ 1024 - 53)%Z
    ∧ (pow2 (-30) <= F2Q (Zpos m) e)%Q
    ∧ (F2Q (Zpos m) e <= F2Q (2 ^ 31 - 1) (-31))%Q.
Proof.
  intros Hn. rewrite of_Q_nano.
  destruct (of_Q_nanoseconds n s Hn) as [Hr Hv].
  destruct (rounded_finite _ _ _ _ Hr) as (mN & eN & HN & HeN).
  { rewrite Hv. change 0%Q with (inject_Z 0). rewrite <-Zlt_Qlt. lia. }
  rewrite HN in Hv |- *. cbn [SFabs_Q] in Hv.
  assert (eN ≤ 30)%Z as HeN30.
  { apply pow2_le_inv.
    pose proof (F2Q_ge_pow2 (Zpos mN) eN ltac:(lia)).
    pose proof (inject_Z_le_pow2 (Zpos n) 30 ltac:(lia) ltac:(lia)). lra. }
  assert (1 <= inject_Z (Zpos n))%Q as Hn1
    by (change 1%Q with (inject_Z 1); rewrite <-Zle_Qle; lia).
  assert (inject_Z (Zpos n) <= 999999999)%Q as Hn9
    by (change 999999999%Q with (inject_Z 999999999); rewrite <-Zle_Qle; lia).
  set (C := F2Q 4835703278458517 (-82)) in *.
  assert (pow2 (-30) <= C)%Q as HC1 by (by vm_compute).
  assert (999999999 * C <= F2Q (2 ^ 31 - 1) (-31))%Q as HC2 by (by vm_compute).
  assert (F2Q (2 ^ 31 - 1) (-31) <= pow2 0)%Q as HC3 by (by vm_compute).
  assert (0 < C)%Q as HC0 by (by vm_compute).
  destruct (SFmul_bounded 53 1024 ltac:(lia) ltac:(lia)
              s mN eN false 4835703278458517 (-82) 0)
    as (H1 & H2 & H3 & H4).
  - fold C. rewrite Hv. nra.
  - unfold emin. lia.
  - lia.
  - fold C in H3, H4. rewrite xorb_false_r in H1.
    destruct (rounded_finite _ _ _ _ H1) as (m & e & Hp & He).
    { apply Qlt_le_trans with (pow2 (-30)); [apply pow2_pos|].
      apply H3; [unfold emin; lia|]. rewrite Hv. nra. }
    exists m, e. split; [done|]. split; [done|].
    rewrite Hp in H3, H4. cbn [SFabs_Q] in H3, H4. split.
    + apply H3; [unfold emin; lia|]. rewrite Hv. nra.
    + apply H4; [lia | lia | unfold emin; lia |]. rewrite Hv. nra.
Qed.

Lemma rounded_inv prec emax s s' m e :
  rounded prec emax s (S754_finite s' m e) →
  s' = s ∧ (emin prec emax ≤ e ≤ emax - prec)%Z ∧ (Zpos m < 2 ^ prec)%Z.
Proof. intros [?|(m' & e' & [= -> -> ->] & ? & ?)]; done. Qed.

Lemma F2Q_below_one : (F2Q (2 ^ 31 - 1) (-31) == 1 - pow2 (-31))%Q.
Proof. by vm_compute. Qed.

(** The elapsed time between two readings [ds] seconds and [dn]
    nanoseconds apart, the second not earlier than the first: a finite
    number that is not negative; positive, and at least [2^-31], unless
    the readings are the same. *)
Theorem elapsed_double_sign (ds dn : Z) :
  (0 ≤ ds < 2 ^ 63)%Z → (-1000000000 < dn < 1000000000)%Z →
  (0 < ds ∨ 0 ≤ dn)%Z →
  rounded 53 1024 false (elapsed_double ds dn)
  ∧ (SFabs_Q (elapsed_double ds dn) <= pow2 64)%Q
  ∧ ((0 < ds ∨ 0 < dn)%Z → (pow2 (-31) <= SFabs_Q (elapsed_double ds dn))%Q)
  ∧ (ds = 0%Z → dn = 0%Z → elapsed_double ds dn = S754_zero false).
Proof.
  intros Hds Hdn Hle. unfold elapsed_double.
  assert (pow2 (-31) <= pow2 (-30))%Q as H3130 by (apply pow2_le; lia).
  assert (pow2 (-31) <= pow2 0)%Q as H310 by (apply pow2_le; lia).
  assert (pow2 0 <= pow2 64)%Q as H064 by (apply pow2_le; lia).
  assert (pow2 63 + pow2 0 <= pow2 64)%Q as H6364 by (by vm_compute).
  pose proof (pow2_pos (-31)) as Hp31. pose proof pow2_0 as Hp0.
  destruct ds as [|d|d]; [| |lia].
  - (* the same second *)
    change (IEEE.of_Q 53 1024 (inject_Z 0)) with (S754_zero false).
    destruct dn as [|n|n]; [| |lia].
    + split; [by left|]. split; [by vm_compute|]. split; [lia | done].
    + destruct (nanoseconds_product n false ltac:(lia))
        as (m & e & Hp & He & Hlo & Hhi).
      change (inject_Z (Zpos n)) with (inject_Z (cond_Zopp false (Zpos n))).
      rewrite Hp. cbn [SFadd SFabs_Q].
      pose proof F2Q_below_one as Hb1.
      assert (rounded 53 1024 false (S754_finite false m e)) as Hr.
      { destruct (of_Q_nanoseconds n false ltac:(lia)) as [HrN HvN].
        destruct (rounded_finite _ _ _ _ HrN) as (mN & eN & HN & HeN).
        { rewrite HvN. change 0%Q with (inject_Z 0). rewrite <-Zlt_Qlt. lia. }
        rewrite <-Hp, of_Q_nano, HN.
        rewrite HN in HvN. cbn [SFabs_Q] in HvN.
        destruct (SFmul_bounded 53 1024 ltac:(lia) ltac:(lia)
                    false mN eN false 4835703278458517 (-82) 0)
          as (H1 & _); [| unfold emin; lia | | done].
        - rewrite HvN.
          assert (inject_Z (Zpos n) <= 999999999)%Q as Hn9
            by (change 999999999%Q with (inject_Z 999999999);
                rewrite <-Zle_Qle; lia).
          assert (999999999 * F2Q 4835703278458517 (-82) <= pow2 0)%Q
            by (by vm_compute).
          assert (0 < F2Q 4835703278458517 (-82))%Q by (by vm_compute).
          nra.
        - assert (eN ≤ 30)%Z; [|lia].
          apply pow2_le_inv.
          pose proof (F2Q_ge_pow2 (Zpos mN) eN ltac:(lia)).
          pose proof (inject_Z_le_pow2 (Zpos n) 30 ltac:(lia) ltac:(lia)).
          lra. }
      split; [done|]. split; [lra|]. split; [intros _; lra | done].
  - (* a later second *)
    destruct (of_Q_seconds d ltac:(lia)) as (HrD & HhiD & HloD).
    destruct (rounded_finite _ _ _ _ HrD) as (mD & eD & HD & HeD); [lra|].
    rewrite HD in HhiD, HloD, HrD |- *. cbn [SFabs_Q] in HhiD, HloD.
    destruct dn as [|n|n].
    + change (IEEE.of_Q 53 1024 (inject_Z 0)) with (S754_zero false).
      rewrite of_Q_nano. cbn [SFmul xorb SFadd SFabs_Q].
      split; [done|]. split; [lra|]. split; [intros _; lra | done].
    + destruct (nanoseconds_product n false ltac:(lia))
        as (m & e & Hp & He & Hlo & Hhi).
      change (inject_Z (Zpos n)) with (inject_Z (cond_Zopp false (Zpos n))).
      rewrite Hp. pose proof F2Q_below_one as Hb1.
      pose proof (pow2_pos (-30)) as Hp30.
      destruct (SFadd_positive 53 1024 ltac:(lia) ltac:(lia)
                  false mD eD false m e 64) as (H1 & H2 & H3 & _).
      * cbn [SF2Q cond_Zopp]. lra.
      * cbn [SF2Q cond_Zopp]. lra.
      * unfold emin. lia.
      * lia.
      * split; [done|]. split; [done|]. split; [|done].
        intros _. apply H3; [unfold emin; lia|]. cbn [SF2Q cond_Zopp]. lra.
    + destruct (nanoseconds_product n true ltac:(lia))
        as (m & e & Hp & He & Hlo & Hhi).
      change (inject_Z (Zneg n)) with (inject_Z (cond_Zopp true (Zpos n))).
      rewrite Hp. pose proof F2Q_below_one as Hb1.
      pose proof (pow2_pos (-30)) as Hp30.
      assert (SF2Q (S754_finite true m e) == - F2Q (Zpos m) e)%Q as Hneg
        by apply F2Q_opp.
      destruct (SFadd_positive 53 1024 ltac:(lia) ltac:(lia)
                  false mD eD true m e 64) as (H1 & H2 & H3 & _).
      * rewrite Hneg. cbn [SF2Q cond_Zopp]. lra.
      * rewrite Hneg. cbn [SF2Q cond_Zopp]. lra.
      * unfold emin. lia.
      * lia.
      * split; [done|]. split; [done|]. split; [|done].
        intros _. apply H3; [unfold emin; lia|]. rewrite Hneg.
        cbn [SF2Q cond_Zopp]. lra.
Qed.

(** *** The throughput in double precision *)

Lemma quotient_bounds (X Y : Q) aX bX aY bY :
  (0 < Y)%Q →
  (pow2 aX <= X)%Q → (X <= pow2 bX)%Q → (pow2 aY <= Y)%Q → (Y <= pow2 bY)%Q →
  (X / Y * Y == X)%Q
  ∧ (pow2 (aX - bY) <= X / Y)%Q ∧ (X / Y <= pow2 (bX - aY))%Q.
Proof.
  intros HY HaX HbX HaY HbY.
  assert (X / Y * Y == X)%Q as Hx by (field; lra).
  split; [done|]. set (x := (X / Y)%Q) in *.
  pose proof (pow2_add (aX - bY) bY) as H1.
  pose proof (pow2_add (bX - aY) aY) as H2.
  replace (aX - bY + bY)%Z with aX in H1 by lia.
  replace (bX - aY + aY)%Z with bX in H2 by lia.
  pose proof (pow2_pos (aX - bY)). pose proof (pow2_pos (bX - aY)).
  pose proof (pow2_pos aY). pose proof (pow2_pos bY).
  set (P1 := pow2 (aX - bY)) in *. set (P2 := pow2 (bX - aY)) in *.
  set (PaX := pow2 aX) in *. set (PbX := pow2 bX) in *.
  set (PaY := pow2 aY) in *. set (PbY := pow2 bY) in *.
  split; nra.
Qed.

(** With a count of one evaluation or more, below [2^64], and a positive
    elapsed time, the throughput is a positive finite number. *)
Theorem Mevals_double_positive (n : Z) (t : spec_float) :
  (1 ≤ n < 2 ^ 64)%Z →
  rounded 53 1024 false t →
  (pow2 (-31) <= SFabs_Q t)%Q → (SFabs_Q t <= pow2 64)%Q →
  rounded 53 1024 false (Mevals_double n t)
  ∧ (pow2 (-84) <= SFabs_Q (Mevals_double n t))%Q
  ∧ (SFabs_Q (Mevals_double n t) <= pow2 76)%Q.
Proof.
  intros Hn Ht Hlo Hhi. unfold Mevals_double. rewrite of_Q_million.
  destruct n as [|n|n]; [lia| |lia].
  destruct (of_Q_bounded 53 1024 ltac:(lia) ltac:(lia) n 1 0 64)
    as (HrN & HhiN & HloN & _); try done.
  { apply (pow2_le_inject_Z (Zpos n) 0); lia. }
  { apply (inject_Z_le_pow2 (Zpos n) 64); lia. }
  change (Zpos n # 1)%Q with (inject_Z (Zpos n)) in *.
  pose proof (pow2_pos (-31)) as Hp31. pose proof (pow2_pos 0) as Hp0.
  destruct (rounded_finite _ _ _ _ HrN) as (mN & eN & HN & _); [lra|].
  destruct (rounded_finite _ _ _ _ Ht) as (mt & et & -> & _); [lra|].
  rewrite HN in HhiN, HloN |- *. cbn [SFabs_Q] in *.
  destruct (quotient_bounds (F2Q (Zpos mN) eN) (F2Q (Zpos mt) et) 0 64 (-31) 64)
    as (Hx & Hxlo & Hxhi); [lra | done..|].
  destruct (SFdiv_bounded 53 1024 ltac:(lia) ltac:(lia)
              false mN eN false mt et _ _ _ Hx Hxlo Hxhi)
    as (Hr1 & Hhi1 & Hlo1); [unfold emin; lia | lia |].
  cbn [xorb] in Hr1. pose proof (pow2_pos (0 - 64)) as Hp64.
  destruct (rounded_finite _ _ _ _ Hr1) as (m1 & e1 & H1 & _); [lra|].
  rewrite H1 in Hhi1, Hlo1 |- *. cbn [SFabs_Q] in *.
  assert (pow2 19 <= F2Q 8589934592000000 (-33))%Q as HM1 by (by vm_compute).
  assert (F2Q 8589934592000000 (-33) <= pow2 20)%Q as HM2 by (by vm_compute).
  pose proof (pow2_pos 19) as Hp19.
  destruct (quotient_bounds (F2Q (Zpos m1) e1) (F2Q 8589934592000000 (-33))
              (0 - 64) (64 - -31) 19 20)
    as (Hy & Hylo & Hyhi); [lra | done..|].
  destruct (SFdiv_bounded 53 1024 ltac:(lia) ltac:(lia)
              false m1 e1 false 8589934592000000 (-33) _ _ _ Hy Hylo Hyhi)
    as (Hr2 & Hhi2 & Hlo2); [unfold emin; lia | lia |].
  done.
Qed.

(** *** The signs, in double precision *)

Lemma SFabs_Q_nonneg (r : spec_float) : (0 <= SFabs_Q r)%Q.
Proof.
  destruct r as [s|s| |s m e]; try apply Qle_refl.
  apply Qlt_le_weak, F2Q_pos. lia.
Qed.

(** The two formulas of the harness on doubles are the operations of
    [SpecFloat] on their bits. *)
Lemma get_wtime_diff_double (ts tf : timespec) :
  IEEE.dbits (get_wtime_diff ts tf)
  = elapsed_double (tv_sec tf - tv_sec ts) (tv_nsec tf - tv_nsec ts).
Proof. reflexivity. Qed.

Lemma Mevals_double_eq (n : Z) (t : IEEE.double) :
  IEEE.dbits (vlit (inject_Z n) / t / vlit 1000000)%A
  = Mevals_double n (IEEE.dbits t).
Proof. reflexivity. Qed.

(** The elapsed time between two valid readings of a clock of 64-bit
    seconds, the second not earlier than the first, and the throughput
    computed from it. *)
Lemma elapsed_time_double (ts tf : timespec) :
  valid_timespec ts → valid_timespec tf → (tv_sec tf < 2 ^ 63)%Z →
  timespec_le ts tf →
  ∃ t : Q,
    IEEE.to_Q (IEEE.dbits (get_wtime_diff ts tf)) = Some t
    ∧ (0 <= t)%Q
    ∧ ((0 < t)%Q ↔ timespec_lt ts tf)
    ∧ (timespec_lt ts tf → ∀ n, (1 ≤ n < 2 ^ 64)%Z →
       ∃ q : Q,
         IEEE.to_Q (IEEE.dbits (vlit (inject_Z n) / get_wtime_diff ts tf
                                / vlit 1000000)%A) = Some q
         ∧ (0 < q)%Q).
Proof.
  destruct ts as [s1 n1], tf as [s2 n2].
  unfold valid_timespec, timespec_le, timespec_lt. cbn [tv_sec tv_nsec].
  intros Hts Htf Hsec Hle.
  destruct (elapsed_double_sign (s2 - s1) (n2 - n1))
    as (Hr & Hhi & Hlo & Hzero); [lia..|].
  setoid_rewrite Mevals_double_eq. rewrite get_wtime_diff_double.
  cbn [tv_sec tv_nsec].
  destruct (to_Q_rounded _ _ _ _ Hr) as (t & Ht & Hv). cbn beta iota in Hv.
  exists t. split; [done|].
  pose proof (SFabs_Q_nonneg (elapsed_double (s2 - s1) (n2 - n1))) as Hnn.
  pose proof (pow2_pos (-31)) as Hp31.
  split; [lra|]. split; [split|].
  - intros Hpos.
    destruct (decide (0 < s2 - s1 ∨ 0 < n2 - n1)%Z) as [Hlt|Hsame]; [lia|].
    rewrite Hzero in Hv by lia. cbn [SFabs_Q] in Hv. lra.
  - intros Hlt. specialize (Hlo ltac:(lia)). lra.
  - intros Hlt n Hn. specialize (Hlo ltac:(lia)).
    destruct (Mevals_double_positive n _ Hn Hr Hlo Hhi) as (Hrm & Hlom & _).
    destruct (to_Q_rounded _ _ _ _ Hrm) as (q & Hq & Hvq).
    cbn beta iota in Hvq. exists q. split; [done|].
    pose proof (pow2_pos (-84)). lra.
Qed.

(** *** The count and the formulas, in any arithmetic *)

Section Throughput.
Context {D VAL_T : Type} `{!Arith D, !Arith VAL_T, !Cast D VAL_T}.
Context `{!Indeterminate VAL_T, !ArrayOps VAL_T}.
Implicit Types (params : gmap string (Params D)) (vals_in : list VAL_T).
Implicit Types (w : world D).

(** What [timed_run] leaves in the result, for the two overloads alike and
    in any arithmetic. *)
Lemma timed_run_count label par size n body R w br w' :
  timed_run (VAL_T := VAL_T) label par size n body R w = Some (br, w') →
  n_evals br = Some (size_t_mul (Z.of_nat n) (Z.of_nat R))
  ∧ ((Z.of_nat n * Z.of_nat R < 2 ^ 64)%Z →
       n_evals br = Some (Z.of_nat n * Z.of_nat R)%Z)
  ∧ eval_time br = get_wtime_diff (clock w (ticks w)) (clock w (S (ticks w)))
  ∧ Mevals br
    = Some (vlit (inject_Z (size_t_mul (Z.of_nat n) (Z.of_nat R)))
            / eval_time br / vlit 1000000)%A.
Proof.
  unfold timed_run. destruct (for_loop _ _ _ _ _ _) as [resptr|]; [|done].
  intros [= <- <-]. unfold Mevals. cbn [n_evals eval_time].
  split; [done|]. split; [|done].
  intros Hsmall. f_equal. apply size_t_mul_small. lia.
Qed.

Lemma test_func_count name library_prefix (funs : gmap string (FUN_T VAL_T)) f
    params vals_in Nrepeat w :
  funs !! name = Some f →
  in_place f (mapped_inputs params name vals_in) →
  ∃ br w', test_func name library_prefix funs params vals_in Nrepeat w
           = Some (br, w')
    ∧ n_evals br
      = Some (size_t_mul (Z.of_nat (length vals_in)) (Z.of_nat Nrepeat))
    ∧ ((Z.of_nat (length vals_in) * Z.of_nat Nrepeat < 2 ^ 64)%Z →
         n_evals br = Some (Z.of_nat (length vals_in) * Z.of_nat Nrepeat)%Z)
    ∧ eval_time br
      = get_wtime_diff (clock w (ticks w)) (clock w (S (ticks w)))
    ∧ Mevals br
      = Some (vlit (inject_Z (size_t_mul (Z.of_nat (length vals_in))
                                         (Z.of_nat Nrepeat)))
              / eval_time br / vlit 1000000)%A.
Proof.
  intros Hf Hin.
  rewrite (test_func_found _ _ _ _ _ _ _ _ Hf). cbv zeta.
  fold (mapped_inputs params name vals_in).
  set (vals := mapped_inputs params name vals_in) in *.
  destruct (timed_run_in_place (library_prefix +:+ "_" +:+ name)
              (operator_index params name).1
              (res_size f (length vals)) (length vals)
              (evaluate f vals) Nrepeat w)
    as (resptr & Hlen & Hrun).
  { intros b Hb. destruct (Hin b Hb) as (out & ? & ?). exists out.
    split; [done | congruence]. }
  do 2 eexists. split; [exact Hrun|].
  replace (length vals_in) with (length vals)
    by apply length_mapped_inputs.
  apply (timed_run_count _ _ _ _ _ _ _ _ _ Hrun).
Qed.

Lemma test_func_OPS_count name library_prefix (funs : gmap string OPS) OP
    params vals_in Nrepeat w :
  funs !! name = Some OP →
  ∃ br w', test_func_OPS name library_prefix funs params vals_in Nrepeat w
           = Some (br, w')
    ∧ n_evals br
      = Some (size_t_mul (Z.of_nat (length vals_in)) (Z.of_nat Nrepeat))
    ∧ ((Z.of_nat (length vals_in) * Z.of_nat Nrepeat < 2 ^ 64)%Z →
         n_evals br = Some (Z.of_nat (length vals_in) * Z.of_nat Nrepeat)%Z)
    ∧ eval_time br
      = get_wtime_diff (clock w (ticks w)) (clock w (S (ticks w)))
    ∧ Mevals br
      = Some (vlit (inject_Z (size_t_mul (Z.of_nat (length vals_in))
                                         (Z.of_nat Nrepeat)))
              / eval_time br / vlit 1000000)%A.
Proof.
  intros Hf.
  rewrite (test_func_OPS_found _ _ _ _ _ _ _ _ Hf). cbv zeta.
  fold (mapped_inputs params name vals_in).
  set (x := mapped_inputs params name vals_in) in *.
  destruct (timed_run_in_place (library_prefix +:+ "_" +:+ name)
              (operator_index params name).1 (length x) (length x)
              (λ _, Some (array_op OP <$> x)) Nrepeat w)
    as (resptr & Hlen & Hrun).
  { intros b Hb. eexists. split; [done|]. by rewrite length_fmap. }
  do 2 eexists. split; [exact Hrun|].
  replace (length vals_in) with (length x)
    by apply length_mapped_inputs.
  apply (timed_run_count _ _ _ _ _ _ _ _ _ Hrun).
Qed.
End Throughput.

(** C6, as the code has it.  For every result of [test_func] (either
    overload) on [n] inputs with [R] repeats, in the arithmetic of the
    program: the evaluation count is [n * R] reduced modulo 2^64, hence
    [n * R] when that product fits [size_t]; the elapsed time is
    [get_wtime_diff] of the two clock readings; and the throughput is the
    evaluation count divided by the elapsed time divided by 1e6.  For
    valid readings of which the second is not earlier than the first, both
    in exact arithmetic and in double precision (there with the seconds of
    the clock below 2^63, and every operation rounding to nearest): the
    elapsed time is finite and never negative; it is strictly positive
    exactly when the second reading is strictly later; and the throughput
    is then finite and strictly positive for a count of one or more, which
    [n >= 1], [R >= 1] and [n * R < 2^64] give. *)
Theorem throughput_of_result :
  (∀ (D VAL_T : Type) (HD : Arith D) (HV : Arith VAL_T) (HC : Cast D VAL_T)
     (HI : Indeterminate VAL_T) (HA : ArrayOps VAL_T)
     (name library_prefix : string) (params : gmap string (Params D))
     (vals_in : list VAL_T) (Nrepeat : nat) (w : world D),
     (∀ (funs : gmap string (FUN_T VAL_T)) f, funs !! name = Some f →
        in_place f (mapped_inputs params name vals_in) →
        ∃ br w', test_func name library_prefix funs params vals_in Nrepeat w
                 = Some (br, w')
          ∧ n_evals br
            = Some (size_t_mul (Z.of_nat (length vals_in)) (Z.of_nat Nrepeat))
          ∧ ((Z.of_nat (length vals_in) * Z.of_nat Nrepeat < 2 ^ 64)%Z →
               n_evals br
               = Some (Z.of_nat (length vals_in) * Z.of_nat Nrepeat)%Z)
          ∧ eval_time br
            = get_wtime_diff (clock w (ticks w)) (clock w (S (ticks w)))
          ∧ Mevals br
            = Some (vlit (inject_Z (size_t_mul (Z.of_nat (length vals_in))
                                               (Z.of_nat Nrepeat)))
                    / eval_time br / vlit 1000000)%A)
     ∧ (∀ (funs : gmap string OPS) OP, funs !! name = Some OP →
        ∃ br w', test_func_OPS name library_prefix funs params vals_in Nrepeat w
                 = Some (br, w')
          ∧ n_evals br
            = Some (size_t_mul (Z.of_nat (length vals_in)) (Z.of_nat Nrepeat))
          ∧ ((Z.of_nat (length vals_in) * Z.of_nat Nrepeat < 2 ^ 64)%Z →
               n_evals br
               = Some (Z.of_nat (length vals_in) * Z.of_nat Nrepeat)%Z)
          ∧ eval_time br
            = get_wtime_diff (clock w (ticks w)) (clock w (S (ticks w)))
          ∧ Mevals br
            = Some (vlit (inject_Z (size_t_mul (Z.of_nat (length vals_in))
                                               (Z.of_nat Nrepeat)))
                    / eval_time br / vlit 1000000)%A))
  ∧ (∀ (VAL_T : Type) (HV : Arith VAL_T) (HC : Cast Qc VAL_T)
       (HI : Indeterminate VAL_T) (HA : ArrayOps VAL_T)
       (name library_prefix : string) (params : gmap string (Params Qc))
       (vals_in : list VAL_T) (Nrepeat : nat) (w : world Qc)
       (br : BenchResult Qc VAL_T) (w' : world Qc),
       ((∃ (funs : gmap string (FUN_T VAL_T)) f, funs !! name = Some f
           ∧ test_func name library_prefix funs params vals_in Nrepeat w
             = Some (br, w'))
        ∨ (∃ (funs : gmap string OPS) OP, funs !! name = Some OP
             ∧ test_func_OPS name library_prefix funs params vals_in Nrepeat w
               = Some (br, w'))) →
       valid_timespec (clock w (ticks w)) →
       valid_timespec (clock w (S (ticks w))) →
       (timespec_le (clock w (ticks w)) (clock w (S (ticks w))) →
          (0 ≤ eval_time br)%Qc)
       ∧ ((0 < eval_time br)%Qc
          ↔ timespec_lt (clock w (ticks w)) (clock w (S (ticks w))))
       ∧ (timespec_lt (clock w (ticks w)) (clock w (S (ticks w))) →
          1 ≤ length vals_in → 1 ≤ Nrepeat →
          (Z.of_nat (length vals_in) * Z.of_nat Nrepeat < 2 ^ 64)%Z →
            ∃ mevals, Mevals br = Some mevals ∧ (0 < mevals)%Qc))
  ∧ (∀ (VAL_T : Type) (HV : Arith VAL_T) (HC : Cast IEEE.double VAL_T)
       (HI : Indeterminate VAL_T) (HA : ArrayOps VAL_T)
       (name library_prefix : string)
       (params : gmap string (Params IEEE.double))
       (vals_in : list VAL_T) (Nrepeat : nat) (w : world IEEE.double)
       (br : BenchResult IEEE.double VAL_T) (w' : world IEEE.double),
       ((∃ (funs : gmap string (FUN_T VAL_T)) f, funs !! name = Some f
           ∧ test_func name library_prefix funs params vals_in Nrepeat w
             = Some (br, w'))
        ∨ (∃ (funs : gmap string OPS) OP, funs !! name = Some OP
             ∧ test_func_OPS name library_prefix funs params vals_in Nrepeat w
               = Some (br, w'))) →
       valid_timespec (clock w (ticks w)) →
       valid_timespec (clock w (S (ticks w))) →
       (tv_sec (clock w (S (ticks w))) < 2 ^ 63)%Z →
       timespec_le (clock w (ticks w)) (clock w (S (ticks w))) →
       ∃ t : Q,
         IEEE.to_Q (IEEE.dbits (eval_time br)) = Some t
         ∧ (0 <= t)%Q
         ∧ ((0 < t)%Q
            ↔ timespec_lt (clock w (ticks w)) (clock w (S (ticks w))))
         ∧ (timespec_lt (clock w (ticks w)) (clock w (S (ticks w))) →
            1 ≤ length vals_in → 1 ≤ Nrepeat →
            (Z.of_nat (length vals_in) * Z.of_nat Nrepeat < 2 ^ 64)%Z →
              ∃ mevals (q : Q),
                Mevals br = Some mevals
                ∧ IEEE.to_Q (IEEE.dbits mevals) = Some q ∧ (0 < q)%Q)).
Proof.
  split; [|split].
  - intros D VAL_T HD HV HC HI HA name library_prefix params vals_in Nrepeat w.
    split.
    + intros funs f Hf Hin. by apply (test_func_count _ _ _ f).
    + intros funs OP Hf. by apply (test_func_OPS_count _ _ _ OP).
  - intros VAL_T HV HC HI HA name library_prefix params vals_in Nrepeat w br w'
      Hrun Hst Hft.
    assert (n_evals br
            = Some (size_t_mul (Z.of_nat (length vals_in)) (Z.of_nat Nrepeat))
            ∧ eval_time br
              = get_wtime_diff (clock w (ticks w)) (clock w (S (ticks w))))
      as [Hcount Htime].
    { destruct Hrun as [(funs & f & Hf & Hrun)|(funs & OP & Hf & Hrun)].
      - rewrite (test_func_found _ _ _ _ _ _ _ _ Hf) in Hrun. cbv zeta in Hrun.
        apply timed_run_count in Hrun as (Hc & _ & Ht & _).
        by rewrite length_transform_domain in Hc.
      - rewrite (test_func_OPS_found _ _ _ _ _ _ _ _ Hf) in Hrun.
        cbv zeta in Hrun.
        apply timed_run_count in Hrun as (Hc & _ & Ht & _).
        by rewrite length_transform_domain in Hc. }
    rewrite Htime.
    split; [by apply elapsed_nonnegative|].
    split; [by apply elapsed_positive_iff|].
    intros Hlt Hn HR Hsmall. unfold Mevals. rewrite Hcount, Htime. simpl.
    eexists. split; [done|].
    apply throughput_positive; [|by apply elapsed_positive].
    rewrite size_t_mul_small by lia. lia.
  - intros VAL_T HV HC HI HA name library_prefix params vals_in Nrepeat w br w'
      Hrun Hst Hft Hsec Hle.
    assert (n_evals br
            = Some (size_t_mul (Z.of_nat (length vals_in)) (Z.of_nat Nrepeat))
            ∧ eval_time br
              = get_wtime_diff (clock w (ticks w)) (clock w (S (ticks w))))
      as [Hcount Htime].
    { destruct Hrun as [(funs & f & Hf & Hrun)|(funs & OP & Hf & Hrun)].
      - rewrite (test_func_found _ _ _ _ _ _ _ _ Hf) in Hrun. cbv zeta in Hrun.
        apply timed_run_count in Hrun as (Hc & _ & Ht & _).
        by rewrite length_transform_domain in Hc.
      - rewrite (test_func_OPS_found _ _ _ _ _ _ _ _ Hf) in Hrun.
        cbv zeta in Hrun.
        apply timed_run_count in Hrun as (Hc & _ & Ht & _).
        by rewrite length_transform_domain in Hc. }
    destruct (elapsed_time_double _ _ Hst Hft Hsec Hle)
      as (t & Ht & Hnn & Hiff & Hthroughput).
    rewrite Htime. exists t. split; [exact Ht|]. split; [exact Hnn|].
    split; [exact Hiff|].
    intros Hlt Hn HR Hsmall. unfold Mevals. rewrite Hcount, Htime.
    cbn [option_bind mbind option_fmap fmap].
    rewrite size_t_mul_small by lia.
    destruct (Hthroughput Hlt (Z.of_nat (length vals_in) * Z.of_nat Nrepeat)%Z
                ltac:(lia)) as (q & Hq & Hpos).
    eexists _, q. split; [reflexivity|]. split; [exact Hq | exact Hpos].
Qed.

(** ** The domain table *)

Section DomainTable.
Context {F D : Type} `{!Arith D, !Libraries F D}.
Implicit Types (params : gmap string (Params D)) (keys : list string).

Lemma operator_index_Some params name par :
  params !! name = Some par → operator_index params name = (par, params).
Proof. intros H. unfold operator_index. by rewrite H. Qed.

Lemma operator_index_None params name :
  params !! name = None →
  operator_index params name
  = (Params_default, <[name := Params_default]> params).
Proof. intros H. unfold operator_index. by rewrite H. Qed.

(** Creating the approximants can only add default entries to the table. *)
Lemma create_baobzi_funs_lookup keys params name :
  (create_baobzi_funs keys params).2 !! name = params !! name
  ∨ (params !! name = None
     ∧ (create_baobzi_funs keys params).2 !! name = Some Params_default).
Proof.
  unfold create_baobzi_funs.
  generalize (∅ : gmap string (FUN_T D)) as baobzi_funs.
  revert params. induction keys as [|key keys IH]; intros params baobzi_funs.
  { by left. }
  cbn [foldl].
  destruct (potential_baobzi_funs !! key) as [infun|]; [|apply IH].
  destruct (params !! key) as [par|] eqn:Hkey.
  { rewrite (operator_index_Some _ _ _ Hkey). apply IH. }
  rewrite (operator_index_None _ _ Hkey).
  match goal with |- context [foldl _ (?b, ?p) keys] =>
    destruct (IH p b) as [H|[H1 H2]] end.
  - rewrite H. destruct (decide (key = name)) as [->|Hne].
    + right. by rewrite lookup_insert_eq.
    + left. by rewrite lookup_insert_ne.
  - right. split; [|done].
    destruct (decide (key = name)) as [->|Hne].
    + by rewrite lookup_insert_eq in H1.
    + by rewrite lookup_insert_ne in H1.
Qed.

(** The table that [test_func] receives: the initial one, or the one left
    by the creation of the approximants. *)
Lemma operator_index_default keys params name :
  params !! name = None →
  (operator_index params name).1 = Params_default
  ∧ (operator_index (create_baobzi_funs keys params).2 name).1 = Params_default.
Proof.
  intros Hnone. unfold operator_index. rewrite Hnone. split; [done|].
  destruct (create_baobzi_funs_lookup keys params name) as [H|[_ H]];
    rewrite H; [by rewrite Hnone | done].
Qed.
End DomainTable.

Section DefaultDomain.
Context {F D VAL_T : Type} `{!Arith D, !Arith VAL_T, !Cast D VAL_T}.
Context `{!Indeterminate VAL_T, !ArrayOps VAL_T, !Show D, !Show VAL_T}.
Context `{!Libraries F D}.
Implicit Types (table : gmap string (Params D)) (vals_in : list VAL_T).
Implicit Types (w : world D).

Lemma mapped_inputs_default keys table name vals_in :
  params_init (D := D) !! name = None →
  table = params_init ∨ table = (create_baobzi_funs keys params_init).2 →
  (operator_index table name).1 = Params_default
  ∧ mapped_inputs table name vals_in
    = transform_domain vals_in (vlit 0) (vlit 1).
Proof.
  intros Hnone Htable.
  destruct (operator_index_default (F := F) (D := D) keys params_init name
              Hnone) as [H1 H2].
  unfold mapped_inputs. destruct Htable as [-> | ->];
    rewrite ?H1, ?H2; done.
Qed.

(** The line printed for a non-empty result with the default domain whose
    buffer has been written, when the stream prints 0.0 as "0" and 1.0 as
    "1". *)
Lemma operator_lshift_default (resptr : list VAL_T) (t : D) label_ n :
  show 5 (vlit 0 : D) = "0" → show 5 (vlit 1 : D) = "1" → resptr ≠ [] →
  operator_lshift (Build_BenchResult resptr t label_ (Some n) Params_default
                                     true)
  = Some (setw_left 25 (label_ +:+ ": ")
          +:+ setw_left 15 (show 6 (vlit (inject_Z n) / t / vlit 1000000)%A)
          +:+ setw_left 15 (show 15 (mean resptr))
          +:+ setw_left 5 " " +:+ "[0, 1]" +:+ endl).
Proof.
  intros H0 H1 Hne. unfold operator_lshift, read_mean. cbn [res written].
  rewrite decide_False by (by intros [_ ?]). cbn [mbind option_bind].
  rewrite decide_True by (by destruct resptr). unfold Mevals.
  cbn -[show setw_left String.append endl vlit vdiv mean].
  by rewrite H0, H1.
Qed.

Lemma default_domain_run label_ size n body R w br w' :
  0 < size →
  show 5 (vlit 0 : D) = "0" → show 5 (vlit 1 : D) = "1" →
  (∀ b, length b = size → ∃ out, body b = Some out ∧ length out = size) →
  timed_run (VAL_T := VAL_T) label_ Params_default size n body R w
  = Some (br, w') →
  domain (params br) = (vlit 0, vlit 1)
  ∧ ∃ mevals,
      Mevals br = Some mevals
      ∧ (1 ≤ R →
         operator_lshift br
         = Some (setw_left 25 (label br +:+ ": ")
                 +:+ setw_left 15 (show 6 mevals)
                 +:+ setw_left 15 (show 15 (mean (res br)))
                 +:+ setw_left 5 " " +:+ "[0, 1]" +:+ endl)).
Proof.
  intros Hsize H0 H1 Hbody Hrun.
  destruct (timed_run_in_place label_ Params_default size n body R w Hbody)
    as (resptr & Hlen & Hrun').
  rewrite Hrun' in Hrun. injection Hrun as <- <-.
  split; [done|]. eexists. split; [done|]. intros HR.
  assert (resptr ≠ []) as Hne by (intros ->; simpl in Hlen; lia).
  rewrite bool_decide_true by lia.
  exact (operator_lshift_default resptr _ label_ _ H0 H1 Hne).
Qed.
End DefaultDomain.

(** C10.  The names "sinh", "tanh", "sqrt" and "lgamma" have no entry in
    the domain table.  For every name without an entry, and for the table
    as [main] initialises it or as the creation of the approximants leaves
    it, [test_func] (either overload) uses the default domain (0.0, 1.0):
    the inputs it evaluates are the sample mapped with that domain, which
    in exact arithmetic is the sample itself, and in double precision the
    sample with every entry unchanged (a zero with a positive sign); the
    result carries the domain (0, 1), and for a non-empty sample that has
    been evaluated (one repeat or more; with none the buffer is never
    written and printing it is undefined) the line printed ends with
    "[0, 1]" where the stream prints 0.0 as "0" and 1.0 as "1". *)
Theorem unlisted_name_uses_default_domain :
  (∀ (D : Type) (HD : Arith D),
     Forall (λ name, params_init (D := D) !! name = None)
            ["sinh"; "tanh"; "sqrt"; "lgamma"])
  ∧ (∀ (F D VAL_T : Type) (HD : Arith D) (HV : Arith VAL_T)
       (HC : Cast D VAL_T) (HI : Indeterminate VAL_T) (HA : ArrayOps VAL_T)
       (HSD : Show D) (HSV : Show VAL_T) (HL : Libraries F D)
       (name library_prefix : string) (keys : list string)
       (table : gmap string (Params D)) (vals_in : list VAL_T)
       (Nrepeat : nat) (w : world D),
       params_init (D := D) !! name = None →
       table = params_init ∨ table = (create_baobzi_funs keys params_init).2 →
       show 5 (vlit 0 : D) = "0" → show 5 (vlit 1 : D) = "1" →
       vals_in ≠ [] →
       mapped_inputs table name vals_in
       = transform_domain vals_in (vlit 0) (vlit 1)
       ∧ (∀ (funs : gmap string (FUN_T VAL_T)) f, funs !! name = Some f →
            in_place f (transform_domain vals_in (vlit 0) (vlit 1)) →
            ∃ br w' mevals,
              test_func name library_prefix funs table vals_in Nrepeat w
              = Some (br, w')
              ∧ domain (params br) = (vlit 0, vlit 1)
              ∧ Mevals br = Some mevals
              ∧ (1 ≤ Nrepeat →
                 operator_lshift br
                 = Some (setw_left 25 (label br +:+ ": ")
                         +:+ setw_left 15 (show 6 mevals)
                         +:+ setw_left 15 (show 15 (mean (res br)))
                         +:+ setw_left 5 " " +:+ "[0, 1]" +:+ endl)))
       ∧ (∀ (funs : gmap string OPS) OP, funs !! name = Some OP →
            ∃ br w' mevals,
              test_func_OPS name library_prefix funs table vals_in Nrepeat w
              = Some (br, w')
              ∧ domain (params br) = (vlit 0, vlit 1)
              ∧ Mevals br = Some mevals
              ∧ (1 ≤ Nrepeat →
                 operator_lshift br
                 = Some (setw_left 25 (label br +:+ ": ")
                         +:+ setw_left 15 (show 6 mevals)
                         +:+ setw_left 15 (show 15 (mean (res br)))
                         +:+ setw_left 5 " " +:+ "[0, 1]" +:+ endl))))
  ∧ (∀ (F : Type) (HL : Libraries F Qc) (name : string) (keys : list string)
       (table : gmap string (Params Qc)) (vals_in : list Qc),
       params_init (D := Qc) !! name = None →
       table = params_init ∨ table = (create_baobzi_funs keys params_init).2 →
       mapped_inputs table name vals_in = vals_in)
  ∧ (∀ (F : Type) (HL : Libraries F IEEE.double) (name : string)
       (keys : list string) (table : gmap string (Params IEEE.double))
       (vals_in : list IEEE.double),
       params_init (D := IEEE.double) !! name = None →
       table = params_init ∨ table = (create_baobzi_funs keys params_init).2 →
       Forall IEEE.valid_double vals_in →
       Forall2 (λ v w, same_number (IEEE.dbits v) (IEEE.dbits w))
               vals_in (mapped_inputs table name vals_in)).
Proof.
  split; [|split; [|split]].
  - intros D HD. repeat constructor.
  - intros F D VAL_T HD HV HC HI HA HSD HSV HL name library_prefix keys table
      vals_in Nrepeat w Hnone Htable H0 H1 Hne.
    destruct (mapped_inputs_default keys table name vals_in Hnone Htable)
      as [Hpar Hmapped].
    split; [done|]. split.
    + intros funs f Hf Hin.
      rewrite (test_func_found _ _ _ _ _ _ _ _ Hf). cbv zeta.
      fold (mapped_inputs table name vals_in). rewrite Hpar, Hmapped.
      set (vals := transform_domain vals_in (vlit 0) (vlit 1)) in *.
      assert (∀ b, length b = res_size f (length vals) →
                ∃ out, evaluate f vals b = Some out
                       ∧ length out = res_size f (length vals)) as Hbody.
      { intros b Hb. destruct (Hin b Hb) as (out & ? & ?). exists out.
        split; [done | congruence]. }
      destruct (timed_run_in_place (library_prefix +:+ "_" +:+ name)
                  Params_default (res_size f (length vals)) (length vals)
                  (evaluate f vals) Nrepeat w Hbody)
        as (resptr & Hlen & Hrun).
      rewrite Hrun. do 2 eexists.
      assert (0 < res_size f (length vals)) as Hsize.
      { unfold vals. rewrite length_transform_domain.
        destruct vals_in; [done|]. destruct f; simpl; lia. }
      destruct (default_domain_run _ _ _ _ _ _ _ _ Hsize H0 H1 Hbody Hrun)
        as (Hdom & mevals & HM & Hline).
      exists mevals. done.
    + intros funs OP Hf.
      rewrite (test_func_OPS_found _ _ _ _ _ _ _ _ Hf). cbv zeta.
      fold (mapped_inputs table name vals_in). rewrite Hpar, Hmapped.
      set (x := transform_domain vals_in (vlit 0) (vlit 1)) in *.
      assert (∀ b : list VAL_T, length b = length x →
                ∃ out, Some (array_op OP <$> x) = Some out
                       ∧ length out = length x) as Hbody.
      { intros b Hb. eexists. split; [done|]. by rewrite length_fmap. }
      destruct (timed_run_in_place (library_prefix +:+ "_" +:+ name)
                  Params_default (length x) (length x)
                  (λ _, Some (array_op OP <$> x)) Nrepeat w Hbody)
        as (resptr & Hlen & Hrun).
      rewrite Hrun. do 2 eexists.
      assert (0 < length x) as Hsize.
      { unfold x. rewrite length_transform_domain.
        destruct vals_in; [done|]. simpl; lia. }
      destruct (default_domain_run _ _ _ _ _ _ _ _ Hsize H0 H1 Hbody Hrun)
        as (Hdom & mevals & HM & Hline).
      exists mevals. done.
  - intros F HL name keys table vals_in Hnone Htable.
    destruct (mapped_inputs_default keys table name vals_in Hnone Htable)
      as [_ ->].
    apply transform_domain_unit_exact.
  - intros F HL name keys table vals_in Hnone Htable Hvalid.
    destruct (mapped_inputs_default keys table name vals_in Hnone Htable)
      as [_ ->].
    by apply transform_domain_unit_double.
Qed.

(** ** The dispatcher *)

Lemma parse_args_spec (args : list string) :
  parse_args (Z.of_nat (length args)) args = Some (list_to_set args).
Proof.
  unfold parse_args. rewrite Nat2Z.id.
  destruct (for_loop_count
              (λ j (res : gset string), res = list_to_set (take j args))
              (length args)
              (λ i res, arg ← args !! i; Some ({[arg]} ∪ res)) ∅)
    as (res & -> & ->).
  - done.
  - intros j res Hj ->.
    destruct (lookup_lt_is_Some_2 args j Hj) as [arg Harg].
    rewrite Harg. simpl. eexists; split; [done|].
    rewrite (take_S_r _ _ _ Harg), list_to_set_app_L. simpl. set_solver.
  - by rewrite take_ge.
Qed.

(** The tokens that [main] passes to [parse_args]: [argv] without the
    program name. *)
Lemma parse_args_main (argv : list string) :
  parse_args (Z.of_nat (length argv) - 1) (drop 1 argv)
  = Some (list_to_set (drop 1 argv)).
Proof.
  destruct argv as [|prog args]; [done|].
  rewrite <-parse_args_spec. simpl drop. rewrite drop_0. f_equal.
  simpl length. lia.
Qed.

Lemma insert_keys_dom {V} (funs : gmap string V) (fun_union : gset string) :
  insert_keys funs fun_union = dom funs ∪ fun_union.
Proof.
  unfold insert_keys.
  apply (map_fold_weak_ind (λ acc m, acc = dom m ∪ fun_union)).
  - rewrite dom_empty_L. set_solver.
  - intros k v m acc Hk ->. rewrite dom_insert_L. set_solver.
Qed.

Lemma union_list_middle (l1 l2 : list (gset string)) (X : gset string) :
  ⋃ (l1 ++ [X] ++ l2) = ⋃ (l1 ++ l2) ∪ X.
Proof. rewrite !union_list_app_L. simpl. set_solver. Qed.

(** A loop that can only add the key it visits to a map. *)
Lemma foldl_dom_bound {A P} (step : gmap string A * P → string → gmap string A * P)
    (keys : list string) (b : gmap string A) (p : P) :
  (∀ b p key, dom (step (b, p) key).1 ⊆ {[key]} ∪ dom b) →
  dom (foldl step (b, p) keys).1 ⊆ dom b ∪ list_to_set keys.
Proof.
  intros Hstep. revert b p.
  induction keys as [|key keys IH]; intros b p; [set_solver|].
  cbn [foldl]. destruct (step (b, p) key) as [b' p'] eqn:E.
  specialize (Hstep b p key). rewrite E in Hstep. simpl in Hstep.
  specialize (IH b' p'). set_solver.
Qed.

Section DispatcherProperties.
Context {F D : Type} `{!Arith F, !Arith D, !Cast D F, !Cast D D}.
Context `{!Indeterminate F, !Indeterminate D, !Indeterminate (complex D)}.
Context `{!ArrayOps F, !ArrayOps D, !Show F, !Show D, !Show (complex D)}.
Context `{!Libraries F D}.

(** The loops that fill [fun_union] leave out [af_funs_fx8],
    [sctl_funs_fx8] and (with AVX-512) [af_funs_fx16] and
    [sctl_funs_fx16]; their keys are those of their double-precision
    siblings, so that nothing is missing. *)
Lemma fun_union_static (AVX512F : bool) :
  ⋃ (backend_keys <$> backends_before AVX512F ++ backends_after AVX512F)
  = fun_union AVX512F.
Proof.
  destruct AVX512F; apply (bool_decide_unpack _); vm_compute; reflexivity.
Qed.

Lemma create_baobzi_funs_dom keys (params : gmap string (Params D)) :
  dom (create_baobzi_funs keys params).1 ⊆ list_to_set keys.
Proof.
  unfold create_baobzi_funs.
  etrans; [apply foldl_dom_bound|].
  - intros b p key. destruct (potential_baobzi_funs !! key) as [infun|].
    + destruct (operator_index p key) as [par p']. cbn [fst].
      rewrite dom_insert_L. done.
    + cbn [fst]. apply union_subseteq_r.
  - rewrite dom_empty_L. apply union_least; [apply empty_subseteq | done].
Qed.

Lemma keys_to_eval_subseteq (AVX512F : bool) (input_keys : gset string) :
  keys_to_eval AVX512F input_keys ⊆ fun_union AVX512F.
Proof. unfold keys_to_eval. case_decide; set_solver. Qed.

(** The union of the key sets of all the backends is [fun_union]: the
    approximants are created for requested keys only. *)
Lemma union_backend_key_sets (AVX512F : bool) (input_keys : gset string)
    (params : gmap string (Params D)) :
  ⋃ backend_key_sets AVX512F
      (create_baobzi_funs (elements (keys_to_eval AVX512F input_keys)) params).1
  = fun_union AVX512F.
Proof.
  unfold backend_key_sets, backends.
  rewrite !fmap_app, list_fmap_singleton, union_list_middle.
  rewrite <-fmap_app, fun_union_static. cbn [backend_keys].
  pose proof (create_baobzi_funs_dom
                (elements (keys_to_eval AVX512F input_keys)) params) as Hdom.
  rewrite list_to_set_elements_L in Hdom.
  pose proof (keys_to_eval_subseteq AVX512F input_keys). set_solver.
Qed.
End DispatcherProperties.

(** C1.  [main] passes the tokens after the program name to [parse_args],
    which returns them as a set, whatever they are.  The requested set
    [keys_to_eval] is the union of the key sets of all the backends when
    there is no token, and that union intersected with the set of tokens
    when there is one or more; a token that names no known function is not
    in the requested set. *)
Theorem requested_set_is_filtered_union {F D : Type}
    `{!Arith F, !Arith D, !Cast D F, !Cast D D}
    `{!Indeterminate F, !Indeterminate D, !Indeterminate (complex D)}
    `{!ArrayOps F, !ArrayOps D, !Show F, !Show D, !Show (complex D)}
    `{!Libraries F D} (AVX512F : bool) (argv : list string) :
  ∃ input_keys,
    parse_args (Z.of_nat (length argv) - 1) (drop 1 argv) = Some input_keys
    ∧ input_keys = list_to_set (drop 1 argv)
    ∧ ∀ baobzi_funs union,
        baobzi_funs
        = (create_baobzi_funs (elements (keys_to_eval AVX512F input_keys))
                              params_init).1 →
        union = ⋃ backend_key_sets AVX512F baobzi_funs →
        (drop 1 argv = [] → keys_to_eval AVX512F input_keys = union)
        ∧ (drop 1 argv ≠ [] →
             keys_to_eval AVX512F input_keys = union ∩ input_keys)
        ∧ (∀ token, token ∈ input_keys → token ∉ union →
             token ∉ keys_to_eval AVX512F input_keys).
Proof.
  exists (list_to_set (drop 1 argv)).
  split; [apply parse_args_main|]. split; [done|].
  intros baobzi_funs union -> ->. rewrite union_backend_key_sets.
  unfold keys_to_eval. split; [|split].
  - intros ->. rewrite list_to_set_nil, decide_False; [done|].
    rewrite size_empty. lia.
  - intros Hne. rewrite decide_True; [done|].
    destruct (drop 1 argv) as [|token tokens]; [done|].
    assert (size (list_to_set (C := gset string) (token :: tokens)) ≠ 0);
      [|lia].
    apply size_non_empty_iff. set_solver.
  - intros token _ Hunion. case_decide; set_solver.
Qed.

(** ** The canonical sample *)

Section SampleProperties.
Context {F D : Type} `{!Arith F, !Arith D, !Cast D F, !Cast D D}.
Context `{!Indeterminate F, !Indeterminate D, !Indeterminate (complex D)}.
Context `{!ArrayOps F, !ArrayOps D, !Show F, !Show D, !Show (complex D)}.
Context `{!Libraries F D}.
Implicit Types (w : world D) (params : gmap string (Params D)).

Lemma draw_samples_spec (n_eval : Z) w :
  draw_samples n_eval w
  = Some (samples_at (F := F) (rand w) (drawn w) (Z.to_nat n_eval),
          World (clock w) (ticks w) (rand w) (drawn w + 3 * Z.to_nat n_eval)).
Proof.
  unfold draw_samples, samples_at, Random, Random_cdouble,
    mbind, M_bind, mret, M_ret. simpl.
  do 3 f_equal. lia.
Qed.

Lemma same_generator_refl w : same_generator w w.
Proof. done. Qed.

Lemma same_generator_trans w1 w2 w3 :
  same_generator w1 w2 → same_generator w2 w3 → same_generator w1 w3.
Proof. unfold same_generator. intros (-> & -> & ->) (-> & -> & ->). done. Qed.

Lemma test_func_same_generator {VAL_T} `{!Arith VAL_T, !Cast D VAL_T}
    `{!Indeterminate VAL_T} name library_prefix
    (funs : gmap string (FUN_T VAL_T)) params vals_in Nrepeat w br w' :
  test_func name library_prefix funs params vals_in Nrepeat w = Some (br, w') →
  same_generator w w'.
Proof.
  unfold test_func. destruct (funs !! name) as [f|].
  - unfold mbind, M_bind, get_wtime, lift_option, mret, M_ret.
    destruct (for_loop _ _ _ _ _ _); [|done]. by intros [= <- <-].
  - by intros [= <- <-].
Qed.

Lemma test_func_OPS_same_generator {VAL_T} `{!Arith VAL_T, !Cast D VAL_T}
    `{!Indeterminate VAL_T, !ArrayOps VAL_T} name library_prefix
    (funs : gmap string OPS) params vals_in Nrepeat w br w' :
  test_func_OPS name library_prefix funs params vals_in Nrepeat w = Some (br, w') →
  same_generator w w'.
Proof.
  unfold test_func_OPS. destruct (funs !! name) as [f|].
  - unfold mbind, M_bind, get_wtime, lift_option, mret, M_ret.
    destruct (for_loop _ _ _ _ _ _); [|done]. by intros [= <- <-].
  - by intros [= <- <-].
Qed.

Lemma report_keeps_generator {VAL_T} `{!Arith VAL_T, !Show VAL_T}
    (call : M D (BenchResult D VAL_T)) :
  (∀ w br w', call w = Some (br, w') → same_generator w w') →
  keeps_generator (report call).
Proof.
  intros Hcall w out w'. unfold report, mbind, M_bind, lift_option.
  destruct (call w) as [[br w1]|] eqn:E; [|done].
  destruct (operator_lshift br); [|done].
  intros [= <- <-]. by eapply Hcall.
Qed.

Lemma sequence_keeps_generator (stmts : list (M D string)) :
  Forall keeps_generator stmts → keeps_generator (sequence stmts).
Proof.
  induction 1 as [|stmt stmts Hstmt _ IH]; intros w out w'; simpl.
  - by intros [= <- <-].
  - unfold mbind, M_bind, mret, M_ret.
    destruct (stmt w) as [[o1 w1]|] eqn:E1; [|done].
    destruct (sequence stmts w1) as [[o2 w2]|] eqn:E2; [|done].
    intros [= <- <-].
    eapply same_generator_trans; [by eapply Hstmt | by eapply IH].
Qed.

Lemma sweep_keeps_generator (AVX512F : bool) baobzi_funs params
    (s : samples (F := F)) n_repeat key :
  keeps_generator (sweep AVX512F baobzi_funs params s n_repeat key).
Proof.
  destruct s as [vals fvals cvals]. unfold sweep.
  apply sequence_keeps_generator.
  destruct AVX512F; simpl;
    repeat (apply Forall_cons; split;
            [first [ apply report_keeps_generator; intros ???;
                     first [ apply test_func_same_generator
                           | apply test_func_OPS_same_generator ]
                   | by intros ??? [= <- <-] ]
            |]);
    apply Forall_nil_2.
Qed.

Lemma run_set_body_spec (AVX512F : bool) baobzi_funs params keys
    (n_eval n_repeat : Z) w s out w' :
  run_set_body AVX512F baobzi_funs params keys (n_eval, n_repeat) w
  = Some ((s, out), w') →
  s = samples_at (rand w) (drawn w) (Z.to_nat n_eval)
  ∧ rand w' = rand w
  ∧ drawn w' = drawn w + 3 * Z.to_nat n_eval
  ∧ clock w' = clock w
  ∧ ∃ w1,
      draw_samples n_eval w = Some (s, w1)
      ∧ sequence (sweep AVX512F baobzi_funs params s (Z.to_nat n_repeat) <$> keys)
                 w1
        = Some (out, w').
Proof.
  unfold run_set_body. unfold mbind at 1, M_bind at 1.
  rewrite draw_samples_spec.
  set (s1 := samples_at _ _ _). set (w1 := World _ _ _ _).
  unfold mbind, M_bind, mret, M_ret.
  destruct (sequence _ w1) as [[out1 w2]|] eqn:Hseq; [|done].
  intros [= <- <- <-].
  destruct (sequence_keeps_generator
              (sweep AVX512F baobzi_funs params s1 (Z.to_nat n_repeat) <$> keys))
    with (w := w1) (out := out1) (w' := w2) as (Hr & Hd & Hc); [|done|].
  { apply Forall_fmap, Forall_forall. intros key _.
    apply sweep_keeps_generator. }
  rewrite Hr, Hd, Hc. simpl. repeat split; try done.
  by exists w1.
Qed.
End SampleProperties.

Section RunProperties.
Context {F D : Type} `{!Arith F, !Arith D, !Cast D F, !Cast D D}.
Context `{!Indeterminate F, !Indeterminate D, !Indeterminate (complex D)}.
Context `{!ArrayOps F, !ArrayOps D, !Show F, !Show D, !Show (complex D)}.
Context `{!Libraries F D}.
Implicit Types (w : world D) (params : gmap string (Params D)).

(** The sweep for a key probes every backend with the samples of the
    configuration: the float backends with [fvals], the double backends
    with [vals], the complex backends with [cvals]. *)
Lemma sweep_probes (AVX512F : bool) baobzi_funs params (s : samples (F := F))
    n_repeat key :
  sweep AVX512F baobzi_funs params s n_repeat key
  = sequence ((probe params s n_repeat key <$> backends AVX512F baobzi_funs)
              ++ [mret endl]).
Proof. destruct s, AVX512F; reflexivity. Qed.

Lemma sweeps_probes (AVX512F : bool) baobzi_funs params (s : samples (F := F))
    n_repeat (keys : list string) :
  sweep AVX512F baobzi_funs params s n_repeat <$> keys
  = (λ key, sequence ((probe params s n_repeat key
                         <$> backends AVX512F baobzi_funs) ++ [mret endl]))
      <$> keys.
Proof. apply list_fmap_ext. intros i key _. apply sweep_probes. Qed.

(** Statements that do the same in every world can be exchanged in a
    sequence. *)
Lemma sequence_ext (stmts stmts' : list (M D string)) w :
  Forall2 (λ stmt stmt', ∀ w, stmt w = stmt' w) stmts stmts' →
  sequence stmts w = sequence stmts' w.
Proof.
  intros H. revert w. induction H as [|stmt stmt' stmts stmts' H _ IH];
    intros w; [done|].
  simpl. unfold mbind, M_bind. rewrite H.
  destruct (stmt' w) as [[out w1]|]; [|done]. by rewrite IH.
Qed.

(** [std::cout << test_func(...)] is the report of the timed run of the
    adapter on the mapped inputs. *)
Lemma report_test_func_on_mapped_inputs {VAL_T} `{!Arith VAL_T, !Cast D VAL_T}
    `{!Indeterminate VAL_T, !Show VAL_T} key library_prefix
    (funs : gmap string (FUN_T VAL_T)) params (vals_in : list VAL_T) R w :
  report (test_func key library_prefix funs params vals_in R) w
  = report_run library_prefix key (operator_index params key).1 funs
               (mapped_inputs params key vals_in) R w.
Proof.
  unfold report, report_run, mbind, M_bind.
  destruct (funs !! key) as [f|] eqn:Hf.
  - by rewrite (test_func_found _ _ _ _ _ _ _ _ Hf).
  - unfold test_func. by rewrite Hf.
Qed.

Lemma report_test_func_OPS_on_mapped_inputs {VAL_T}
    `{!Arith VAL_T, !Cast D VAL_T}
    `{!Indeterminate VAL_T, !ArrayOps VAL_T, !Show VAL_T} key library_prefix
    (funs : gmap string OPS) params (vals_in : list VAL_T) R w :
  report (test_func_OPS key library_prefix funs params vals_in R) w
  = report_run_OPS library_prefix key (operator_index params key).1 funs
                   (mapped_inputs params key vals_in) R w.
Proof.
  unfold report, report_run_OPS, mbind, M_bind.
  destruct (funs !! key) as [OP|] eqn:Hf.
  - by rewrite (test_func_OPS_found _ _ _ _ _ _ _ _ Hf).
  - unfold test_func_OPS. by rewrite Hf.
Qed.

(** The sweeps of a configuration run every backend, for every key, on the
    mapped inputs of its value type. *)
Lemma sweeps_on_mapped_inputs (AVX512F : bool) baobzi_funs params
    (s : samples (F := F)) n_repeat (keys : list string) w :
  sequence (sweep AVX512F baobzi_funs params s n_repeat <$> keys) w
  = sequence (sweep_on_mapped_inputs AVX512F baobzi_funs params s n_repeat
                <$> keys) w.
Proof.
  apply sequence_ext, Forall2_fmap, Forall_Forall2_diag, Forall_forall.
  intros key _ w1. rewrite sweep_probes. unfold sweep_on_mapped_inputs.
  apply sequence_ext, Forall2_app; [|by repeat constructor].
  apply Forall2_fmap, Forall_Forall2_diag, Forall_forall.
  intros b _ w2. destruct b; cbn [probe run_backend];
    first [ apply report_test_func_on_mapped_inputs
          | apply report_test_func_OPS_on_mapped_inputs ].
Qed.

(** A run is two configurations, one after the other. *)
Lemma main_spec (AVX512F : bool) (argv : list string) w ss out status w' :
  main AVX512F (Z.of_nat (length argv)) argv w = Some ((ss, out, status), w') →
  ∃ keys baobzi_funs params s1 out1 w1 s2 out2,
    keys = elements (keys_to_eval AVX512F (list_to_set (drop 1 argv)))
    ∧ (baobzi_funs, params) = create_baobzi_funs keys params_init
    ∧ run_set_body AVX512F baobzi_funs params keys (1024, 10000)%Z w
      = Some ((s1, out1), w1)
    ∧ run_set_body AVX512F baobzi_funs params keys (10240000, 1)%Z w1
      = Some ((s2, out2), w')
    ∧ ss = [s1; s2]
    ∧ out = out1 +:+ out2 +:+ EmptyString
    ∧ status = 0%Z.
Proof.
  unfold main. unfold mbind at 1, M_bind at 1.
  rewrite parse_args_main. unfold lift_option.
  destruct (create_baobzi_funs _ _) as [baobzi_funs params] eqn:Hcreate.
  unfold run_sets. cbn [for_run_sets].
  unfold mbind, M_bind, mret, M_ret.
  destruct (run_set_body _ _ _ _ (1024, 10000)%Z w) as [[[s1 out1] w1]|] eqn:E1;
    [|done].
  destruct (run_set_body _ _ _ _ (10240000, 1)%Z w1) as [[[s2 out2] w2]|] eqn:E2;
    [|done].
  intros [= <- <- <- <-].
  exists (elements (keys_to_eval AVX512F (list_to_set (drop 1 argv)))),
    baobzi_funs, params, s1, out1, w1, s2, out2.
  by rewrite Hcreate.
Qed.
End RunProperties.

(** *** The entries of the samples, in exact arithmetic *)

Lemma canonical_in_range (x : Qc) :
  (-1 ≤ x)%Qc → (x ≤ 1)%Qc →
  (0 ≤ vlit (5 # 10) * (x + vlit 1))%Qc ∧ (vlit (5 # 10) * (x + vlit 1) ≤ 1)%Qc.
Proof. intros H1 H2. qc_to_q. split; lra. Qed.

Lemma length_samples_at {F D} `{!Arith D, !Cast D F} (rand : nat → D) d n :
  length (vals (samples_at (F := F) rand d n)) = n
  ∧ length (fvals (samples_at (F := F) rand d n)) = n
  ∧ length (cvals (samples_at (F := F) rand d n)) = n.
Proof. simpl. by rewrite !length_fmap, !length_seq. Qed.

Section ExactSamples.
Context {F : Type} `{!Cast Qc F}.

Lemma samples_at_in_range (rand : nat → Qc) d n :
  (∀ i, (-1 ≤ rand i)%Qc ∧ (rand i ≤ 1)%Qc) →
  Forall (λ v, (0 ≤ v)%Qc ∧ (v ≤ 1)%Qc) (vals (samples_at (F := F) rand d n))
  ∧ fvals (samples_at (F := F) rand d n)
    = cast <$> vals (samples_at (F := F) rand d n)
  ∧ Forall (λ z, ((0 ≤ re z)%Qc ∧ (re z ≤ 1)%Qc)
                 ∧ ((0 ≤ im z)%Qc ∧ (im z ≤ 1)%Qc))
           (cvals (samples_at (F := F) rand d n)).
Proof.
  intros Hrand. cbn [vals fvals cvals samples_at]. split; [|split; [done|]].
  - apply Forall_fmap, Forall_fmap, Forall_forall. intros i _.
    apply canonical_in_range; apply Hrand.
  - apply Forall_fmap, Forall_fmap, Forall_forall. intros i _.
    cbn [re im]. split; apply canonical_in_range; apply Hrand.
Qed.
End ExactSamples.


(** *** The canonical sample in double precision *)

Lemma SF_between_rounded prec emax r :
  rounded prec emax false r → (SFabs_Q r <= 1)%Q → SF_between 0 1 r.
Proof.
  intros Hr Hle. destruct (to_Q_rounded _ _ _ _ Hr) as (q & Hq & Hv).
  exists q. split; [done|]. rewrite Hv. split; [|done].
  destruct Hr as [->|(m & e & -> & _)]; [done|].
  apply Qlt_le_weak, F2Q_pos. lia.
Qed.

Lemma of_Q_one : IEEE.of_Q 53 1024 1 = S754_finite false 4503599627370496 (-52).
Proof. vm_compute. reflexivity. Qed.

Lemma of_Q_half :
  IEEE.of_Q 53 1024 (5 # 10) = S754_finite false 4503599627370496 (-53).
Proof. vm_compute. reflexivity. Qed.

Lemma F2Q_one_64 : (F2Q 4503599627370496 (-52) == 1)%Q.
Proof. reflexivity. Qed.

Lemma F2Q_half_64 : (F2Q 4503599627370496 (-53) == 1 # 2)%Q.
Proof. reflexivity. Qed.

(** [0.5 * (x + 1.0)] in double precision, for [x] in [[-1, 1]]. *)
Lemma canonical_in_range_double (x : spec_float) :
  SF_between (-1) 1 x →
  SF_between 0 1
    (SFmul 53 1024 (IEEE.of_Q 53 1024 (5 # 10))
       (SFadd 53 1024 x (IEEE.of_Q 53 1024 1))).
Proof.
  intros (q & Hq & Hlo & Hhi). rewrite of_Q_one, of_Q_half.
  assert (SF_between 0 1
            (SFmul 53 1024 (S754_finite false 4503599627370496 (-53))
                           (S754_zero false))) as Hzero.
  { exists 0%Q. split; [done|]. split; lra. }
  assert (∀ y, rounded 53 1024 false y → (SFabs_Q y <= pow2 1)%Q →
            SF_between 0 1
              (SFmul 53 1024 (S754_finite false 4503599627370496 (-53)) y))
    as Hhalf.
  { intros y [->|(m & e & -> & He & Hm)] Hy; [done|]. cbn [SFabs_Q] in Hy.
    destruct (SFmul_bounded 53 1024 ltac:(lia) ltac:(lia)
                false 4503599627370496 (-53) false m e 0) as (H1 & H2 & _).
    - rewrite F2Q_half_64, pow2_0.
      change (pow2 1) with 2%Q in Hy. lra.
    - unfold emin. lia.
    - lia.
    - by apply (SF_between_rounded 53 1024). }
  pose proof (to_Q_SF2Q _ _ Hq) as Hv.
  destruct x as [s|s| |s m e]; try done.
  - (* x is zero: the sum is 1.0 *)
    apply Hhalf.
    + right. exists 4503599627370496%positive, (-52)%Z. by vm_compute.
    + cbn [SFadd SFabs_Q]. rewrite F2Q_one_64. by vm_compute.
  - assert (SF2Q (S754_finite false 4503599627370496 (-52)) == 1)%Q as Hone
      by reflexivity.
    destruct (Qlt_le_dec 0 (SF2Q (S754_finite s m e)
                            + SF2Q (S754_finite false 4503599627370496 (-52))))
      as [Hpos|Hnonpos].
    + destruct (SFadd_positive 53 1024 ltac:(lia) ltac:(lia)
                  s m e false 4503599627370496 (-52) 1) as (H1 & H2 & _).
      * done.
      * rewrite Hone, <-Hv. change (pow2 1) with 2%Q. lra.
      * unfold emin. lia.
      * lia.
      * by apply Hhalf.
    + rewrite SFadd_cancel; [done|]. rewrite Hone in *. lra.
Qed.

(** The conversion to single precision stays in [[0, 1]]. *)
Lemma convert_in_range_float (x : spec_float) :
  SF_between 0 1 x → SF_between 0 1 (IEEE.convert 24 128 x).
Proof.
  intros (q & Hq & Hlo & Hhi). pose proof (to_Q_SF2Q _ _ Hq) as Hv.
  destruct x as [s|s| |s m e]; try done.
  - by exists q.
  - cbn [SF2Q] in Hv. rewrite F2Q_cond_Zopp in Hv.
    pose proof (F2Q_pos (Zpos m) e ltac:(lia)) as Hpos.
    destruct s; [lra|].
    pose proof (F2Q_ge_pow2 (Zpos m) e ltac:(lia)) as Hge.
    assert (e ≤ 0)%Z as He.
    { apply pow2_le_inv. rewrite pow2_0. lra. }
    destruct (convert_bounded 24 128 ltac:(lia) ltac:(lia) false m e 0)
      as [H1 H2].
    + rewrite pow2_0. lra.
    + unfold emin. lia.
    + lia.
    + apply (SF_between_rounded 24 128); [done|]. by rewrite <-pow2_0.
Qed.

(** *** The entries of the samples, in double precision *)

Lemma canonical_double (x : IEEE.double) :
  SF_between (-1) 1 (IEEE.dbits x) →
  SF_between 0 1 (IEEE.dbits (vlit (5 # 10) * (x + vlit 1))%A).
Proof. apply (canonical_in_range_double (IEEE.dbits x)). Qed.

Lemma samples_at_in_range_double (rand : nat → IEEE.double) d n :
  (∀ i, SF_between (-1) 1 (IEEE.dbits (rand i))) →
  Forall (λ v, SF_between 0 1 (IEEE.dbits v))
         (vals (samples_at (F := IEEE.float) rand d n))
  ∧ Forall (λ v, SF_between 0 1 (IEEE.fbits v))
           (fvals (samples_at (F := IEEE.float) rand d n))
  ∧ Forall (λ z, SF_between 0 1 (IEEE.dbits (re z))
                 ∧ SF_between 0 1 (IEEE.dbits (im z)))
           (cvals (samples_at (F := IEEE.float) rand d n)).
Proof.
  intros Hrand. cbn [vals fvals cvals samples_at]. split; [|split].
  - apply Forall_fmap, Forall_fmap, Forall_forall. intros i _.
    apply canonical_double, Hrand.
  - apply Forall_fmap, Forall_fmap, Forall_fmap, Forall_forall. intros i _.
    apply convert_in_range_float, canonical_double, Hrand.
  - apply Forall_fmap, Forall_fmap, Forall_forall. intros i _.
    cbn [re im]. split; apply canonical_double, Hrand.
Qed.

(** ** A run returns *)

Lemma table_lookup {V} (entry : string → V) (keys : list string) key v :
  table entry keys !! key = Some v → v = entry key.
Proof.
  unfold table. intros H%elem_of_list_to_map_2.
  apply list_elem_of_fmap in H as (k & [= -> ->] & _). done.
Qed.

Section Returns.
Context {F D : Type} `{!Arith F, !Arith D, !Cast D F, !Cast D D}.
Context `{!Indeterminate F, !Indeterminate D, !Indeterminate (complex D)}.
Context `{!ArrayOps F, !ArrayOps D, !Show F, !Show D, !Show (complex D)}.
Context `{!Libraries F D}.
Implicit Types (w : world D) (params : gmap string (Params D)).

Lemma operator_lshift_counted {VAL_T} `{!Arith VAL_T, !Show VAL_T}
    (br : BenchResult D VAL_T) :
  is_Some (n_evals br) → written br = true → is_Some (operator_lshift br).
Proof.
  intros [n Hn] Hw. unfold operator_lshift, read_mean, Mevals.
  rewrite Hn, Hw, decide_False by (by intros [_ ?]). simpl.
  by case_decide.
Qed.

Lemma report_test_func_returns {VAL_T} `{!Arith VAL_T, !Cast D VAL_T}
    `{!Indeterminate VAL_T, !Show VAL_T} key library_prefix
    (funs : gmap string (FUN_T VAL_T)) params vals_in n_repeat :
  safe_table (length vals_in) funs → 1 ≤ n_repeat →
  returns (report (test_func key library_prefix funs params vals_in n_repeat)).
Proof.
  intros Hsafe HR w. unfold report, mbind, M_bind.
  destruct (funs !! key) as [f|] eqn:Hf.
  - rewrite (test_func_found _ _ _ _ _ _ _ _ Hf). cbv zeta.
    set (vals := transform_domain _ _ _).
    destruct (timed_run_in_place (library_prefix +:+ "_" +:+ key)
                (operator_index params key).1
                (res_size f (length vals)) (length vals)
                (evaluate f vals) n_repeat w)
      as (resptr & _ & ->).
    { intros b Hb.
      destruct (Hsafe key f vals Hf (length_transform_domain _ _ _) b Hb)
        as (out & ? & ?).
      exists out. split; [done | congruence]. }
    unfold lift_option.
    destruct (operator_lshift_counted
                (Build_BenchResult resptr
                   (get_wtime_diff (clock w (ticks w)) (clock w (S (ticks w))))
                   (library_prefix +:+ "_" +:+ key)
                   (Some (size_t_mul (Z.of_nat (length vals)) (Z.of_nat n_repeat)))
                   (operator_index params key).1 (bool_decide (0 < n_repeat))))
      as [line ->]; [by eexists | by apply bool_decide_eq_true | by eexists].
  - unfold test_func. rewrite Hf. by eexists.
Qed.

Lemma report_test_func_OPS_returns {VAL_T} `{!Arith VAL_T, !Cast D VAL_T}
    `{!Indeterminate VAL_T, !ArrayOps VAL_T, !Show VAL_T} key library_prefix
    (funs : gmap string OPS) params vals_in n_repeat :
  1 ≤ n_repeat →
  returns (report (test_func_OPS key library_prefix funs params vals_in n_repeat)).
Proof.
  intros HR w. unfold report, mbind, M_bind.
  destruct (funs !! key) as [OP|] eqn:Hf.
  - rewrite (test_func_OPS_found _ _ _ _ _ _ _ _ Hf). cbv zeta.
    set (x := transform_domain _ _ _).
    destruct (timed_run_in_place (library_prefix +:+ "_" +:+ key)
                (operator_index params key).1 (length x) (length x)
                (λ _, Some (array_op OP <$> x)) n_repeat w)
      as (resptr & _ & ->).
    { intros b Hb. eexists. split; [done|]. by rewrite length_fmap. }
    unfold lift_option.
    destruct (operator_lshift_counted
                (Build_BenchResult resptr
                   (get_wtime_diff (clock w (ticks w)) (clock w (S (ticks w))))
                   (library_prefix +:+ "_" +:+ key)
                   (Some (size_t_mul (Z.of_nat (length x)) (Z.of_nat n_repeat)))
                   (operator_index params key).1 (bool_decide (0 < n_repeat))))
      as [line ->]; [by eexists | by apply bool_decide_eq_true | by eexists].
  - unfold test_func_OPS. rewrite Hf. by eexists.
Qed.

Lemma sequence_returns (stmts : list (M D string)) :
  Forall returns stmts → returns (sequence stmts).
Proof.
  induction 1 as [|stmt stmts Hstmt _ IH]; intros w; simpl; [by eexists|].
  unfold mbind, M_bind, mret, M_ret.
  destruct (Hstmt w) as [[o1 w1] ->]. destruct (IH w1) as [[o2 w2] ->].
  by eexists.
Qed.

(** *** The tables are safe *)

Lemma safe_scalar {VAL_T} n (g : string → VAL_T → VAL_T) keys :
  safe_table n (table (λ k, Multi (scalar_func_apply (g k))) keys).
Proof.
  intros key f vals ->%table_lookup _.
  apply pure_in_place, scalar_func_apply_pure.
Qed.

Lemma safe_vec {VAL_T} n W (g : string → list VAL_T → list VAL_T) keys :
  1 ≤ W → (W | n) → (∀ k, lanes W (g k)) →
  safe_table n (table (λ k, Multi (vec_func_apply W (g k))) keys).
Proof.
  intros HW Hn Hg key f vals ->%table_lookup <-.
  by apply pure_in_place, vec_func_apply_pure.
Qed.

Lemma safe_pair {VAL_T} n (g : VAL_T → VAL_T * VAL_T) keys :
  safe_table n (table (λ _, PairOut g) keys).
Proof.
  intros key f vals ->%table_lookup _. apply pure_in_place, PairOut_pure.
Qed.

Lemma safe_baobzi n keys params :
  well_behaved → safe_table n (create_baobzi_funs keys params).1.
Proof.
  intros (_ & _ & Hbaobzi). unfold create_baobzi_funs.
  assert (∀ b p, safe_table n b →
            safe_table n
              (foldl (λ '(baobzi_funs, params) key,
                 match potential_baobzi_funs !! key with
                 | Some infun =>
                     let '(par, params) := operator_index params key in
                     (<[key := create_baobzi_func infun (domain par)]> baobzi_funs,
                      params)
                 | None => (baobzi_funs, params)
                 end) (b, p) keys).1) as H.
  { induction keys as [|key keys IH]; intros b p Hb; [done|].
    cbn [foldl]. destruct (potential_baobzi_funs !! key) as [infun|];
      [|by apply IH].
    destruct (operator_index p key) as [par p']. apply IH.
    intros k f vals Hf Hvals.
    destruct (decide (key = k)) as [->|Hne].
    - rewrite lookup_insert_eq in Hf. injection Hf as <-.
      intros resptr Hlen. cbn [evaluate res_size] in *. by apply Hbaobzi.
    - rewrite lookup_insert_ne in Hf by done. by eapply Hb. }
  apply H. intros k f vals Hf. by rewrite lookup_empty in Hf.
Qed.

(** The sweep for a key returns when the count of inputs is a multiple of
    every lane width and there is one repeat or more. *)
Lemma sweep_returns (AVX512F : bool) keys params0 params (s : samples (F := F))
    n n_repeat key :
  well_behaved → (16 | n) → 1 ≤ n_repeat →
  length (vals s) = n → length (fvals s) = n → length (cvals s) = n →
  returns (sweep AVX512F (create_baobzi_funs keys params0).1 params s
                 n_repeat key).
Proof.
  intros Hwb Hn HR Hv Hf Hc.
  assert ((4 | n) ∧ (8 | n)) as [H4 H8].
  { destruct Hn as [k ->]. split; [exists (k * 4) | exists (k * 2)]; lia. }
  pose proof Hwb as (Hlf & Hld & _).
  rewrite sweep_probes. apply sequence_returns.
  apply Forall_app; split; [|repeat constructor; intros w; by eexists].
  apply Forall_fmap. unfold backends, backends_before, backends_after.
  destruct AVX512F; cbn [app];
    repeat (apply Forall_cons; split); try apply Forall_nil_2;
    unfold compose; cbn [probe];
    first [ by apply report_test_func_OPS_returns
          | apply report_test_func_returns; [rewrite ?Hv, ?Hf, ?Hc | done] ];
    try (by apply safe_baobzi);
    unfold boost_funs_fx1, std_funs_fx1, amdlibm_funs_fx1, amdlibm_funs_fx8,
      sleef_funs_fx1, sleef_funs_fx8, af_funs_fx8, sctl_funs_fx8,
      af_funs_fx16, sctl_funs_fx16, sleef_funs_fx16, std_funs_dx1, fort_funs,
      amdlibm_funs_dx1, boost_funs_dx1, gsl_funs, gsl_complex_funs,
      sleef_funs_dx1, hank10x_funs, amdlibm_funs_dx4, af_funs_dx4,
      sctl_funs_dx4, sleef_funs_dx4, af_funs_dx8, sctl_funs_dx8,
      sleef_funs_dx8;
    lazymatch goal with
    | |- safe_table _ (scalar_f _ _) => apply safe_scalar
    | |- safe_table _ (scalar_d _ _) => apply safe_scalar
    | |- safe_table _ (scalar_c _ _) => apply safe_scalar
    | |- safe_table _ (vec_f _ _ _) =>
        apply safe_vec; [lia | done | intros; apply Hlf]
    | |- safe_table _ (vec_d _ _ _) =>
        apply safe_vec; [lia | done | intros; apply Hld]
    | |- safe_table _ (sctl_f _ _ _) =>
        apply safe_vec; [lia | done | intros; apply Hlf]
    | |- safe_table _ (sctl_d _ _ _) =>
        apply safe_vec; [lia | done | intros; apply Hld]
    | |- safe_table _ (table _ _) => apply safe_pair
    end.
Qed.

Lemma run_set_body_returns (AVX512F : bool) keys0 params0 params keys
    (n_eval n_repeat : Z) :
  well_behaved → (16 | Z.to_nat n_eval) → (1 ≤ n_repeat)%Z →
  returns (run_set_body AVX512F (create_baobzi_funs keys0 params0).1 params
                        keys (n_eval, n_repeat)).
Proof.
  intros Hwb Hn HR w. unfold run_set_body. unfold mbind at 1, M_bind at 1.
  rewrite draw_samples_spec. unfold mbind, M_bind, mret, M_ret.
  set (s := samples_at _ _ _). set (w1 := World _ _ _ _).
  destruct (sequence_returns
              (sweep AVX512F (create_baobzi_funs keys0 params0).1 params s
                     (Z.to_nat n_repeat) <$> keys)) with (w := w1)
    as [[out w2] ->]; [|by eexists].
  apply Forall_fmap, Forall_forall. intros key _.
  apply (sweep_returns _ _ _ _ _ (Z.to_nat n_eval)); try done; try lia;
    unfold s; cbn [vals fvals cvals samples_at];
    by rewrite !length_fmap, length_seq.
Qed.

(** With well-behaved libraries [main] returns, with status 0: both run
    configurations have a number of inputs that every lane width
    divides. *)
Lemma main_returns (AVX512F : bool) (argv : list string) w :
  well_behaved →
  ∃ ss out w', main AVX512F (Z.of_nat (length argv)) argv w
               = Some ((ss, out, 0%Z), w').
Proof.
  intros Hwb. unfold main. unfold mbind at 1, M_bind at 1.
  rewrite parse_args_main. unfold lift_option.
  set (keys := elements _).
  pose proof (run_set_body_returns AVX512F keys params_init
                (create_baobzi_funs keys params_init).2 keys 1024 10000 Hwb)
    as H1.
  pose proof (run_set_body_returns AVX512F keys params_init
                (create_baobzi_funs keys params_init).2 keys 10240000 1 Hwb)
    as H2.
  destruct (create_baobzi_funs keys params_init) as [baobzi_funs params].
  cbn [fst snd] in H1, H2.
  unfold run_sets. cbn [for_run_sets]. unfold mbind, M_bind, mret, M_ret.
  destruct (H1 ltac:(by exists (Z.to_nat 64); lia) ltac:(lia) w)
    as [[[s1 out1] w1] ->].
  destruct (H2 ltac:(by exists (Z.to_nat 640000); lia) ltac:(lia) w1)
    as [[[s2 out2] w2] ->].
  by do 3 eexists.
Qed.

(** A run with well-behaved libraries: the two configurations one after
    the other, each drawing its samples and then sweeping the keys. *)
Lemma main_run (AVX512F : bool) (argv : list string) w :
  well_behaved →
  ∃ out1 out2 w1 w1' w2 w',
    main AVX512F (Z.of_nat (length argv)) argv w
    = Some (([samples_at (rand w) (drawn w) (Z.to_nat 1024);
              samples_at (rand w) (drawn w + 3 * Z.to_nat 1024)
                         (Z.to_nat 10240000)],
             out1 +:+ out2 +:+ EmptyString, 0%Z), w')
    ∧ rand w' = rand w
    ∧ drawn w' = drawn w + 3 * Z.to_nat 1024 + 3 * Z.to_nat 10240000
    ∧ sequence
        (sweep AVX512F
           (create_baobzi_funs
              (elements (keys_to_eval AVX512F (list_to_set (drop 1 argv))))
              params_init).1
           (create_baobzi_funs
              (elements (keys_to_eval AVX512F (list_to_set (drop 1 argv))))
              params_init).2
           (samples_at (rand w) (drawn w) (Z.to_nat 1024)) (Z.to_nat 10000)
           <$> elements (keys_to_eval AVX512F (list_to_set (drop 1 argv)))) w1
      = Some (out1, w1')
    ∧ sequence
        (sweep AVX512F
           (create_baobzi_funs
              (elements (keys_to_eval AVX512F (list_to_set (drop 1 argv))))
              params_init).1
           (create_baobzi_funs
              (elements (keys_to_eval AVX512F (list_to_set (drop 1 argv))))
              params_init).2
           (samples_at (rand w) (drawn w + 3 * Z.to_nat 1024)
                       (Z.to_nat 10240000)) (Z.to_nat 1)
           <$> elements (keys_to_eval AVX512F (list_to_set (drop 1 argv)))) w2
      = Some (out2, w').
Proof.
  intros Hwb.
  destruct (main_returns AVX512F argv w Hwb) as (ss & out & w' & Hmain).
  destruct (main_spec AVX512F argv w ss out 0%Z w' Hmain)
    as (keys & baobzi_funs & params & s1 & out1 & w1 & s2 & out2
        & -> & Hcreate & Hrun1 & Hrun2 & -> & -> & _).
  apply run_set_body_spec in Hrun1
    as (-> & Hr1 & Hd1 & Hc1 & wa & _ & Hsweep1).
  apply run_set_body_spec in Hrun2
    as (-> & Hr2 & Hd2 & Hc2 & wb & _ & Hsweep2).
  rewrite Hr1 in Hmain, Hsweep2, Hr2. rewrite Hd1 in Hmain, Hsweep2, Hd2.
  rewrite <-Hcreate. cbn [fst snd].
  exists out1, out2, wa, w1, wb, w'.
  split; [exact Hmain|]. split; [exact Hr2|]. split; [lia|].
  split; [exact Hsweep1 | exact Hsweep2].
Qed.
End Returns.

(** ** The samples of a run *)

(** C7, as the code has it.  With well-behaved libraries a run returns.
    It draws the canonical sample once for each of its two configurations,
    1024 and 10240000 values, from successive values of the generator, and
    nothing else is drawn; each configuration draws a real sample, whose
    single-precision copy goes to the float backends, and then a separate
    complex sample.  Within a configuration the same samples serve every
    key and every backend: for each key they are mapped into the domain of
    the key, once for each value type, and every backend is run on the
    mapped inputs of its value type.  With the generator in [-1, 1],
    every entry of a real sample, and the real and the imaginary part of
    every entry of a complex sample, is in [[0, 1]]: in exact arithmetic,
    and in double precision, where each entry is a finite number and so is
    its single-precision copy, also in [[0, 1]]. *)
Theorem canonical_samples_of_a_run :
  (∀ (F D : Type) (HF : Arith F) (HD : Arith D) (HCF : Cast D F)
     (HCD : Cast D D) (HIF : Indeterminate F) (HID : Indeterminate D)
     (HIC : Indeterminate (complex D)) (HAF : ArrayOps F) (HAD : ArrayOps D)
     (HSF : Show F) (HSD : Show D) (HSC : Show (complex D))
     (HL : Libraries F D) (AVX512F : bool) (argv : list string) (w : world D),
     well_behaved →
     ∃ (s1 s2 : samples (F := F)) out1 out2 w1 w1' w2 w',
       main AVX512F (Z.of_nat (length argv)) argv w
       = Some (([s1; s2], out1 +:+ out2 +:+ EmptyString, 0%Z), w')
       ∧ s1 = samples_at (rand w) (drawn w) (Z.to_nat 1024)
       ∧ s2 = samples_at (rand w) (drawn w + 3 * Z.to_nat 1024)
                         (Z.to_nat 10240000)
       ∧ length (vals s1) = Z.to_nat 1024
       ∧ length (vals s2) = Z.to_nat 10240000
       ∧ fvals s1 = cast <$> vals s1
       ∧ fvals s2 = cast <$> vals s2
       ∧ rand w' = rand w
       ∧ drawn w' = drawn w + 3 * Z.to_nat 1024 + 3 * Z.to_nat 10240000
       ∧ ∀ keys baobzi_funs params,
           keys = elements (keys_to_eval AVX512F (list_to_set (drop 1 argv))) →
           (baobzi_funs, params) = create_baobzi_funs keys params_init →
           sequence
             ((λ key,
                 sequence
                   ((run_backend (operator_index params key).1
                                 (Z.to_nat 10000) key
                                 (mapped_inputs params key (fvals s1))
                                 (mapped_inputs params key (vals s1))
                                 (mapped_inputs params key (cvals s1))
                       <$> backends AVX512F baobzi_funs)
                    ++ [mret endl])) <$> keys) w1
           = Some (out1, w1')
           ∧ sequence
               ((λ key,
                   sequence
                     ((run_backend (operator_index params key).1
                                   (Z.to_nat 1) key
                                   (mapped_inputs params key (fvals s2))
                                   (mapped_inputs params key (vals s2))
                                   (mapped_inputs params key (cvals s2))
                         <$> backends AVX512F baobzi_funs)
                      ++ [mret endl])) <$> keys) w2
             = Some (out2, w'))
  ∧ (∀ (F : Type) (HCF : Cast Qc F) (rand : nat → Qc) (d n : nat),
       (∀ i, (-1 ≤ rand i)%Qc ∧ (rand i ≤ 1)%Qc) →
       Forall (λ v, (0 ≤ v)%Qc ∧ (v ≤ 1)%Qc)
              (vals (samples_at (F := F) rand d n))
       ∧ Forall (λ z, ((0 ≤ re z)%Qc ∧ (re z ≤ 1)%Qc)
                      ∧ ((0 ≤ im z)%Qc ∧ (im z ≤ 1)%Qc))
                (cvals (samples_at (F := F) rand d n)))
  ∧ (∀ (rand : nat → IEEE.double) (d n : nat),
       (∀ i, SF_between (-1) 1 (IEEE.dbits (rand i))) →
       Forall (λ v, SF_between 0 1 (IEEE.dbits v))
              (vals (samples_at (F := IEEE.float) rand d n))
       ∧ Forall (λ v, SF_between 0 1 (IEEE.fbits v))
                (fvals (samples_at (F := IEEE.float) rand d n))
       ∧ Forall (λ z, SF_between 0 1 (IEEE.dbits (re z))
                      ∧ SF_between 0 1 (IEEE.dbits (im z)))
                (cvals (samples_at (F := IEEE.float) rand d n))).
Proof.
  split; [|split].
  - intros F D HF HD HCF HCD HIF HID HIC HAF HAD HSF HSD HSC HL AVX512F argv w
      Hwb.
    destruct (main_run AVX512F argv w Hwb)
      as (out1 & out2 & w1 & w1' & w2 & w' & Hmain & Hrand & Hdrawn
          & Hsweep1 & Hsweep2).
    rewrite sweeps_on_mapped_inputs in Hsweep1, Hsweep2.
    do 2 eexists. exists out1, out2, w1, w1', w2, w'.
    split; [exact Hmain|]. split; [done|]. split; [done|].
    split; [apply length_samples_at|]. split; [apply length_samples_at|].
    split; [done|]. split; [done|]. split; [exact Hrand|].
    split; [exact Hdrawn|].
    intros keys baobzi_funs params -> Hcreate.
    rewrite <-Hcreate in Hsweep1, Hsweep2. cbn [fst snd] in Hsweep1, Hsweep2.
    split; [exact Hsweep1 | exact Hsweep2].
  - intros F HCF rand d n Hrand.
    destruct (samples_at_in_range (F := F) rand d n Hrand) as (? & _ & ?).
    done.
  - apply samples_at_in_range_double.
Qed.

(** * Further properties of the code *)

(** ** The adapters on any count *)

Section AdapterBounds.
Context {Real : Type}.
Implicit Types (vals res : list Real) (f : list Real → list Real).

Lemma scalar_body_next (g : Real → Real) vals res j :
  j < length vals → j < length res →
  scalar_body g vals j ((g <$> take j vals) ++ drop j res)
  = Some ((g <$> take (Datatypes.S j) vals) ++ drop (Datatypes.S j) res).
Proof.
  intros Hv Hr. unfold scalar_body.
  destruct (lookup_lt_is_Some_2 vals j Hv) as [x Hx].
  destruct (lookup_lt_is_Some_2 res j Hr) as [y Hy].
  rewrite Hx. simpl.
  assert (length (g <$> take j vals) = j) as Hlen
    by (rewrite length_fmap, length_take; lia).
  rewrite decide_True by (rewrite length_app, length_drop; lia).
  f_equal. rewrite insert_app_r_alt by lia.
  rewrite Hlen, Nat.sub_diag, (drop_S _ _ _ Hy). simpl.
  rewrite (take_S_r _ _ _ Hx), fmap_app. simpl.
  by rewrite <-app_assoc.
Qed.

Lemma scalar_func_apply_prefix (g : Real → Real) vals res N :
  N ≤ length vals → N ≤ length res →
  scalar_func_apply g vals res N = Some ((g <$> take N vals) ++ drop N res).
Proof.
  intros Hv Hr. unfold scalar_func_apply.
  destruct (for_loop_count
              (λ j buf, buf = (g <$> take j vals) ++ drop j res)
              N (scalar_body g vals) res)
    as (out & -> & ->); [by rewrite take_0, drop_0 | | done].
  intros j buf Hj ->. eexists. split; [|done].
  apply scalar_body_next; lia.
Qed.

Lemma scalar_func_apply_stuck (g : Real → Real) vals res N :
  length vals < N ∨ length res < N →
  scalar_func_apply g vals res N = None.
Proof.
  intros Hnot. unfold scalar_func_apply.
  set (q := length vals `min` length res).
  pose proof (for_loop_stuck
                (λ j buf, buf = (g <$> take j vals) ++ drop j res)
                N N 1 (scalar_body g vals) 0 q res) as H.
  simpl in H. apply H; clear H; [lia | lia | lia | by rewrite drop_0 | |].
  - intros j buf Hj ->. rewrite Nat.mul_1_r. eexists. split; [|done].
    apply scalar_body_next; lia.
  - intros buf ->. rewrite Nat.mul_1_r. unfold scalar_body.
    destruct (vals !! q) as [x|] eqn:Hx; [|done]. simpl.
    apply lookup_lt_Some in Hx.
    rewrite decide_False; [done|].
    rewrite length_app, length_fmap, length_take, length_drop. lia.
Qed.

(** X1.  The scalar adapter on any count [N]. When both buffers hold [N] entries
    it writes [g] of the first [N] inputs to the first [N] output positions and
    leaves the rest of the output buffer as it was; with a larger count it reads
    or writes past the end of a buffer. *)
Theorem scalar_adapter_on_count (g : Real → Real) vals res N :
  scalar_func_apply g vals res N
  = if decide (N ≤ length vals ∧ N ≤ length res)
    then Some ((g <$> take N vals) ++ drop N res)
    else None.
Proof.
  case_decide as H.
  - destruct H. by apply scalar_func_apply_prefix.
  - apply scalar_func_apply_stuck. lia.
Qed.

(** *** The vector adapters *)

(** The number of iterations of a loop that advances by [W] up to [N]. *)
Lemma iterations_spec N W :
  1 ≤ W →
  (∀ j, j < (N + W - 1) / W → j * W < N) ∧ N ≤ (N + W - 1) / W * W.
Proof.
  intros HW. set (c := (N + W - 1) / W).
  assert (c * W ≤ N + W - 1) as H1
    by (rewrite Nat.mul_comm; apply Nat.Div0.mul_div_le).
  assert (N + W - 1 < Datatypes.S c * W) as H2.
  { pose proof (Nat.mul_succ_div_gt (N + W - 1) W). unfold c. lia. }
  split; [intros j Hj; nia | lia].
Qed.

(** X2.  The vector adapters on any count [N]: the loop makes [(N + W - 1) / W]
    iterations, each on a whole block of [W] lanes. When both buffers hold that
    many blocks, the blocks of the output are [f] of the blocks of the input,
    the rest of the output buffer is as it was, and the positions loaded and
    stored are those of the blocks, which reach beyond [N] when [W] does not
    divide [N]; otherwise an access is past the end of a buffer. *)
Theorem vector_adapter_on_count W f vals res N :
  1 ≤ W → lanes W f →
  let c := (N + W - 1) / W in
  (vec_func_apply W f vals res N
   = if decide (c * W ≤ length vals ∧ c * W ≤ length res)
     then Some (lanes_out W f vals c ++ drop (c * W) res)
     else None)
  ∧ sctl_apply W f vals res N = vec_func_apply W f vals res N
  ∧ ∀ out log, simd_run W f vals res N = Some (out, log) →
      loads log = seq 0 (c * W) ∧ stores log = seq 0 (c * W).
Proof.
  intros HW Hf c. destruct (iterations_spec N W HW) as [Hlt Hge]. fold c in Hlt, Hge.
  split; [|split; [done|]].
  - unfold vec_func_apply. case_decide as H.
    + destruct (simd_run_ceil W f vals res N c) as (log & -> & _);
        done || lia.
    + rewrite (simd_run_stuck W f vals res N c); done || lia.
  - intros out log Hrun.
    destruct (decide (c * W ≤ length vals ∧ c * W ≤ length res)) as [H|H].
    + destruct (simd_run_ceil W f vals res N c) as (log' & Hrun' & ? & ?);
        [done || lia ..|].
      rewrite Hrun in Hrun'. by injection Hrun' as _ <-.
    + rewrite (simd_run_stuck W f vals res N c) in Hrun; done || lia.
Qed.

(** X3.  On buffers of exactly [N] entries, as [test_func] passes them, a vector
    adapter whose lane width does not divide [N] reaches past the end: the
    behaviour is undefined. *)
Theorem vector_adapter_needs_whole_blocks W f vals res N :
  1 ≤ W → lanes W f → length vals = N → length res = N → ¬ (W | N) →
  vec_func_apply W f vals res N = None ∧ sctl_apply W f vals res N = None.
Proof.
  intros HW Hf Hv Hr Hdiv.
  destruct (iterations_spec N W HW) as [Hlt Hge].
  assert (simd_run W f vals res N = None) as Hrun.
  { apply (simd_run_stuck W f vals res N ((N + W - 1) / W)); [done..|].
    destruct (decide (N < (N + W - 1) / W * W)); [lia|].
    destruct Hdiv. exists ((N + W - 1) / W). lia. }
  unfold vec_func_apply, sctl_apply. by rewrite Hrun.
Qed.

Lemma lanes_out_fmap (g : Real → Real) W vals c :
  c * W ≤ length vals →
  lanes_out W (fmap g) vals c = g <$> take (c * W) vals.
Proof.
  induction c as [|c IH]; intros Hc; [done|].
  rewrite lanes_out_S, IH by lia.
  rewrite <-fmap_app. f_equal.
  replace (Datatypes.S c * W) with (c * W + W) by lia.
  by rewrite take_take_drop.
Qed.

(** X4.  A vector adapter over a function that works lane by lane computes what
    the scalar adapter over the function on one lane computes, when the lane
    width divides the count. *)
Theorem vector_adapter_agrees_with_scalar (g : Real → Real) W vals res N :
  1 ≤ W → (W | N) → N ≤ length vals → N ≤ length res →
  vec_func_apply W (fmap g) vals res N = scalar_func_apply g vals res N
  ∧ sctl_apply W (fmap g) vals res N = scalar_func_apply g vals res N.
Proof.
  intros HW [c ->] Hv Hr.
  assert (vec_func_apply W (fmap g) vals res (c * W)
          = scalar_func_apply g vals res (c * W)) as H; [|done].
  rewrite scalar_func_apply_prefix by done.
  unfold vec_func_apply.
  destruct (simd_run_ceil W (fmap g) vals res (c * W) c) as (log & -> & _);
    [done | by intros x Hx; rewrite length_fmap | intros j Hj; nia
    | lia | done | done |].
  simpl. by rewrite lanes_out_fmap.
Qed.
End AdapterBounds.

(** ** The timing harness at its edges *)

Section HarnessEdges.
Context {D VAL_T : Type} `{!Arith D, !Arith VAL_T, !Cast D VAL_T}.
Context `{!Indeterminate VAL_T, !ArrayOps VAL_T, !Show D, !Show VAL_T}.
Implicit Types (params : gmap string (Params D)).
Implicit Types (vals vals_in resptr : list VAL_T) (w : world D).

Lemma vec_func_apply_fmap (g : VAL_T → VAL_T) W vals resptr :
  1 ≤ W → (W | length vals) → length resptr = length vals →
  vec_func_apply W (fmap g) vals resptr (length vals) = Some (g <$> vals).
Proof.
  intros HW [c Hc] Hlen. unfold vec_func_apply.
  destruct (simd_run_ceil W (fmap g) vals resptr (length vals) c)
    as (log & -> & _);
    [done | by intros x Hx; rewrite length_fmap | intros j Hj; nia
    | lia | lia | lia |].
  simpl. rewrite lanes_out_fmap by lia.
  rewrite <-Hc, take_ge, drop_ge, app_nil_r by lia. done.
Qed.

(** X5.  The scalar backend and a vector backend of a function that works lane
    by lane leave the same output buffer, [g] of every mapped input, when the
    lane width divides the number of inputs: their sanity means are comparable. *)
Theorem scalar_and_vector_backends_agree (g : VAL_T → VAL_T) (W : nat)
    (name prefix_s prefix_v : string)
    (funs_s funs_v : gmap string (FUN_T VAL_T)) params vals_in
    (Nrepeat : nat) w_s w_v :
  1 ≤ Nrepeat → 1 ≤ W → (W | length vals_in) →
  funs_s !! name = Some (Multi (scalar_func_apply g)) →
  funs_v !! name = Some (Multi (vec_func_apply W (fmap g))) →
  ∃ b_s w_s' b_v w_v',
    test_func name prefix_s funs_s params vals_in Nrepeat w_s = Some (b_s, w_s')
    ∧ test_func name prefix_v funs_v params vals_in Nrepeat w_v
      = Some (b_v, w_v')
    ∧ res b_s = g <$> mapped_inputs params name vals_in
    ∧ res b_v = res b_s
    ∧ mean (res b_v) = mean (res b_s)
    ∧ n_evals b_v = n_evals b_s.
Proof.
  intros HR HW Hdiv Hs Hv.
  rewrite (test_func_found _ _ _ _ _ _ _ _ Hs).
  rewrite (test_func_found _ _ _ _ _ _ _ _ Hv). cbv zeta.
  fold (mapped_inputs params name vals_in).
  set (vals := mapped_inputs params name vals_in).
  assert (length vals = length vals_in) as Hlen
    by apply length_mapped_inputs.
  rewrite (timed_run_pure _ _ _ _ _ (g <$> vals)); first last.
  { done. }
  { by rewrite length_fmap. }
  { intros b Hb. simpl in *. by apply scalar_func_apply_spec. }
  rewrite (timed_run_pure _ _ _ _ _ (g <$> vals)); first last.
  { done. }
  { by rewrite length_fmap. }
  { intros b Hb. simpl in *. apply vec_func_apply_fmap; [done| |done].
    by rewrite Hlen. }
  do 4 eexists. repeat split; reflexivity.
Qed.

(** X6.  With a repeat count of zero the adapter is never called, whatever it
    is: the clock is still read twice, the evaluation count is 0, and the output
    buffer is returned as it was allocated, uninitialised. *)
Theorem zero_repeats_leave_buffer_uninitialised (name library_prefix : string)
    params vals_in w :
  (∀ (funs : gmap string (FUN_T VAL_T)) f, funs !! name = Some f →
     ∃ br w', test_func name library_prefix funs params vals_in 0 w
              = Some (br, w')
       ∧ res br = indeterminate <$> seq 0 (res_size f (length vals_in))
       ∧ n_evals br = Some 0%Z
       ∧ ticks w' = ticks w + 2)
  ∧ (∀ (funs : gmap string OPS) OP, funs !! name = Some OP →
     ∃ br w', test_func_OPS name library_prefix funs params vals_in 0 w
              = Some (br, w')
       ∧ res br = indeterminate <$> seq 0 (length vals_in)
       ∧ n_evals br = Some 0%Z
       ∧ ticks w' = ticks w + 2).
Proof.
  split.
  - intros funs f Hf. rewrite (test_func_found _ _ _ _ _ _ _ _ Hf). cbv zeta.
    unfold timed_run. cbn [for_loop]. rewrite decide_False by lia.
    do 2 eexists. split; [done|]. cbn [res n_evals ticks].
    rewrite length_transform_domain.
    split; [done|]. split; [|lia].
    unfold size_t_mul. by rewrite Z.mul_0_r.
  - intros funs OP Hf. rewrite (test_func_OPS_found _ _ _ _ _ _ _ _ Hf).
    cbv zeta. unfold timed_run. cbn [for_loop]. rewrite decide_False by lia.
    do 2 eexists. split; [done|]. cbn [res n_evals ticks].
    rewrite length_transform_domain.
    split; [done|]. split; [|lia].
    unfold size_t_mul. by rewrite Z.mul_0_r.
Qed.

(** X7.  On an empty sample an adapter that is found is timed like any other,
    the clock being read twice, but its result has an empty buffer and the
    reporter prints nothing for it: in the output it cannot be told from a
    missing adapter. *)
Theorem empty_sample_is_silent (name library_prefix : string) params
    (Nrepeat : nat) w :
  (∀ (funs : gmap string (FUN_T VAL_T)) f, funs !! name = Some f →
     in_place f [] →
     ∃ br w', test_func name library_prefix funs params [] Nrepeat w
              = Some (br, w')
       ∧ res br = []
       ∧ n_evals br = Some 0%Z
       ∧ ticks w' = ticks w + 2
       ∧ report (test_func name library_prefix funs params [] Nrepeat) w
         = Some (EmptyString, w'))
  ∧ (∀ (funs : gmap string OPS) OP, funs !! name = Some OP →
     ∃ br w', test_func_OPS name library_prefix funs params [] Nrepeat w
              = Some (br, w')
       ∧ res br = []
       ∧ n_evals br = Some 0%Z
       ∧ ticks w' = ticks w + 2
       ∧ report (test_func_OPS name library_prefix funs params [] Nrepeat) w
         = Some (EmptyString, w')).
Proof.
  split.
  - intros funs f Hf Hplace. unfold report, mbind, M_bind.
    rewrite (test_func_found _ _ _ _ _ _ _ _ Hf). cbv zeta.
    set (vals := transform_domain _ _ _).
    assert (vals = []) as Hvals by reflexivity.
    clearbody vals. subst vals. cbn [length].
    destruct (timed_run_in_place (library_prefix +:+ "_" +:+ name)
                (operator_index params name).1 (res_size f 0) 0
                (evaluate f []) Nrepeat w) as (resptr & Hlen & ->).
    { intros b Hb. destruct (Hplace b Hb) as (out & ? & ?).
      exists out. split; [done | congruence]. }
    assert (resptr = []) as ->.
    { apply length_zero_iff_nil. rewrite Hlen. by destruct f. }
    do 2 eexists. split; [done|]. cbn [res n_evals ticks].
    split; [done|]. split; [done|]. split; [lia|]. done.
  - intros funs OP Hf. unfold report, mbind, M_bind.
    rewrite (test_func_OPS_found _ _ _ _ _ _ _ _ Hf). cbv zeta.
    set (vals := transform_domain _ _ _).
    assert (vals = []) as Hvals by reflexivity.
    clearbody vals. subst vals. cbn [length].
    destruct (timed_run_in_place (library_prefix +:+ "_" +:+ name)
                (operator_index params name).1 0 0
                (λ _, Some (array_op OP <$> [])) Nrepeat w)
      as (resptr & Hlen & ->).
    { intros b Hb. by eexists. }
    apply length_zero_iff_nil in Hlen as ->.
    do 2 eexists. split; [done|]. cbn [res n_evals ticks].
    split; [done|]. split; [done|]. split; [lia|]. done.
Qed.
End HarnessEdges.

(** ** The mapper, the clock and the mean in exact arithmetic *)

Section ExactAlgebra.
Implicit Types (lo hi v w : Qc) (vals : list Qc).

(** X8.  In exact arithmetic, mapping into one domain and then into another is
    mapping into the image of the first domain under the second map. *)
Theorem mapper_composes vals (a b c d : Qc) :
  transform_domain (transform_domain vals a b) c d
  = transform_domain vals (a * (d - c) + c)%Qc (b * (d - c) + c)%Qc.
Proof.
  rewrite !transform_domain_exact, <-list_fmap_compose.
  apply list_fmap_ext. intros i v _. simpl. ring.
Qed.

(** X9.  The mapper does not ask for [lo < hi]. In exact arithmetic, on a domain
    of one point every output is that point; on a reversed domain, [hi < lo],
    the outputs of a sample in [[0, 1]] lie in [[hi, lo]] and their order is
    reversed. *)
Theorem mapper_on_degenerate_and_reversed_domains vals lo hi :
  transform_domain vals lo lo = replicate (length vals) lo
  ∧ ((hi < lo)%Qc →
     Forall (λ v, (0 ≤ v)%Qc ∧ (v ≤ 1)%Qc) vals →
     Forall (λ y, (hi ≤ y)%Qc ∧ (y ≤ lo)%Qc) (transform_domain vals lo hi)
     ∧ ∀ i j v w y z,
         vals !! i = Some v → vals !! j = Some w →
         transform_domain vals lo hi !! i = Some y →
         transform_domain vals lo hi !! j = Some z →
         (v < w)%Qc → (z < y)%Qc).
Proof.
  split.
  - rewrite transform_domain_exact.
    induction vals as [|v vals IH]; [done|].
    rewrite fmap_cons. cbn [length replicate]. f_equal; [ring | exact IH].
  - intros Hlt Hvals. split.
    + rewrite transform_domain_exact. apply Forall_fmap.
      eapply Forall_impl; [exact Hvals|]. intros v [H0 H1]. simpl.
      qc_to_q. split; nra.
    + intros i j v w y z Hv Hw.
      rewrite !lookup_transform_domain_exact, Hv, Hw. simpl.
      intros [= <-] [= <-] Hvw. qc_to_q. nra.
Qed.

(** X10.  In exact arithmetic the elapsed time between readings of the clock
    adds up, and it changes sign when the readings are swapped. *)
Theorem elapsed_time_adds_up (t1 t2 t3 : timespec) :
  (get_wtime_diff t1 t3 = get_wtime_diff t1 t2 + get_wtime_diff t2 t3)%Qc
  ∧ (get_wtime_diff t2 t1 = - get_wtime_diff t1 t2)%Qc.
Proof.
  destruct t1 as [s1 n1], t2 as [s2 n2], t3 as [s3 n3].
  unfold get_wtime_diff. simpl.
  split; apply Qc_is_canon; qc_to_q;
    unfold Qeq, Qplus, Qmult, Qopp, inject_Z; simpl; lia.
Qed.

Lemma sum_transform_domain vals lo hi (acc : Qc) :
  foldl Qcplus acc (transform_domain vals lo hi)
  = (acc + foldl Qcplus 0 vals * (hi - lo)
     + Q2Qc (inject_Z (Z.of_nat (length vals))) * lo)%Qc.
Proof.
  rewrite transform_domain_exact. revert acc.
  assert (∀ (l : list Qc) acc,
            foldl Qcplus acc l = (acc + foldl Qcplus 0 l)%Qc) as Hsum.
  { induction l as [|v l IH]; intros acc; cbn [foldl]; [ring|].
    rewrite (IH (acc + v)%Qc), (IH (0 + v)%Qc). ring. }
  induction vals as [|v vals IH]; intros acc.
  - cbn [fmap list_fmap foldl length].
    change (Q2Qc (inject_Z (Z.of_nat 0))) with 0%Qc. ring.
  - cbn [fmap list_fmap foldl length]. rewrite IH.
    rewrite (Hsum vals (0 + v)%Qc).
    replace (Q2Qc (inject_Z (Z.of_nat (Datatypes.S (length vals)))))
      with (1 + Q2Qc (inject_Z (Z.of_nat (length vals))))%Qc; [ring|].
    apply Qc_is_canon. qc_to_q.
    rewrite Nat2Z.inj_succ. unfold Qeq, Qplus, inject_Z. simpl. lia.
Qed.

(** X11.  In exact arithmetic the sanity mean commutes with the mapper: the mean
    of a mapped, non-empty sample is the mapped mean of the sample. *)
Theorem mean_of_mapped_sample vals lo hi :
  vals ≠ [] →
  mean (transform_domain vals lo hi) = (mean vals * (hi - lo) + lo)%Qc.
Proof.
  intros Hne. unfold mean. rewrite length_transform_domain.
  cbn [vlit vadd vdivn Exact.arith]. change (Q2Qc 0) with 0%Qc.
  rewrite sum_transform_domain.
  set (n := Q2Qc (inject_Z (Z.of_nat (length vals)))).
  assert (n ≠ 0%Qc) as Hn.
  { unfold n. change 0%Qc with (Q2Qc 0). rewrite Q2Qc_eq_iff.
    unfold Qeq, inject_Z. simpl. destruct vals; [done|]. simpl. lia. }
  field. done.
Qed.
End ExactAlgebra.

(** ** The dispatcher and the run *)

(** X12.  [parse_args] on any count: the set of the first [argc] tokens, none
    for a count of zero or less, in whatever order and however often they are
    given; a count beyond the tokens reads past the end of [argv]. *)
Theorem parse_args_on_count (argc : Z) (argv : list string) :
  parse_args argc argv
  = if decide (argc ≤ Z.of_nat (length argv))%Z
    then Some (list_to_set (take (Z.to_nat argc) argv))
    else None.
Proof.
  unfold parse_args. set (n := Z.to_nat argc).
  set (body := λ (i : nat) (res : gset string),
                 arg ← argv !! i; Some ({[arg]} ∪ res)).
  assert (∀ j (res : gset string), j < length argv →
            res = list_to_set (take j argv) →
            ∃ res', body j res = Some res'
                    ∧ res' = list_to_set (take (Datatypes.S j) argv)) as Hbody.
  { intros j res Hj ->. unfold body.
    destruct (lookup_lt_is_Some_2 argv j Hj) as [arg Harg].
    rewrite Harg. simpl. eexists; split; [done|].
    rewrite (take_S_r _ _ _ Harg), list_to_set_app_L. simpl. set_solver. }
  case_decide as Hargc.
  - destruct (for_loop_count
                (λ j (res : gset string), res = list_to_set (take j argv))
                n body ∅) as (res & -> & ->); [done | | done].
    intros j res Hj. apply Hbody. lia.
  - pose proof (for_loop_stuck
                  (λ j (res : gset string), res = list_to_set (take j argv))
                  n n 1 body 0 (length argv) ∅) as H.
    simpl in H. apply H; clear H; [lia | lia | lia | done | |].
    + intros j res Hj. rewrite Nat.mul_1_r. apply Hbody. lia.
    + intros res _. rewrite Nat.mul_1_r. unfold body.
      by rewrite lookup_ge_None_2.
Qed.

Section Requests.
Context {F D : Type} `{!Arith F, !Arith D, !Cast D F, !Cast D D}.
Context `{!Indeterminate F, !Indeterminate D, !Indeterminate (complex D)}.
Context `{!ArrayOps F, !ArrayOps D, !Show F, !Show D, !Show (complex D)}.
Context `{!Libraries F D}.
Implicit Types (input_keys : gset string) (w : world D).

(** X13.  A request of known names is honoured exactly; requesting the requested
    set again gives it back; a larger request gives a larger requested set; but
    a request of unknown names only gives the empty set, whereas the empty
    request gives every function. *)
Theorem requested_set_algebra (AVX512F : bool) input_keys :
  (input_keys ≠ ∅ → input_keys ⊆ fun_union AVX512F →
     keys_to_eval AVX512F input_keys = input_keys)
  ∧ (keys_to_eval AVX512F input_keys ≠ ∅ →
     keys_to_eval AVX512F (keys_to_eval AVX512F input_keys)
     = keys_to_eval AVX512F input_keys)
  ∧ (∀ input_keys', input_keys ≠ ∅ → input_keys ⊆ input_keys' →
     keys_to_eval AVX512F input_keys ⊆ keys_to_eval AVX512F input_keys')
  ∧ (input_keys ≠ ∅ → input_keys ## fun_union AVX512F →
     keys_to_eval AVX512F input_keys = ∅)
  ∧ keys_to_eval AVX512F ∅ = fun_union AVX512F.
Proof.
  assert (∀ X : gset string, X ≠ ∅ → 0 < size X) as Hpos.
  { intros X HX. destruct (decide (size X = 0)) as [H0|]; [|lia].
    apply size_empty_iff, leibniz_equiv in H0. done. }
  assert (∀ X : gset string, X ≠ ∅ →
            keys_to_eval AVX512F X = fun_union AVX512F ∩ X) as Hfilter.
  { intros X HX. unfold keys_to_eval. by rewrite decide_True by by apply Hpos. }
  split; [|split; [|split; [|split]]].
  - intros Hne Hsub. rewrite Hfilter by done. set_solver.
  - intros Hne. rewrite (Hfilter _ Hne).
    pose proof (keys_to_eval_subseteq AVX512F input_keys). set_solver.
  - intros input_keys' Hne Hsub. rewrite !Hfilter; [set_solver | | done].
    intros ->. apply Hne. set_solver.
  - intros Hne Hdisj. rewrite Hfilter by done. set_solver.
  - unfold keys_to_eval. rewrite decide_False; [done|].
    rewrite size_empty. lia.
Qed.

(** X14.  A run whose tokens all name unknown functions draws its samples,
    evaluates nothing and prints nothing: the clock is never read, the output is
    empty and the status is 0. *)
Theorem unknown_request_is_silent (AVX512F : bool) (argv : list string) w :
  drop 1 argv ≠ [] →
  (∀ token, token ∈ drop 1 argv → token ∉ fun_union AVX512F) →
  ∃ s1 s2 w',
    main (F := F) AVX512F (Z.of_nat (length argv)) argv w
    = Some (([s1; s2], EmptyString, 0%Z), w')
    ∧ ticks w' = ticks w
    ∧ drawn w' = drawn w + 3 * Z.to_nat 1024 + 3 * Z.to_nat 10240000.
Proof.
  intros Hne Hunknown.
  assert (keys_to_eval AVX512F (list_to_set (drop 1 argv)) = ∅) as Hkeys.
  { unfold keys_to_eval. rewrite decide_True.
    - apply elem_of_equiv_empty_L. intros key [Hu Hin]%elem_of_intersection.
      apply elem_of_list_to_set in Hin. by apply (Hunknown key).
    - destruct (decide (size (list_to_set (C := gset string) (drop 1 argv)) = 0))
        as [H0|]; [|lia].
      apply size_empty_iff in H0.
      destruct (drop 1 argv) as [|token args]; [done|]. set_solver. }
  unfold main. unfold mbind at 1, M_bind at 1.
  rewrite parse_args_main. unfold lift_option. rewrite Hkeys, elements_empty.
  cbn [create_baobzi_funs foldl]. unfold run_sets. cbn [for_run_sets].
  unfold run_set_body. unfold mbind, M_bind, mret, M_ret.
  rewrite !draw_samples_spec. cbn [fmap list_fmap sequence].
  unfold mret, M_ret. rewrite draw_samples_spec.
  do 3 eexists. split; [reflexivity|]. cbn [ticks drawn]. split; [done | lia].
Qed.

(** X15.  With libraries that keep the number of lanes, and an approximant that
    evaluates in place, a run never leaves its buffers, whatever is requested:
    [main] returns the status 0, having drawn its two samples of 1024 and of
    10240000 values, whose sizes every lane width divides. *)
Theorem run_stays_in_bounds (AVX512F : bool) (argv : list string) w :
  well_behaved →
  ∃ s1 s2 out w',
    main (F := F) AVX512F (Z.of_nat (length argv)) argv w
    = Some (([s1; s2], out, 0%Z), w')
    ∧ length (vals s1) = Z.to_nat 1024
    ∧ length (vals s2) = Z.to_nat 10240000
    ∧ (16 | length (vals s1)) ∧ (16 | length (vals s2)).
Proof.
  intros Hwb.
  destruct (main_returns AVX512F argv w Hwb) as (ss & out & w' & Hmain).
  destruct (main_spec AVX512F argv w ss out 0%Z w' Hmain)
    as (keys & baobzi_funs & params & s1 & out1 & w1 & s2 & out2
        & _ & _ & Hrun1 & Hrun2 & -> & _ & _).
  apply run_set_body_spec in Hrun1 as (-> & _).
  apply run_set_body_spec in Hrun2 as (-> & _).
  do 4 eexists. split; [exact Hmain|].
  cbn [vals samples_at]. rewrite !length_fmap, !length_seq.
  split; [done|]. split; [done|].
  split; [exists (Z.to_nat 64) | exists (Z.to_nat 640000)]; lia.
Qed.
End Requests.

(** ** The approximants *)

Section Approximants.
Context {F D : Type} `{!Arith D, !Libraries F D}.
Implicit Types (params : gmap string (Params D)) (keys : list string).

Lemma create_baobzi_funs_from keys params (b : gmap string (FUN_T D)) key :
  let step := λ '(baobzi_funs, params) key,
    match potential_baobzi_funs !! key with
    | Some infun =>
        let '(par, params) := operator_index params key in
        (<[key := create_baobzi_func infun (domain par)]> baobzi_funs, params)
    | None => (baobzi_funs, params)
    end in
  (foldl step (b, params) keys).1 !! key
  = (if decide (key ∈ keys ∧ is_Some (potential_baobzi_funs !! key))
     then (λ infun, create_baobzi_func infun
                      (domain (operator_index params key).1))
            <$> potential_baobzi_funs !! key
     else b !! key)
  ∧ (foldl step (b, params) keys).2 !! key
    = if decide (key ∈ keys ∧ is_Some (potential_baobzi_funs !! key))
      then Some (operator_index params key).1
      else params !! key.
Proof.
  intros step. revert b params.
  induction keys as [|k keys IH]; intros b params.
  { cbn [foldl fst snd]. rewrite !decide_False; [done|..];
      intros [[]%elem_of_nil _]. }
  cbn [foldl].
  assert (∃ b1 p1, step (b, params) k = (b1, p1)
            ∧ b1 !! key
              = (if decide (k = key ∧ is_Some (potential_baobzi_funs !! key))
                 then (λ infun, create_baobzi_func infun
                                  (domain (operator_index params key).1))
                        <$> potential_baobzi_funs !! key
                 else b !! key)
            ∧ p1 !! key
              = (if decide (k = key ∧ is_Some (potential_baobzi_funs !! key))
                 then Some (operator_index params key).1
                 else params !! key)
            ∧ (operator_index p1 key).1 = (operator_index params key).1)
    as (b1 & p1 & -> & Hb1 & Hp1 & Hidx).
  { unfold step.
    destruct (potential_baobzi_funs !! k) as [infun|] eqn:Hk.
    - destruct (operator_index params k) as [par p1] eqn:Hop.
      do 2 eexists. split; [done|].
      destruct (decide (k = key)) as [->|Hne].
      + rewrite Hk, !decide_True by (split; [done | by eexists]).
        rewrite lookup_insert_eq, Hop. simpl.
        unfold operator_index in Hop |- *.
        destruct (params !! key) as [par0|] eqn:Hpar; injection Hop as <- <-.
        * by rewrite Hpar.
        * by rewrite lookup_insert_eq.
      + rewrite !decide_False by (intros [? _]; done).
        rewrite lookup_insert_ne by done.
        unfold operator_index in Hop |- *.
        destruct (params !! k) as [par0|] eqn:Hpar; injection Hop as <- <-;
          [done|].
        rewrite lookup_insert_ne by done. by destruct (params !! key).
    - do 2 eexists. split; [done|].
      rewrite !decide_False; [done|..]; intros [-> [? ?]]; congruence. }
  destruct (IH b1 p1) as [IH1 IH2]. fold step in IH1, IH2.
  rewrite IH1, IH2, Hidx. clear IH IH1 IH2.
  destruct (decide (key ∈ keys ∧ is_Some (potential_baobzi_funs !! key)))
    as [[Hin Hpot]|Hnot].
  - rewrite !decide_True by (split; [by right | done]). done.
  - rewrite Hb1, Hp1.
    destruct (decide (k = key ∧ is_Some (potential_baobzi_funs !! key)))
      as [[-> Hpot]|Hnot'].
    + rewrite !decide_True by (split; [by left | done]). done.
    + rewrite !decide_False; [done|..];
        intros [[->|Hin]%elem_of_cons Hpot]; tauto.
Qed.

Lemma dom_create_baobzi_funs keys params :
  dom (create_baobzi_funs keys params).1
  = list_to_set keys ∩ dom potential_baobzi_funs.
Proof.
  apply set_eq. intros key.
  rewrite elem_of_dom, elem_of_intersection, elem_of_list_to_set, elem_of_dom.
  destruct (create_baobzi_funs_from keys params ∅ key) as [H _].
  unfold create_baobzi_funs. rewrite H. clear H.
  case_decide as Hkey.
  - destruct Hkey as [Hin Hpot]. rewrite fmap_is_Some. by split.
  - rewrite lookup_empty.
    split; [by intros [? ?] | intros [? ?]; destruct Hkey; by split].
Qed.

(** X16.  The approximants of a request: one for each requested key that has a
    function to approximate, over the domain that the table gives for the key,
    or the default domain; and the table is left with an entry, its own or the
    default one, for each of these keys and is otherwise unchanged. *)
Theorem approximants_of_a_request keys params key :
  (create_baobzi_funs keys params).1 !! key
  = (if decide (key ∈ keys ∧ is_Some (potential_baobzi_funs !! key))
     then (λ infun, create_baobzi_func infun
                      (domain (operator_index params key).1))
            <$> potential_baobzi_funs !! key
     else None)
  ∧ (create_baobzi_funs keys params).2 !! key
    = if decide (key ∈ keys ∧ is_Some (potential_baobzi_funs !! key))
      then Some (operator_index params key).1
      else params !! key.
Proof.
  destruct (create_baobzi_funs_from keys params ∅ key) as [H1 H2].
  unfold create_baobzi_funs. rewrite H1, H2. by rewrite lookup_empty.
Qed.
End Approximants.

(** X17.  In exact arithmetic the centre and the half length that
    [create_baobzi_func] passes to the approximant span the domain: from [center
    - hl] to [center + hl]. The approximant is of one dimension and of order 8,
    over the function given. *)
Theorem approximant_spans_the_domain {F} `{!Libraries F Qc}
    (infun : Qc → Qc) (lo hi : Qc) :
  ∃ input center hl,
    create_baobzi_func infun (lo, hi) = Baobzi (new_Baobzi input center hl)
    ∧ func Qc input = infun ∧ dim Qc input = 1%Z ∧ order Qc input = 8%Z
    ∧ (center - hl = lo)%Qc ∧ (center + hl = hi)%Qc
    ∧ (hl + hl = hi - lo)%Qc.
Proof.
  do 3 eexists. split; [reflexivity|]. cbn [func dim order fst snd].
  split; [done|]. split; [done|]. split; [done|].
  cbn [vlit vadd vsub vmul Exact.arith].
  assert (Q2Qc (5 # 10) * (1 + 1) = 1)%Qc as Hhalf
    by (apply Qc_is_canon; reflexivity).
  split; [ring|].
  split.
  - transitivity (lo + Q2Qc (5 # 10) * (1 + 1) * (hi - lo))%Qc; [ring|].
    rewrite Hhalf. ring.
  - transitivity (Q2Qc (5 # 10) * (1 + 1) * (hi - lo))%Qc; [ring|].
    rewrite Hhalf. ring.
Qed.

(** ** The version report *)

Lemma string_app_cons (c : Ascii.ascii) (s t : string) :
  String c s +:+ t = String c (s +:+ t).
Proof. reflexivity. Qed.

Lemma string_app_nil_r (s : string) : s +:+ EmptyString = s.
Proof.
  induction s as [|c s IH]; [done|]. by rewrite string_app_cons, IH.
Qed.

Lemma string_app_assoc (s t u : string) : (s +:+ t) +:+ u = s +:+ t +:+ u.
Proof.
  induction s as [|c s IH]; [done|]. by rewrite !string_app_cons, IH.
Qed.

Lemma string_length_app (s t : string) :
  String.length (s +:+ t) = String.length s + String.length t.
Proof.
  induction s as [|c s IH]; [done|].
  rewrite string_app_cons. cbn [String.length]. by rewrite IH.
Qed.

Lemma has_NUL_app (s t : string) :
  has_NUL (s +:+ t) = has_NUL s || has_NUL t.
Proof.
  induction s as [|c s IH]; [done|].
  rewrite string_app_cons. cbn [has_NUL]. by rewrite IH, orb_assoc.
Qed.

Lemma c_str_no_NUL (s : string) : has_NUL s = false → c_str s = s.
Proof.
  induction s as [|c s IH]; [done|]. cbn [has_NUL c_str].
  intros [-> Hs]%orb_false_elim. by rewrite IH.
Qed.

(** [fgets] splits the stream, and reads something when there is
    something to read. *)
Lemma fgets_spec (n : nat) (stream : string) :
  stream = (fgets n stream).1 +:+ (fgets n stream).2
  ∧ (1 ≤ n → stream ≠ EmptyString →
     String.length (fgets n stream).2 < String.length stream).
Proof.
  revert stream. induction n as [|n IH]; intros stream.
  { cbn [fgets fst snd]. split; [done | intros; lia]. }
  destruct stream as [|c rest]; cbn [fgets].
  { split; [done | by intros _ []]. }
  destruct (Ascii.eqb c _).
  - cbn [fst snd String.length]. split; [done | intros; lia].
  - destruct (IH rest) as [IH1 _].
    destruct (fgets n rest) as [line rest']. cbn [fst snd] in *.
    split; [by rewrite string_app_cons, <-IH1|].
    intros _ _. apply (f_equal String.length) in IH1.
    rewrite string_length_app in IH1. cbn [String.length]. lia.
Qed.

Lemma while_fgets_all (fuel : nat) (stream result : string) :
  String.length stream ≤ fuel → has_NUL stream = false →
  while_fgets fuel stream result = Some (result +:+ stream).
Proof.
  revert stream result. induction fuel as [|fuel IH]; intros stream result.
  - destruct stream; [|cbn; lia]. intros _ _. cbn.
    by rewrite string_app_nil_r.
  - intros Hlen HNUL. destruct stream as [|c rest].
    { cbn. by rewrite string_app_nil_r. }
    cbn [while_fgets]. set (stream := String c rest) in *.
    destruct (fgets_spec 127 stream) as [Hsplit Hshort].
    destruct (fgets 127 stream) as [buffer stream']. cbn [fst snd] in *.
    assert (String.length stream' < String.length stream) as Hlt
      by (apply Hshort; [lia | done]).
    rewrite Hsplit, has_NUL_app in HNUL.
    apply orb_false_elim in HNUL as [Hb Hs].
    rewrite IH by (done || lia).
    by rewrite c_str_no_NUL, string_app_assoc, <-Hsplit.
Qed.

Lemma pop_back_app (s : string) (c : Ascii.ascii) :
  pop_back (s +:+ String c EmptyString) = Some s.
Proof.
  induction s as [|d s IH]; [done|].
  change (String d s +:+ String c EmptyString)
    with (String d (s +:+ String c EmptyString)).
  cbn [pop_back]. rewrite IH.
  by destruct s.
Qed.

Lemma substring_all (s : string) :
  String.substring 0 (String.length s) s = s.
Proof. induction s as [|c s IH]; [done|]. cbn. by rewrite IH. Qed.

Section EnvironmentProperties.
Context (popen : string → option string).

Lemma exec_output (cmd out : string) (c : Ascii.ascii) :
  popen cmd = Some (out +:+ String c EmptyString) →
  has_NUL (out +:+ String c EmptyString) = false →
  exec popen cmd = Returned out.
Proof.
  intros Hpopen HNUL. unfold exec. rewrite Hpopen.
  rewrite while_fgets_all by done. cbn [String.append].
  change (EmptyString +:+ out +:+ String c EmptyString)
    with (out +:+ String c EmptyString).
  by rewrite pop_back_app.
Qed.

(** X20.  [exec] returns what the command writes, without its last character,
    which for a command that writes a line is the newline: so do
    [get_sctl_version] and [get_cpu_name] for their commands. If the pipe cannot
    be opened it throws; if the command writes nothing, the [pop_back] on the
    empty string is undefined. *)
Theorem exec_drops_last_character (cmd : string) :
  (popen cmd = None →
     exec popen cmd = Thrown (runtime_error "popen() failed!"))
  ∧ (popen cmd = Some EmptyString → exec popen cmd = Undefined)
  ∧ (∀ out c, popen cmd = Some (out +:+ String c EmptyString) →
       has_NUL (out +:+ String c EmptyString) = false →
       exec popen cmd = Returned out
       ∧ (cmd = "cd ../extern/SCTL; git describe --tags" →
          get_sctl_version popen = Returned out)
       ∧ (cmd = "grep -m1 'model name' /proc/cpuinfo | cut -d' ' --complement -f1-3" →
          get_cpu_name popen = Returned out)).
Proof.
  split; [|split].
  - intros H. unfold exec. by rewrite H.
  - intros H. unfold exec. by rewrite H.
  - intros out c Hpopen HNUL.
    pose proof (exec_output cmd out c Hpopen HNUL) as Hexec.
    split; [done|]. split; intros ->; exact Hexec.
Qed.

(** X21.  [get_baobzi_version] strips the first character of the tag, the [v],
    and the newline at the end. If the command writes a single character, the
    [substr(1)] of the empty string throws; if it writes nothing, the behaviour
    is undefined. *)
Theorem baobzi_version_strips_tag (c d : Ascii.ascii) (version : string) :
  let cmd := "cd ../extern/baobzi; git describe --tags" in
  (popen cmd = Some (String c (version +:+ String d EmptyString)) →
     has_NUL (String c (version +:+ String d EmptyString)) = false →
     get_baobzi_version popen = Returned version)
  ∧ (popen cmd = Some (String d EmptyString) → d ≠ Ascii.zero →
     get_baobzi_version popen = Thrown out_of_range)
  ∧ (popen cmd = Some EmptyString → get_baobzi_version popen = Undefined)
  ∧ (popen cmd = None →
     get_baobzi_version popen = Thrown (runtime_error "popen() failed!")).
Proof.
  intros cmd. unfold get_baobzi_version. fold cmd.
  split; [|split; [|split]].
  - intros Hpopen HNUL.
    rewrite (exec_output cmd (String c version) d) by done.
    unfold substr. cbn [String.length]. rewrite decide_True by lia.
    cbn [String.substring].
    replace (Datatypes.S (String.length version) - 1)
      with (String.length version) by lia.
    by rewrite substring_all.
  - intros Hpopen Hd.
    rewrite (exec_output cmd EmptyString d); [done | done |].
    cbn. apply orb_false_intro; [|done]. by apply Ascii.eqb_neq.
  - intros Hpopen. unfold exec. by rewrite Hpopen.
  - intros Hpopen. unfold exec. by rewrite Hpopen.
Qed.
End EnvironmentProperties.

(** X22.  [get_af_version] on a macro that encodes the version
    [major.minor.patch] as [major * 10000 + minor * 100 + patch] prints the
    major and the minor number, without leading zeros, but of the patch level
    its last digit only: it takes the macro modulo 10, not 100. *)
Theorem af_version_drops_tens_of_patch (major minor patch : Z) :
  (0 ≤ major)%Z → (0 ≤ minor < 100)%Z → (0 ≤ patch < 100)%Z →
  get_af_version (major * 10000 + minor * 100 + patch)
  = to_string major +:+ "." +:+ to_string minor +:+ "."
    +:+ to_string (patch `mod` 10).
Proof.
  intros Hmajor Hminor Hpatch. unfold get_af_version.
  set (V := (major * 10000 + minor * 100 + patch)%Z).
  assert (Z.quot V 10000 = major) as ->.
  { rewrite Z.quot_div_nonneg by lia. symmetry.
    apply (Z.div_unique V 10000 major (minor * 100 + patch)); lia. }
  assert (Z.rem (Z.quot V 100) 100 = minor) as ->.
  { rewrite Z.quot_div_nonneg by lia.
    assert (V `div` 100 = major * 100 + minor)%Z as ->.
    { symmetry. apply (Z.div_unique V 100 _ patch); lia. }
    rewrite Z.rem_mod_nonneg by lia. symmetry.
    apply (Z.mod_unique _ 100 major minor); lia. }
  assert (Z.rem V 10 = patch `mod` 10)%Z as ->; [|done].
  rewrite Z.rem_mod_nonneg by lia.
  unfold V.
  replace (major * 10000 + minor * 100 + patch)%Z
    with (patch + (major * 1000 + minor * 10) * 10)%Z by lia.
  apply Z.mod_add. lia.
Qed.

(** ** The version numbers can be read back *)

Lemma occurs_app (c : Ascii.ascii) (s t : string) :
  occurs c (s +:+ t) = occurs c s || occurs c t.
Proof.
  induction s as [|d s IH]; [done|].
  rewrite string_app_cons. cbn [occurs]. by rewrite IH, orb_assoc.
Qed.

(** The decimal digits of a number hold no point. *)
Lemma pretty_N_go_no_point (x : N) (s : string) :
  occurs point s = false → occurs point (pretty_N_go x s) = false.
Proof.
  revert s. induction (N.lt_wf_0 x) as [x _ IH]; intros s Hs.
  destruct (decide (x = 0)%N) as [->|Hx]; [by rewrite pretty_N_go_0|].
  rewrite pretty_N_go_step by lia.
  apply IH; [apply N.div_lt; lia|].
  cbn [occurs]. rewrite Hs, orb_false_r.
  unfold pretty_N_char. by repeat case_match.
Qed.

Lemma to_string_no_point (n : Z) : occurs point (to_string n) = false.
Proof.
  assert (∀ p : positive, occurs point (pretty p) = false) as Hpos.
  { intros p. unfold pretty, pretty_positive, pretty, pretty_N.
    rewrite decide_False by done. by apply pretty_N_go_no_point. }
  unfold to_string, pretty, pretty_Z. destruct n as [|p|p]; [done | apply Hpos |].
  rewrite occurs_app, Hpos. done.
Qed.

(** Two texts with a point between them are told apart at the first
    point, when the first text holds none. *)
Lemma split_at_point (a a' r r' : string) :
  occurs point a = false → occurs point a' = false →
  a +:+ String point r = a' +:+ String point r' → a = a' ∧ r = r'.
Proof.
  revert a'. induction a as [|c a IH]; intros [|c' a'] Ha Ha' Heq.
  - by injection Heq as ->.
  - rewrite string_app_cons in Heq. injection Heq as <- _.
    cbn [occurs] in Ha'. by rewrite Ascii.eqb_refl in Ha'.
  - rewrite string_app_cons in Heq. injection Heq as -> _.
    cbn [occurs] in Ha. by rewrite Ascii.eqb_refl in Ha.
  - rewrite !string_app_cons in Heq. injection Heq as -> Heq.
    cbn [occurs] in Ha, Ha'.
    apply orb_false_elim in Ha as [_ Ha].
    apply orb_false_elim in Ha' as [_ Ha'].
    destruct (IH a' Ha Ha' Heq) as [-> ->]. done.
Qed.

(** X23.  The version strings of SLEEF and of Eigen tell the versions apart: the
    three numbers of the macros can be read back from the string. *)
Theorem version_strings_can_be_read_back (a b c a' b' c' : Z) :
  (get_sleef_version a b c = get_sleef_version a' b' c' →
     a = a' ∧ b = b' ∧ c = c')
  ∧ (get_eigen_version a b c = get_eigen_version a' b' c' →
       a = a' ∧ b = b' ∧ c = c').
Proof.
  assert (to_string a +:+ String point (to_string b +:+ String point (to_string c))
          = to_string a' +:+ String point
              (to_string b' +:+ String point (to_string c')) →
          a = a' ∧ b = b' ∧ c = c') as Hread.
  { intros H.
    apply split_at_point in H as [Ha H]; [|apply to_string_no_point..].
    apply split_at_point in H as [Hb Hc]; [|apply to_string_no_point..].
    repeat split; by apply (inj pretty). }
  split; exact Hread.
Qed.

(** ** The lines of the report *)

Lemma length_blanks (n : nat) :
  String.length (String.concat EmptyString (replicate n " ")) = n.
Proof.
  destruct n as [|n]; [done|].
  induction n as [|n IH]; [done|].
  change (String.concat EmptyString (replicate (Datatypes.S (Datatypes.S n)) " "))
    with (" " +:+ EmptyString
          +:+ String.concat EmptyString (replicate (Datatypes.S n) " ")).
  rewrite !string_length_app, IH. done.
Qed.

Lemma length_setw_left (w : nat) (s : string) :
  String.length (setw_left w s) = w `max` String.length s.
Proof.
  unfold setw_left. rewrite string_length_app, length_blanks. lia.
Qed.

Lemma dom_table {V} (entry : string → V) (keys : list string) :
  dom (table entry keys) = list_to_set keys.
Proof.
  unfold table. rewrite dom_list_to_map_L, <-list_fmap_compose.
  f_equal. by rewrite list_fmap_id.
Qed.

Lemma labels_fit (library_prefix : string) (keys : list string) (key : string) :
  forallb (λ key, String.length (library_prefix +:+ "_" +:+ key +:+ ": ")
                  <=? 25) keys = true →
  key ∈ keys →
  String.length (library_prefix +:+ "_" +:+ key +:+ ": ") ≤ 25.
Proof.
  intros Hall Hin. rewrite forallb_forall in Hall.
  apply Nat.leb_le, Hall. by apply list_elem_of_In.
Qed.

Section Report.
Context {F D : Type} `{!Arith F, !Arith D, !Cast D F, !Cast D D}.
Context `{!Indeterminate F, !Indeterminate D, !Indeterminate (complex D)}.
Context `{!ArrayOps F, !ArrayOps D, !Show F, !Show D, !Show (complex D)}.
Context `{!Libraries F D}.
Implicit Types (w : world D) (params : gmap string (Params D)).

(** X19.  No label of the program overflows its column: for every backend of the
    sweep and every key of its table the label with its colon and blank has at
    most 25 characters, so that the field that [setw(25)] makes of it has
    exactly 25 and the throughput starts in the same column on every line. *)
Theorem labels_fit_their_column (AVX512F : bool) (keys : list string) params
    (b : backend) (key : string) :
  b ∈ backends AVX512F (create_baobzi_funs keys params).1 →
  key ∈ backend_keys b →
  String.length ((backend_prefix b +:+ "_" +:+ key) +:+ ": ") ≤ 25
  ∧ String.length (setw_left 25 ((backend_prefix b +:+ "_" +:+ key) +:+ ": "))
    = 25.
Proof.
  intros Hb Hkey.
  assert (String.length (backend_prefix b +:+ "_" +:+ key +:+ ": ") ≤ 25)
    as Hfit.
  { unfold backends, backends_before, backends_after in Hb.
    destruct AVX512F; cbn [app] in Hb;
      repeat (apply elem_of_cons in Hb as [->|Hb]);
      try (by apply elem_of_nil in Hb);
      cbn [backend_keys backend_prefix] in *;
      try (unfold boost_funs_fx1, std_funs_fx1, amdlibm_funs_fx1,
             amdlibm_funs_fx8, sleef_funs_fx1, sleef_funs_fx8, af_funs_fx8,
             sctl_funs_fx8, af_funs_fx16, sctl_funs_fx16, sleef_funs_fx16,
             std_funs_dx1, fort_funs, amdlibm_funs_dx1, boost_funs_dx1,
             gsl_funs, gsl_complex_funs, sleef_funs_dx1, hank10x_funs,
             amdlibm_funs_dx4, af_funs_dx4, sctl_funs_dx4, sleef_funs_dx4,
             af_funs_dx8, sctl_funs_dx8, sleef_funs_dx8,
             scalar_f, scalar_d, scalar_c, vec_f, vec_d, sctl_f, sctl_d
             in Hkey;
           rewrite dom_table in Hkey; apply elem_of_list_to_set in Hkey;
           eapply labels_fit; [|exact Hkey]; vm_compute; reflexivity).
    all: first
      [ unfold eigen_funs in Hkey; rewrite dom_list_to_map_L in Hkey;
        apply elem_of_list_to_set in Hkey;
        eapply labels_fit; [|exact Hkey]; vm_compute; reflexivity
      | rewrite dom_create_baobzi_funs in Hkey;
        apply elem_of_intersection in Hkey as [_ Hkey];
        unfold potential_baobzi_funs in Hkey;
        rewrite dom_table in Hkey; apply elem_of_list_to_set in Hkey;
        eapply labels_fit; [|exact Hkey]; vm_compute; reflexivity ]. }
  split; [by rewrite !string_app_assoc|].
  rewrite length_setw_left, !string_app_assoc. lia.
Qed.
End Report.

(** ** The readings of the clock *)

Section Timings.
Context {F D : Type} `{!Arith F, !Arith D, !Cast D F, !Cast D D}.
Context `{!Indeterminate F, !Indeterminate D, !Indeterminate (complex D)}.
Context `{!ArrayOps F, !ArrayOps D, !Show F, !Show D, !Show (complex D)}.
Context `{!Libraries F D}.
Implicit Types (w : world D) (params : gmap string (Params D)).

Lemma report_test_func_reads {VAL_T} `{!Arith VAL_T, !Cast D VAL_T}
    `{!Indeterminate VAL_T, !Show VAL_T} name library_prefix
    (funs : gmap string (FUN_T VAL_T)) params vals_in Nrepeat :
  reads (if decide (name ∈ dom funs) then 2 else 0)
        (report (test_func name library_prefix funs params vals_in Nrepeat)).
Proof.
  intros w out w'. unfold report, mbind, M_bind, lift_option.
  destruct (funs !! name) as [f|] eqn:Hf.
  - rewrite (test_func_found _ _ _ _ _ _ _ _ Hf). cbv zeta.
    unfold timed_run. destruct (for_loop _ _ _ _ _ _) as [resptr|]; [|done].
    destruct (operator_lshift _); [|done]. intros [= <- <-].
    rewrite decide_True by (apply elem_of_dom; by eexists). cbn [ticks]. lia.
  - unfold test_func. rewrite Hf. unfold mret, M_ret.
    destruct (operator_lshift _); [|done]. intros [= <- <-].
    rewrite decide_False by (by apply not_elem_of_dom). lia.
Qed.

Lemma report_test_func_OPS_reads {VAL_T} `{!Arith VAL_T, !Cast D VAL_T}
    `{!Indeterminate VAL_T, !ArrayOps VAL_T, !Show VAL_T} name library_prefix
    (funs : gmap string OPS) params vals_in Nrepeat :
  reads (if decide (name ∈ dom funs) then 2 else 0)
        (report (test_func_OPS name library_prefix funs params vals_in Nrepeat)).
Proof.
  intros w out w'. unfold report, mbind, M_bind, lift_option.
  destruct (funs !! name) as [f|] eqn:Hf.
  - rewrite (test_func_OPS_found _ _ _ _ _ _ _ _ Hf). cbv zeta.
    unfold timed_run. destruct (for_loop _ _ _ _ _ _) as [resptr|]; [|done].
    destruct (operator_lshift _); [|done]. intros [= <- <-].
    rewrite decide_True by (apply elem_of_dom; by eexists). cbn [ticks]. lia.
  - unfold test_func_OPS. rewrite Hf. unfold mret, M_ret.
    destruct (operator_lshift _); [|done]. intros [= <- <-].
    rewrite decide_False by (by apply not_elem_of_dom). lia.
Qed.

Lemma probe_reads params (s : samples (F := F)) n_repeat key (b : backend) :
  reads (if decide (key ∈ backend_keys b) then 2 else 0)
        (probe params s n_repeat key b).
Proof.
  destruct b; cbn [probe backend_keys];
    first [apply report_test_func_reads | apply report_test_func_OPS_reads].
Qed.

Lemma sequence_reads (stmts : list (M D string)) (ds : list nat) :
  Forall2 (λ stmt d, reads d stmt) stmts ds →
  reads (sum_list ds) (sequence stmts).
Proof.
  induction 1 as [|stmt d stmts ds Hstmt _ IH]; intros w out w'; simpl.
  - intros [= <- <-]. lia.
  - unfold mbind, M_bind, mret, M_ret.
    destruct (stmt w) as [[o1 w1]|] eqn:E1; [|done].
    destruct (sequence stmts w1) as [[o2 w2]|] eqn:E2; [|done].
    intros [= <- <-]. rewrite (IH _ _ _ E2), (Hstmt _ _ _ E1). lia.
Qed.

Lemma sum_list_adapters key (bs : list (backend (F := F) (D := D))) :
  sum_list ((λ b, if decide (key ∈ backend_keys b) then 2 else 0) <$> bs)
  = 2 * adapters_for key bs.
Proof.
  unfold adapters_for. induction bs as [|b bs IH]; [done|].
  rewrite fmap_cons, filter_cons.
  destruct (decide (key ∈ backend_keys b));
    cbn [sum_list_with id length] in *; lia.
Qed.

Lemma sum_list_twice {A} (g : A → nat) (l : list A) :
  sum_list ((λ x, 2 * g x) <$> l) = 2 * sum_list (g <$> l).
Proof.
  induction l as [|x l IH]; [done|].
  rewrite !fmap_cons. cbn [sum_list_with id] in *. lia.
Qed.

Lemma sweep_reads (AVX512F : bool) baobzi_funs params (s : samples (F := F))
    n_repeat key :
  reads (2 * adapters_for key (backends AVX512F baobzi_funs))
        (sweep AVX512F baobzi_funs params s n_repeat key).
Proof.
  intros w out w' Hsweep. rewrite sweep_probes in Hsweep.
  apply (sequence_reads _
           (((λ b, if decide (key ∈ backend_keys b) then 2 else 0)
               <$> backends AVX512F baobzi_funs) ++ [0])) in Hsweep.
  - rewrite Hsweep, sum_list_with_app, sum_list_adapters.
    cbn [sum_list_with id]. lia.
  - apply Forall2_app.
    + apply Forall2_fmap, Forall_Forall2_diag, Forall_forall.
      intros b _. apply probe_reads.
    + repeat constructor. intros w0 o w0' [= <- <-]. lia.
Qed.

Lemma run_set_body_reads (AVX512F : bool) baobzi_funs params keys
    (run_set : Z * Z) w s out w' :
  run_set_body AVX512F baobzi_funs params keys run_set w = Some ((s, out), w') →
  ticks w' = ticks w
             + 2 * sum_list ((λ key, adapters_for key
                                       (backends AVX512F baobzi_funs)) <$> keys).
Proof.
  destruct run_set as [n_eval n_repeat]. intros Hrun.
  apply run_set_body_spec in Hrun as (_ & _ & _ & _ & w1 & Hdraw & Hseq).
  rewrite draw_samples_spec in Hdraw. injection Hdraw as _ <-.
  apply (sequence_reads _
           ((λ key, 2 * adapters_for key (backends AVX512F baobzi_funs))
              <$> keys)) in Hseq.
  - rewrite Hseq. cbn [ticks]. f_equal. apply sum_list_twice.
  - apply Forall2_fmap, Forall_Forall2_diag, Forall_forall.
    intros key _. apply sweep_reads.
Qed.

(** X18.  A run reads the clock for the timed evaluations only: twice for every
    requested key and every backend that has an adapter for it, in each of its
    two configurations. With well-behaved libraries the run returns, and the
    clock has then been read that often. *)
Theorem clock_is_read_twice_per_adapter (AVX512F : bool)
    (argv : list string) w :
  well_behaved →
  ∃ ss out w',
    main (F := F) AVX512F (Z.of_nat (length argv)) argv w
    = Some ((ss, out, 0%Z), w')
    ∧ ticks w'
      = ticks w
        + 2 * (2 * sum_list
                     ((λ key,
                         adapters_for key
                           (backends AVX512F
                              (create_baobzi_funs
                                 (elements (keys_to_eval AVX512F
                                              (list_to_set (drop 1 argv))))
                                 params_init).1))
                        <$> elements (keys_to_eval AVX512F
                                        (list_to_set (drop 1 argv))))).
Proof.
  intros Hwb.
  destruct (main_returns AVX512F argv w Hwb) as (ss & out & w' & Hmain).
  exists ss, out, w'. split; [done|].
  destruct (main_spec AVX512F argv w ss out 0%Z w' Hmain)
    as (keys & baobzi_funs & params & s1 & out1 & w1 & s2 & out2
        & -> & Hcreate & Hrun1 & Hrun2 & _).
  apply run_set_body_reads in Hrun1, Hrun2.
  rewrite <-Hcreate. cbn [fst]. lia.
Qed.
End Timings.

(** ** The domains of the table in floating point *)

(** X24.  For every domain of the table of [main], in double precision the
    mapper sends 0.0 to the lower and 1.0 to the upper bound, exactly. In single
    precision the images of 0.0f and 1.0f are within the bounds for every domain
    but the one of sin, cos and tan, whose upper bound [2 * M_PI] is exceeded by
    the image of 1.0f. *)
Theorem table_domains_at_their_endpoints (name : string)
    (par : Params IEEE.double) :
  params_init !! name = Some par →
  transform_domain (VAL_T := IEEE.double) [vlit 0; vlit 1]
                   (domain par).1 (domain par).2
  = [(domain par).1; (domain par).2]
  ∧ (name ∉ ["sin"; "cos"; "tan"] →
     Forall (λ y, IEEE.leb (domain par).1 (IEEE.widen y) = true
                  ∧ IEEE.leb (IEEE.widen y) (domain par).2 = true)
            (transform_domain (VAL_T := IEEE.float) [vlit 0; vlit 1]
                              (domain par).1 (domain par).2))
  ∧ (name ∈ ["sin"; "cos"; "tan"] →
     Forall (λ y, IEEE.ltb (domain par).2 (IEEE.widen y) = true)
            (transform_domain (VAL_T := IEEE.float) [vlit 1]
                              (domain par).1 (domain par).2)).
Proof.
  intros Hpar. unfold params_init in Hpar.
  apply elem_of_list_to_map_2 in Hpar.
  repeat (apply elem_of_cons in Hpar as [[= -> ->]|Hpar]);
    [..|by apply elem_of_nil in Hpar];
    (split; [vm_compute; reflexivity|]);
    (split; intros Hname;
     [ first [ by repeat constructor
             | exfalso; apply Hname; set_solver ]
     | first [ by repeat constructor
             | exfalso; set_solver ] ]).
Qed.

(** ** The approximants and the mapper *)

(** X25.  An approximant is only evaluated within the interval it was built
    for.  In exact arithmetic, for a table whose domains have
    [lo <= hi]: the approximant created for a key spans, from
    [center - hl] to [center + hl], the very domain into which [test_func]
    afterwards maps the samples for that key, so that every mapped input
    of a sample in [[0, 1]] lies in that interval. *)
Theorem approximant_is_evaluated_within_its_interval {F} `{!Libraries F Qc}
    (keys : list string) (params : gmap string (Params Qc)) (key : string)
    (f : FUN_T Qc) :
  (∀ name par, params !! name = Some par →
     ((domain par).1 ≤ (domain par).2)%Qc) →
  (create_baobzi_funs keys params).1 !! key = Some f →
  ∃ input center hl,
    f = Baobzi (new_Baobzi input center hl)
    ∧ ∀ vals_in : list Qc,
        Forall (λ v, (0 ≤ v)%Qc ∧ (v ≤ 1)%Qc) vals_in →
        Forall (λ y, (center - hl ≤ y)%Qc ∧ (y ≤ center + hl)%Qc)
               (mapped_inputs (create_baobzi_funs keys params).2 key vals_in).
Proof.
  intros Hordered Hf.
  destruct (create_baobzi_funs_from keys params ∅ key) as [H1 H2].
  fold (create_baobzi_funs keys params) in H1, H2.
  rewrite H1 in Hf. clear H1.
  case_decide as Hkey; [|by rewrite lookup_empty in Hf].
  destruct (potential_baobzi_funs !! key) as [infun|]; [|done].
  injection Hf as <-.
  set (par := (operator_index params key).1) in *.
  assert (((domain par).1 ≤ (domain par).2)%Qc) as Hle.
  { unfold par, operator_index.
    destruct (params !! key) as [p|] eqn:Hp; [by eapply Hordered|].
    cbn. by apply Qle_bool_imp_le. }
  do 3 eexists. split; [reflexivity|].
  intros vals_in Hvals. unfold mapped_inputs.
  rewrite (operator_index_Some _ _ _ H2). cbn [fst snd].
  rewrite transform_domain_exact. apply Forall_fmap.
  eapply Forall_impl; [exact Hvals|]. intros v [H0 H1]. cbn [vlit vadd vsub vmul Exact.arith].
  destruct (domain par) as [lo hi]. cbn [fst snd] in *.
  assert (lo + Q2Qc (5 # 10) * (hi - lo) - Q2Qc (5 # 10) * (hi - lo) = lo)%Qc
    as -> by ring.
  assert (lo + Q2Qc (5 # 10) * (hi - lo) + Q2Qc (5 # 10) * (hi - lo) = hi)%Qc
    as ->.
  { transitivity (lo + Q2Qc (5 # 10) * (1 + 1) * (hi - lo))%Qc; [ring|].
    assert (Q2Qc (5 # 10) * (1 + 1) = 1)%Qc as ->
      by (apply Qc_is_canon; reflexivity).
    ring. }
  qc_to_q. split; nra.
Qed.

(** ** What the reporter reads of a result *)

Section IndeterminateReads.
Context {D VAL_T : Type} `{!Arith D, !Arith VAL_T, !Cast D VAL_T}.
Context `{!Indeterminate VAL_T, !ArrayOps VAL_T, !Show D, !Show VAL_T}.
Implicit Types (params : gmap string (Params D)).
Implicit Types (vals_in : list VAL_T) (w : world D).


End IndeterminateReads.


(** * The claims on concrete inputs *)

Import Demo.

Lemma missing_adapter_is_silent_witness :
  (∃ br, test_func "not_a_function" "demo" (funs (A := Qc)) ∅ sample_Qc 3 ticking
         = Some (br, ticking)
     ∧ length (res br) = 0
     ∧ operator_lshift br = Some EmptyString
     ∧ report (test_func "not_a_function" "demo" (funs (A := Qc)) ∅ sample_Qc 3)
              ticking
       = Some (EmptyString, ticking))
  ∧ (∃ br, test_func_OPS "not_a_function" "demo" ops ∅ sample_Qc 3 ticking
           = Some (br, ticking)
     ∧ length (res br) = 0
     ∧ operator_lshift br = Some EmptyString
     ∧ report (test_func_OPS "not_a_function" "demo" ops ∅ sample_Qc 3) ticking
       = Some (EmptyString, ticking)).
Proof.
  split.
  - apply (proj1 (missing_adapter_is_silent
                    "not_a_function" "demo" ∅ sample_Qc 3 ticking)).
    reflexivity.
  - apply (proj2 (missing_adapter_is_silent
                    "not_a_function" "demo" ∅ sample_Qc 3 ticking)).
    reflexivity.
Defined.

Lemma output_buffer_size_witness :
  (∃ br w', test_func "twice_thrice" "demo" (funs (A := Qc)) ∅ sample_Qc 3 ticking
            = Some (br, w')
     ∧ length (res br) = 2 * length sample_Qc
     ∧ (1 ≤ 3 → ∀ i x, mapped_inputs ∅ "twice_thrice" sample_Qc !! i = Some x →
          res br !! (2 * i) = Some (x + x)%Qc
          ∧ res br !! (2 * i + 1) = Some (x + x + x)%Qc))
  ∧ (∃ br w', test_func "reverse4" "demo" (funs (A := Qc)) ∅ sample_Qc 3 ticking
              = Some (br, w')
     ∧ length (res br) = length sample_Qc)
  ∧ (∃ br w', test_func_OPS "sin" "demo" ops ∅ sample_Qc 3 ticking = Some (br, w')
     ∧ length (res br) = length sample_Qc).
Proof.
  pose proof (output_buffer_size "twice_thrice" "demo" ∅ sample_Qc 3 ticking)
    as (Hpair & _ & _).
  pose proof (output_buffer_size "reverse4" "demo" ∅ sample_Qc 3 ticking)
    as (_ & Hmulti & _).
  pose proof (output_buffer_size "sin" "demo" ∅ sample_Qc 3 ticking)
    as (_ & _ & Hops).
  split; [|split].
  - exact (Hpair funs (λ x, (x + x, x + x + x)%A) eq_refl).
  - apply (Hmulti funs (Multi (vec_func_apply 4 reverse))).
    + reflexivity.
    + discriminate.
    + apply pure_in_place, vec_func_apply_pure.
      * lia.
      * intros x Hx. by rewrite length_reverse.
      * by exists 1.
  - apply (Hops ops SIN). reflexivity.
Defined.


Lemma domain_mapper_exact_witness :
  transform_domain sample_Qc (Q2Qc (1 # 10)) (Q2Qc 30)
  = (λ v, v * (Q2Qc 30 - Q2Qc (1 # 10)) + Q2Qc (1 # 10))%Qc <$> sample_Qc
  ∧ (∃ a b, ∀ i v, sample_Qc !! i = Some v →
       transform_domain sample_Qc (Q2Qc (1 # 10)) (Q2Qc 30) !! i
       = Some (a * v + b)%Qc)
  ∧ (∀ i j v w y z,
       sample_Qc !! i = Some v → sample_Qc !! j = Some w →
       transform_domain sample_Qc (Q2Qc (1 # 10)) (Q2Qc 30) !! i = Some y →
       transform_domain sample_Qc (Q2Qc (1 # 10)) (Q2Qc 30) !! j = Some z →
       ((v < w)%Qc → (y < z)%Qc) ∧ (v = w → y = z))
  ∧ Forall (λ y, (Q2Qc (1 # 10) ≤ y)%Qc ∧ (y ≤ Q2Qc 30)%Qc)
           (transform_domain sample_Qc (Q2Qc (1 # 10)) (Q2Qc 30)).
Proof.
  apply (domain_mapper_exact (Q2Qc (1 # 10)) (Q2Qc 30) sample_Qc).
  - reflexivity.
  - repeat constructor; discriminate.
Defined.

(** The mapped sample of the witness. *)
Example domain_mapper_exact_values :
  transform_domain sample_Qc (Q2Qc (1 # 10)) (Q2Qc 30)
  = Q2Qc <$> [1 # 10; 303 # 40; 301 # 20; 30]%Q.
Proof.
  apply list_eq_Forall2. repeat constructor; apply Qc_is_canon; reflexivity.
Qed.

(** In double precision, with the domain (-(2^53 + 2), 1): the width
    2^53 + 3 rounds up to 2^53 + 4, and the entry 1 of the sample is mapped
    to 2, above the upper bound. *)
Lemma domain_mapper_rounding_counterexample :
  let lo : IEEE.double := vlit (-9007199254740994) in
  let hi : IEEE.double := vlit 1 in
  let vals : list IEEE.double := [vlit 1] in
  IEEE.ltb lo hi = true
  ∧ Forall (λ v, IEEE.leb (vlit 0) v = true ∧ IEEE.leb v (vlit 1) = true) vals
  ∧ transform_domain vals lo hi = [vlit 2]
  ∧ ¬ Forall (λ y, IEEE.leb lo y = true ∧ IEEE.leb y hi = true)
             (transform_domain vals lo hi).
Proof.
  split; [reflexivity|]. split; [by repeat constructor|].
  split; [reflexivity|].
  intros H. apply Forall_cons_1 in H as [[_ H] _].
  vm_compute in H. discriminate H.
Qed.

(** In single precision, with the domain of "sin" in the table of [main]:
    the width 2 * M_PI becomes the nearest float, which is larger, and the
    entry 1 of the sample is mapped above the upper bound. *)
Example domain_mapper_float_above_two_pi :
  let hi : IEEE.double := (vlit 2 * vlit M_PI)%A in
  let vals : list IEEE.float := [vlit 1] in
  transform_domain vals (vlit 0) hi = [IEEE.Float (S754_finite false 13176795 (-21))]
  ∧ Forall (λ y, IEEE.ltb hi (IEEE.widen y) = true)
           (transform_domain vals (vlit 0) hi).
Proof. split; [reflexivity | by repeat constructor]. Qed.

Lemma unit_domain_is_identity_witness :
  Forall2 (λ v w, same_number (IEEE.dbits v) (IEEE.dbits w))
          sample_double (transform_domain sample_double (vlit 0) (vlit 1)).
Proof.
  apply (proj1 (proj2 (proj2 unit_domain_is_identity)) sample_double).
  repeat constructor.
Defined.

Example unit_domain_double_values :
  transform_domain sample_double (vlit 0) (vlit 1) = sample_double.
Proof. reflexivity. Qed.

(** Three repeats on the four entries of the sample, with 2.5 seconds
    between the readings: the count is 12 and the throughput is computed
    from it; the elapsed time and the throughput are positive, in exact
    arithmetic and in double precision. *)
Lemma throughput_of_result_witness :
  (∃ br w', test_func "square" "demo" (funs (A := IEEE.double)) ∅ sample_double 3
                      ticking
            = Some (br, w')
     ∧ n_evals br = Some 12%Z
     ∧ eval_time br
       = get_wtime_diff (clock (ticking (D := IEEE.double)) 0)
                        (clock (ticking (D := IEEE.double)) 1)
     ∧ Mevals br = Some (vlit 12 / eval_time br / vlit 1000000)%A
     ∧ (∃ t : Q, IEEE.to_Q (IEEE.dbits (eval_time br)) = Some t ∧ (0 < t)%Q)
     ∧ ∃ mevals (q : Q),
         Mevals br = Some mevals
         ∧ IEEE.to_Q (IEEE.dbits mevals) = Some q ∧ (0 < q)%Q)
  ∧ (∃ br w', test_func "square" "demo" (funs (A := Qc)) ∅ sample_Qc 3 ticking
              = Some (br, w')
       ∧ n_evals br = Some 12%Z
       ∧ (0 < eval_time br)%Qc
       ∧ ∃ mevals, Mevals br = Some mevals ∧ (0 < mevals)%Qc).
Proof.
  destruct throughput_of_result as (Hcount & Hsign & Hdouble). split.
  - destruct (proj1 (Hcount IEEE.double IEEE.double _ _ _ _ _
                       "square" "demo" ∅ sample_double 3 ticking)
                funs (Multi (scalar_func_apply (λ x, x * x)%A)) eq_refl
                (pure_in_place _ _ (scalar_func_apply_pure _ _)))
      as (br & w' & Hrun & _ & Hn & Htime & Hmevals).
    exists br, w'. split; [exact Hrun|].
    split; [apply Hn; reflexivity|]. split; [exact Htime|].
    split; [exact Hmevals|].
    destruct (Hdouble IEEE.double _ _ _ _ "square" "demo" ∅ sample_double 3
                ticking br w')
      as (t & Ht & _ & Hpos & Hthroughput).
    + left. exists funs, (Multi (scalar_func_apply (λ x, x * x)%A)).
      split; [reflexivity | exact Hrun].
    + repeat split; discriminate.
    + repeat split; discriminate.
    + reflexivity.
    + left. reflexivity.
    + split.
      * exists t. split; [exact Ht|]. apply Hpos. left. reflexivity.
      * apply Hthroughput; [left; reflexivity | simpl; lia | lia | reflexivity].
  - destruct (proj1 (Hcount Qc Qc _ _ _ _ _
                       "square" "demo" ∅ sample_Qc 3 ticking)
                funs (Multi (scalar_func_apply (λ x, x * x)%A)) eq_refl
                (pure_in_place _ _ (scalar_func_apply_pure _ _)))
      as (br & w' & Hrun & _ & Hn & _).
    exists br, w'. split; [exact Hrun|].
    split; [apply Hn; reflexivity|].
    destruct (Hsign Qc _ _ _ _ "square" "demo" ∅ sample_Qc 3 ticking br w')
      as (_ & Hpos & Hthroughput).
    + left. exists funs, (Multi (scalar_func_apply (λ x, x * x)%A)).
      split; [reflexivity | exact Hrun].
    + repeat split; discriminate.
    + repeat split; discriminate.
    + split.
      * apply Hpos. left. reflexivity.
      * apply Hthroughput; [left; reflexivity | simpl; lia | lia | reflexivity].
Defined.

(** The elapsed time and the throughput of that run in double precision:
    2.5 seconds, and 12 / 2.5 / 1e6, both rounded and both positive.  One
    nanosecond between the readings gives the double nearest to 1e-9. *)
Example throughput_double_values :
  (br ← test_func "square" "demo" (funs (A := IEEE.double)) ∅ sample_double 3
                  ticking;
   mevals ← Mevals br.1;
   Some (eval_time br.1, IEEE.ltb (vlit 0) (eval_time br.1),
         IEEE.ltb (vlit 0) mevals))
  = Some (IEEE.Double (S754_finite false 5629499534213120 (-51)), true, true)
  ∧ get_wtime_diff (D := IEEE.double) (Timespec 5 0) (Timespec 5 1)
    = IEEE.Double (S754_finite false 4835703278458517 (-82)).
Proof. split; vm_compute; reflexivity. Qed.

(** Two ways in which the throughput of a non-empty result is not positive.
    With a clock that stands still between the two readings the elapsed
    time is zero.  With 4 inputs and 2^62 repeats the product 2^64 wraps:
    the evaluation count is 0, not [n * R], and the throughput is 0
    although 2.5 seconds have passed. *)
Lemma throughput_not_positive_counterexample :
  (∃ br w', test_func "square" "demo" (funs (A := Qc)) ∅ sample_Qc 3 frozen
            = Some (br, w')
     ∧ monotonic (clock (frozen (D := Qc)))
     ∧ length (res br) = 4
     ∧ n_evals br = Some 12%Z
     ∧ eval_time br = 0%Qc
     ∧ ¬ (0 < eval_time br)%Qc)
  ∧ (∃ br w', test_func_OPS "sin" "demo" ops ∅ sample_Qc
                            (Z.to_nat 4611686018427387904) ticking
              = Some (br, w')
       ∧ length sample_Qc = 4
       ∧ n_evals br = Some 0%Z
       ∧ (Z.of_nat (length sample_Qc)
          * Z.of_nat (Z.to_nat 4611686018427387904))%Z = (2 ^ 64)%Z
       ∧ (0 < eval_time br)%Qc
       ∧ Mevals br = Some 0%Qc).
Proof.
  split.
  - exists (Build_BenchResult ((λ x, x * x)%Qc <$> sample_Qc) 0%Qc
              "demo_square" (Some 12%Z) Params_default true),
      (World (clock frozen) 2 (rand frozen) 0).
    split; [vm_compute; reflexivity|]. split.
    { intros i. repeat split; simpl; lia || (right; lia). }
    repeat split. discriminate.
  - destruct (test_func_OPS_count (D := Qc) "sin" "demo" ops SIN ∅ sample_Qc
                (Z.to_nat 4611686018427387904) ticking eq_refl)
      as (br & w' & Hrun & Hcount & _ & Htime & Hmevals).
    rewrite Z2Nat.id in Hcount, Hmevals by lia.
    change (size_t_mul (Z.of_nat (length sample_Qc)) 4611686018427387904)
      with 0%Z in Hcount, Hmevals.
    exists br, w'. split; [exact Hrun|]. split; [reflexivity|].
    split; [exact Hcount|]. split; [by rewrite Z2Nat.id by lia|].
    split; [by rewrite Htime|].
    rewrite Hmevals, Htime. f_equal. apply Qc_is_canon. reflexivity.
Qed.

(** The run on the frozen clock in double precision: the elapsed time is
    +0.0 and the reported throughput is 12 / 0 / 1e6, an infinity. *)
Example zero_elapsed_time_double :
  (br ← test_func "square" "demo" (funs (A := IEEE.double)) ∅ sample_double 3
                  frozen;
   Some (eval_time br.1, Mevals br.1))
  = Some (IEEE.Double (S754_zero false),
          Some (IEEE.Double (S754_infinity false))).
Proof. reflexivity. Qed.

(** The seconds of the model are unbounded integers, those of the program
    a 64-bit [time_t]: a difference of 2^1024 seconds is beyond the range
    of a double, and the elapsed time would be an infinity. *)
Example elapsed_time_double_beyond_the_range :
  get_wtime_diff (D := IEEE.double) (Timespec 0 0) (Timespec (2 ^ 1024) 0)
  = IEEE.Double (S754_infinity false).
Proof. vm_compute. reflexivity. Qed.

Lemma requested_set_is_filtered_union_witness :
  ∃ input_keys,
    parse_args (Z.of_nat (length argv_filter) - 1) (drop 1 argv_filter)
    = Some input_keys
    ∧ input_keys = list_to_set (drop 1 argv_filter)
    ∧ ∀ baobzi_funs union,
        baobzi_funs
        = (create_baobzi_funs (F := Qc) (D := Qc)
             (elements (keys_to_eval (F := Qc) (D := Qc) false input_keys))
             params_init).1 →
        union = ⋃ backend_key_sets (F := Qc) false baobzi_funs →
        (drop 1 argv_filter = [] →
           keys_to_eval (F := Qc) (D := Qc) false input_keys = union)
        ∧ (drop 1 argv_filter ≠ [] →
             keys_to_eval (F := Qc) (D := Qc) false input_keys
             = union ∩ input_keys)
        ∧ (∀ token, token ∈ input_keys → token ∉ union →
             token ∉ keys_to_eval (F := Qc) (D := Qc) false input_keys).
Proof.
  exact (requested_set_is_filtered_union (F := Qc) (D := Qc) false argv_filter).
Defined.

(** The requested set for that command line, and for one that names no
    known function. *)
Example keys_to_eval_filter :
  keys_to_eval (F := Qc) (D := Qc) false (list_to_set (drop 1 argv_filter))
  = {["sin"; "bessel_Y0"]}.
Proof. apply (bool_decide_unpack _). vm_compute. reflexivity. Qed.

Example keys_to_eval_unknown :
  keys_to_eval (F := Qc) (D := Qc) false (list_to_set (drop 1 argv_unknown)) = ∅.
Proof. apply (bool_decide_unpack _). vm_compute. reflexivity. Qed.

(** Without tokens every known function is requested, "tlgamma" (a key of
    the SLEEF vector tables) among them. *)
Example keys_to_eval_all :
  size (keys_to_eval (F := Qc) (D := Qc) false ∅) = 59
  ∧ "tlgamma" ∈ keys_to_eval (F := Qc) (D := Qc) false ∅.
Proof.
  split.
  - vm_compute. reflexivity.
  - apply (bool_decide_unpack _). vm_compute. reflexivity.
Qed.

Lemma unlisted_name_uses_default_domain_witness :
  mapped_inputs (params_init (D := Qc)) "sinh" sample_Qc
  = transform_domain sample_Qc (vlit 0) (vlit 1)
  ∧ (∃ br w' mevals,
       test_func "sinh" "std_dx1" (funs (A := Qc)) params_init sample_Qc 2 ticking
       = Some (br, w')
       ∧ domain (params br) = (vlit 0, vlit 1)
       ∧ Mevals br = Some mevals
       ∧ (1 ≤ 2 →
          operator_lshift br
          = Some (setw_left 25 (label br +:+ ": ")
                  +:+ setw_left 15 (show 6 mevals)
                  +:+ setw_left 15 (show 15 (mean (res br)))
                  +:+ setw_left 5 " " +:+ "[0, 1]" +:+ endl)))
  ∧ mapped_inputs (params_init (D := Qc)) "sinh" sample_Qc = sample_Qc.
Proof.
  destruct unlisted_name_uses_default_domain as (_ & Hrun & Hexact & _).
  destruct (Hrun Qc Qc Qc _ _ _ _ _ _ _ _ "sinh" "std_dx1" [] params_init
              sample_Qc 2 ticking)
    as (Hmapped & Hfun & _).
  - reflexivity.
  - by left.
  - reflexivity.
  - reflexivity.
  - discriminate.
  - split; [exact Hmapped|]. split.
    + apply (Hfun funs (Multi (scalar_func_apply (λ x, x + x * x * x)%A))).
      * reflexivity.
      * apply pure_in_place, scalar_func_apply_pure.
    + apply (Hexact Qc _ "sinh" []); [reflexivity | by left].
Defined.

(** The line that the reporter prints for that run: 8 evaluations in 2.5
    seconds, and the mean of [x + x^3] over the sample. *)
Example default_domain_line :
  (br ← test_func "sinh" "std_dx1" (funs (A := Qc)) params_init sample_Qc 2 ticking;
   operator_lshift br.1)
  = Some ("std_dx1_sinh:            1/312500       185/256             [0, 1]"
          +:+ endl).
Proof. vm_compute. reflexivity. Qed.

Lemma ticking_in_range (i : nat) :
  (-1 ≤ rand (ticking (D := Qc)) i)%Qc ∧ (rand (ticking (D := Qc)) i ≤ 1)%Qc.
Proof. simpl. destruct (Nat.even i); split; discriminate. Qed.

(** The libraries of the examples are well behaved, so a run that requests
    functions of the tables returns. *)
Lemma demo_libraries_well_behaved {F D} : well_behaved (F := F) (D := D).
Proof.
  split; [|split]; [by intros t k W x Hx..|].
  intros input center hl vals resptr Hlen. eexists. split.
  - by apply scalar_func_apply_spec.
  - by rewrite length_fmap.
Qed.

Lemma ticking_in_range_double (i : nat) :
  SF_between (-1) 1 (IEEE.dbits (rand (ticking (D := IEEE.double)) i)).
Proof.
  simpl. destruct (Nat.even i); eexists; (split; [reflexivity|]);
    split; discriminate.
Qed.

(** A run that requests "sin", a name that is no function, and
    "bessel_Y0", in exact arithmetic and with a generator that alternates
    between -1 and 1; and the samples that the same generator gives in
    double precision. *)
Lemma canonical_samples_of_a_run_witness :
  (∃ (s1 s2 : samples (F := Qc) (D := Qc)) out1 out2 w1 w1' w2 w',
     main false (Z.of_nat (length argv_filter)) argv_filter ticking
     = Some (([s1; s2], out1 +:+ out2 +:+ EmptyString, 0%Z), w')
     ∧ s1 = samples_at (rand ticking) (drawn ticking) (Z.to_nat 1024)
     ∧ s2 = samples_at (rand ticking) (drawn ticking + 3 * Z.to_nat 1024)
                       (Z.to_nat 10240000)
     ∧ length (vals s1) = Z.to_nat 1024
     ∧ length (vals s2) = Z.to_nat 10240000
     ∧ fvals s1 = cast <$> vals s1
     ∧ fvals s2 = cast <$> vals s2
     ∧ rand w' = rand ticking
     ∧ drawn w' = drawn (ticking (D := Qc)) + 3 * Z.to_nat 1024
                  + 3 * Z.to_nat 10240000
     ∧ ∀ keys baobzi_funs params,
         keys = elements (keys_to_eval (F := Qc) (D := Qc) false
                            (list_to_set (drop 1 argv_filter))) →
         (baobzi_funs, params) = create_baobzi_funs (F := Qc) keys params_init →
         sequence
           ((λ key,
               sequence
                 ((run_backend (operator_index params key).1
                               (Z.to_nat 10000) key
                               (mapped_inputs params key (fvals s1))
                               (mapped_inputs params key (vals s1))
                               (mapped_inputs params key (cvals s1))
                     <$> backends (F := Qc) false baobzi_funs)
                  ++ [mret endl])) <$> keys) w1
         = Some (out1, w1')
         ∧ sequence
             ((λ key,
                 sequence
                   ((run_backend (operator_index params key).1
                                 (Z.to_nat 1) key
                                 (mapped_inputs params key (fvals s2))
                                 (mapped_inputs params key (vals s2))
                                 (mapped_inputs params key (cvals s2))
                       <$> backends (F := Qc) false baobzi_funs)
                    ++ [mret endl])) <$> keys) w2
           = Some (out2, w'))
  ∧ (Forall (λ v, (0 ≤ v)%Qc ∧ (v ≤ 1)%Qc)
            (vals (samples_at (F := Qc) (rand ticking) 0 (Z.to_nat 1024)))
     ∧ Forall (λ z, ((0 ≤ re z)%Qc ∧ (re z ≤ 1)%Qc)
                    ∧ ((0 ≤ im z)%Qc ∧ (im z ≤ 1)%Qc))
              (cvals (samples_at (F := Qc) (rand ticking) 0 (Z.to_nat 1024))))
  ∧ (Forall (λ v, SF_between 0 1 (IEEE.dbits v))
            (vals (samples_at (F := IEEE.float)
                     (rand (ticking (D := IEEE.double))) 0 (Z.to_nat 1024)))
     ∧ Forall (λ v, SF_between 0 1 (IEEE.fbits v))
              (fvals (samples_at (F := IEEE.float)
                        (rand (ticking (D := IEEE.double))) 0 (Z.to_nat 1024)))
     ∧ Forall (λ z, SF_between 0 1 (IEEE.dbits (re z))
                    ∧ SF_between 0 1 (IEEE.dbits (im z)))
              (cvals (samples_at (F := IEEE.float)
                        (rand (ticking (D := IEEE.double))) 0
                        (Z.to_nat 1024)))).
Proof.
  split; [|split].
  - apply (proj1 canonical_samples_of_a_run Qc Qc _ _ _ _ _ _ _ _ _ _ _ _ _
             false argv_filter ticking).
    apply demo_libraries_well_behaved.
  - apply (proj1 (proj2 canonical_samples_of_a_run) Qc _ (rand ticking) 0
             (Z.to_nat 1024)).
    apply ticking_in_range.
  - apply (proj2 (proj2 canonical_samples_of_a_run)
             (rand (ticking (D := IEEE.double))) 0 (Z.to_nat 1024)).
    apply ticking_in_range_double.
Defined.

(** The keys of that run, in the order in which they are swept, and the
    first entries of its first real sample. *)
Example canonical_samples_values :
  elements (keys_to_eval (F := Qc) (D := Qc) false
              (list_to_set (drop 1 argv_filter)))
  ≡ₚ ["sin"; "bessel_Y0"]
  ∧ take 4 (vals (samples_at (F := Qc) (rand (ticking (D := Qc))) 0
                             (Z.to_nat 1024)))
    = Q2Qc <$> [0; 1; 0; 1]%Q.
Proof.
  split.
  - rewrite keys_to_eval_filter.
    apply NoDup_Permutation; [apply NoDup_elements | |].
    + apply (bool_decide_unpack _). vm_compute. reflexivity.
    + intros key. rewrite elem_of_elements. set_solver.
  - cbn [vals samples_at]. rewrite <-!fmap_take, take_seq.
    apply (bool_decide_unpack _). vm_compute. reflexivity.
Qed.

(** With libraries that copy their input the output buffer of a backend
    shows the inputs that it was given: for "sin" two backends on [double]
    are given the same mapped inputs, the sample stretched over
    [[0, 2 * M_PI]]. *)
Example backends_are_given_the_same_mapped_inputs :
  (br ← test_func "sin" "std_dx1" (std_funs_dx1 (F := Qc) (D := Qc))
                  params_init sample_Qc 1 ticking;
   Some (res br.1))
  = Some (mapped_inputs (params_init (D := Qc)) "sin" sample_Qc)
  ∧ (br ← test_func "sin" "gsl_dx1" (gsl_funs (F := Qc) (D := Qc))
                    params_init sample_Qc 1 ticking;
     Some (res br.1))
    = Some (mapped_inputs (params_init (D := Qc)) "sin" sample_Qc).
Proof. split; apply (bool_decide_unpack _); vm_compute; reflexivity. Qed.

(** A run draws its samples twice, once for each configuration: the sample
    of 1024 values that the first configuration shares among its backends
    and functions is not the sample of 10240000 values of the second.
    Within a configuration the complex backends are given a separately
    drawn sample, whose real parts are not the real sample, and the float
    backends the single-precision copy: for the double 0.1 the copy is
    another number, and so is what the mapper makes of it for sin. *)
Lemma sample_drawn_per_configuration_counterexample :
  ∃ (s1 s2 : samples (F := Qc) (D := Qc)) out w',
    main false (Z.of_nat (length argv_filter)) argv_filter ticking
    = Some (([s1; s2], out, 0%Z), w')
    ∧ drawn w' = drawn (ticking (D := Qc)) + 3 * Z.to_nat 1024 + 3 * Z.to_nat 10240000
    ∧ vals s1 ≠ vals s2
    ∧ re <$> cvals s1 ≠ vals s1
    ∧ ∃ v : IEEE.double,
        IEEE.widen (cast v) ≠ v
        ∧ IEEE.widen <$> mapped_inputs (VAL_T := IEEE.float)
                           (params_init (D := IEEE.double)) "sin" [cast v]
          ≠ mapped_inputs (VAL_T := IEEE.double) params_init "sin" [v].
Proof.
  destruct (main_run (F := Qc) (D := Qc) false argv_filter ticking
              demo_libraries_well_behaved)
    as (out1 & out2 & w1 & w1' & w2 & w' & Hmain & _ & Hdrawn & _).
  do 2 eexists. exists (out1 +:+ out2 +:+ EmptyString), w'.
  split; [exact Hmain|].
  split; [exact Hdrawn|]. split; [|split].
  - intros H. apply (f_equal length) in H.
    rewrite !(proj1 (length_samples_at _ _ _)) in H.
    apply Z2Nat.inj in H; [discriminate | lia | lia].
  - intros H. apply (f_equal (λ l, l !! 1)) in H.
    cbn [vals cvals samples_at] in H.
    rewrite !list_lookup_fmap in H.
    rewrite !lookup_seq_lt in H by lia. vm_compute in H. discriminate H.
  - exists (vlit (1 # 10)).
    split; intros H; vm_compute in H; discriminate H.
Qed.

Example filtered_run_returns (AVX512F : bool) :
  ∃ ss out w',
    main (F := Qc) AVX512F 4 argv_filter ticking = Some ((ss, out, 0%Z), w').
Proof.
  apply (main_returns AVX512F argv_filter ticking), demo_libraries_well_behaved.
Qed.

(** * The further properties on concrete inputs *)

Lemma lanes_reverse {A} (W : nat) : lanes W (reverse (A := A)).
Proof. intros x Hx. by rewrite length_reverse. Qed.

(** The scalar adapter on three of four entries, and on one too many. *)
Example scalar_adapter_on_count_values :
  scalar_func_apply Datatypes.S [10; 20; 30; 40] [0; 0; 0; 7] 3
  = Some [11; 21; 31; 7]
  ∧ scalar_func_apply Datatypes.S [10; 20; 30; 40] [0; 0; 0; 7] 5 = None.
Proof. split; reflexivity. Qed.

(** A count of 6 with four lanes: two blocks are loaded and stored, eight
    entries in all. *)
Lemma vector_adapter_on_count_witness :
  let c := (6 + 4 - 1) / 4 in
  (vec_func_apply 4 reverse (seq 10 8) (replicate 8 0) 6
   = if decide (c * 4 ≤ length (seq 10 8) ∧ c * 4 ≤ length (replicate 8 0))
     then Some (lanes_out 4 reverse (seq 10 8) c ++ drop (c * 4) (replicate 8 0))
     else None)
  ∧ sctl_apply 4 reverse (seq 10 8) (replicate 8 0) 6
    = vec_func_apply 4 reverse (seq 10 8) (replicate 8 0) 6
  ∧ ∀ out log, simd_run 4 reverse (seq 10 8) (replicate 8 0) 6 = Some (out, log) →
      loads log = seq 0 (c * 4) ∧ stores log = seq 0 (c * 4).
Proof.
  apply (vector_adapter_on_count 4 reverse (seq 10 8) (replicate 8 0) 6).
  - lia.
  - apply lanes_reverse.
Defined.

Example vector_adapter_on_count_values :
  vec_func_apply 4 reverse (seq 10 8) (replicate 8 0) 6
  = Some [13; 12; 11; 10; 17; 16; 15; 14].
Proof. reflexivity. Qed.

Lemma vector_adapter_needs_whole_blocks_witness :
  vec_func_apply 4 reverse (seq 10 6) (replicate 6 0) 6 = None
  ∧ sctl_apply 4 reverse (seq 10 6) (replicate 6 0) 6 = None.
Proof.
  apply (vector_adapter_needs_whole_blocks 4 reverse (seq 10 6) (replicate 6 0) 6).
  - lia.
  - apply lanes_reverse.
  - reflexivity.
  - reflexivity.
  - intros [k Hk]. lia.
Defined.

Lemma vector_adapter_agrees_with_scalar_witness :
  vec_func_apply 4 (fmap Datatypes.S) (seq 10 8) (replicate 8 0) 8
  = scalar_func_apply Datatypes.S (seq 10 8) (replicate 8 0) 8
  ∧ sctl_apply 4 (fmap Datatypes.S) (seq 10 8) (replicate 8 0) 8
    = scalar_func_apply Datatypes.S (seq 10 8) (replicate 8 0) 8.
Proof.
  apply (vector_adapter_agrees_with_scalar Datatypes.S 4 (seq 10 8)
           (replicate 8 0) 8).
  - lia.
  - by exists 2.
  - simpl. lia.
  - simpl. lia.
Defined.

Lemma scalar_and_vector_backends_agree_witness :
  ∃ b_s w_s' b_v w_v',
    test_func "square" "demo_dx1"
      {["square" := Multi (scalar_func_apply (λ x : Qc, x * x)%Qc)]}
      ∅ sample_Qc 3 ticking = Some (b_s, w_s')
    ∧ test_func "square" "demo_dx4"
        {["square" := Multi (vec_func_apply 4 (fmap (λ x : Qc, x * x)%Qc))]}
        ∅ sample_Qc 3 ticking = Some (b_v, w_v')
    ∧ res b_s = (λ x : Qc, x * x)%Qc <$> mapped_inputs ∅ "square" sample_Qc
    ∧ res b_v = res b_s
    ∧ mean (res b_v) = mean (res b_s)
    ∧ n_evals b_v = n_evals b_s.
Proof.
  apply (scalar_and_vector_backends_agree (λ x : Qc, x * x)%Qc 4
           "square" "demo_dx1" "demo_dx4").
  - lia.
  - lia.
  - by exists 1.
  - reflexivity.
  - reflexivity.
Defined.

Lemma zero_repeats_leave_buffer_uninitialised_witness :
  (∃ br w', test_func "reverse4" "demo" (funs (A := Qc)) ∅
              (take 3 sample_Qc) 0 ticking = Some (br, w')
     ∧ res br = indeterminate <$> seq 0 3
     ∧ n_evals br = Some 0%Z
     ∧ ticks w' = 2)
  ∧ (∃ br w', test_func_OPS "sin" "demo" ops ∅ (take 3 sample_Qc) 0 ticking
              = Some (br, w')
     ∧ res br = indeterminate <$> seq 0 3
     ∧ n_evals br = Some 0%Z
     ∧ ticks w' = 2).
Proof.
  split.
  - apply (proj1 (zero_repeats_leave_buffer_uninitialised
                    "reverse4" "demo" ∅ (take 3 sample_Qc) ticking)
             funs (Multi (vec_func_apply 4 reverse))).
    reflexivity.
  - apply (proj2 (zero_repeats_leave_buffer_uninitialised
                    "sin" "demo" ∅ (take 3 sample_Qc) ticking) ops SIN).
    reflexivity.
Defined.

Lemma empty_sample_is_silent_witness :
  (∃ br w', test_func "square" "demo" (funs (A := Qc)) ∅ [] 3 ticking
            = Some (br, w')
     ∧ res br = []
     ∧ n_evals br = Some 0%Z
     ∧ ticks w' = 2
     ∧ report (test_func "square" "demo" (funs (A := Qc)) ∅ [] 3) ticking
       = Some (EmptyString, w'))
  ∧ (∃ br w', test_func_OPS "sin" "demo" ops ∅ (@nil Qc) 3 ticking
              = Some (br, w')
     ∧ res br = []
     ∧ n_evals br = Some 0%Z
     ∧ ticks w' = 2
     ∧ report (test_func_OPS "sin" "demo" ops ∅ (@nil Qc) 3) ticking
       = Some (EmptyString, w')).
Proof.
  split.
  - apply (proj1 (empty_sample_is_silent "square" "demo" ∅ 3 ticking)
             funs (Multi (scalar_func_apply (λ x, x * x)%A))).
    + reflexivity.
    + apply pure_in_place, scalar_func_apply_pure.
  - apply (proj2 (empty_sample_is_silent "sin" "demo" ∅ 3 ticking) ops SIN).
    reflexivity.
Defined.

Lemma mapper_on_degenerate_and_reversed_domains_witness :
  Forall (λ y, (Q2Qc (-1) ≤ y)%Qc ∧ (y ≤ Q2Qc 3)%Qc)
         (transform_domain sample_Qc (Q2Qc 3) (Q2Qc (-1)))
  ∧ ∀ i j v w y z,
      sample_Qc !! i = Some v → sample_Qc !! j = Some w →
      transform_domain sample_Qc (Q2Qc 3) (Q2Qc (-1)) !! i = Some y →
      transform_domain sample_Qc (Q2Qc 3) (Q2Qc (-1)) !! j = Some z →
      (v < w)%Qc → (z < y)%Qc.
Proof.
  apply (proj2 (mapper_on_degenerate_and_reversed_domains
                  sample_Qc (Q2Qc 3) (Q2Qc (-1)))).
  - reflexivity.
  - repeat constructor; discriminate.
Defined.

Example mapper_on_reversed_domain_values :
  transform_domain sample_Qc (Q2Qc 3) (Q2Qc (-1))
  = Q2Qc <$> [3; 2; 1; -1]%Q
  ∧ transform_domain sample_Qc (Q2Qc 3) (Q2Qc 3) = Q2Qc <$> [3; 3; 3; 3]%Q.
Proof. split; apply (bool_decide_unpack _); vm_compute; reflexivity. Qed.

Lemma mean_of_mapped_sample_witness :
  mean (transform_domain sample_Qc (Q2Qc 2) (Q2Qc 10))
  = (mean sample_Qc * (Q2Qc 10 - Q2Qc 2) + Q2Qc 2)%Qc.
Proof.
  apply (mean_of_mapped_sample sample_Qc (Q2Qc 2) (Q2Qc 10)). discriminate.
Defined.

Example mean_of_mapped_sample_values :
  mean sample_Qc = Q2Qc (7 # 16)
  ∧ mean (transform_domain sample_Qc (Q2Qc 2) (Q2Qc 10)) = Q2Qc (11 # 2).
Proof. split; apply (bool_decide_unpack _); vm_compute; reflexivity. Qed.

Lemma parse_args_on_count_witness :
  parse_args 2 ["sin"; "cos"; "sin"] = Some {["sin"; "cos"]}
  ∧ parse_args 3 ["sin"; "cos"; "sin"] = Some {["sin"; "cos"]}
  ∧ parse_args (-1) ["sin"; "cos"; "sin"] = Some ∅
  ∧ parse_args 4 ["sin"; "cos"; "sin"] = None.
Proof.
  rewrite !parse_args_on_count. repeat split.
  all: apply (bool_decide_unpack _); vm_compute; reflexivity.
Defined.

Lemma requested_set_algebra_witness :
  keys_to_eval (F := Qc) (D := Qc) false {["sin"; "bessel_Y0"]}
  = {["sin"; "bessel_Y0"]}.
Proof.
  apply (proj1 (requested_set_algebra (F := Qc) (D := Qc) false
                  {["sin"; "bessel_Y0"]})).
  - apply (bool_decide_unpack _). vm_compute. reflexivity.
  - apply (bool_decide_unpack _). vm_compute. reflexivity.
Defined.

Lemma unknown_request_is_silent_witness :
  ∃ s1 s2 w',
    main (F := Qc) (D := Qc) false (Z.of_nat (length argv_unknown))
         argv_unknown ticking
    = Some (([s1; s2], EmptyString, 0%Z), w')
    ∧ ticks w' = ticks (ticking (D := Qc))
    ∧ drawn w' = drawn (ticking (D := Qc)) + 3 * Z.to_nat 1024
                 + 3 * Z.to_nat 10240000.
Proof.
  apply (unknown_request_is_silent (F := Qc) false argv_unknown ticking).
  - discriminate.
  - intros token ->%list_elem_of_singleton.
    apply (bool_decide_unpack _). vm_compute. reflexivity.
Defined.

Lemma run_stays_in_bounds_witness :
  ∃ s1 s2 out w',
    main (F := Qc) (D := Qc) false (Z.of_nat (length argv_filter))
         argv_filter ticking
    = Some (([s1; s2], out, 0%Z), w')
    ∧ length (vals s1) = Z.to_nat 1024
    ∧ length (vals s2) = Z.to_nat 10240000
    ∧ (16 | length (vals s1)) ∧ (16 | length (vals s2)).
Proof.
  apply (run_stays_in_bounds (F := Qc) false argv_filter ticking).
  apply demo_libraries_well_behaved.
Defined.

(** Of the keys ["sin"] and ["bessel_Y0"] only the second has a function
    to approximate; its domain is the one of the table. *)
Example approximants_of_a_request_values :
  (create_baobzi_funs (F := Qc) (D := Qc) ["sin"; "bessel_Y0"] params_init).1
    !! "sin" = None
  ∧ (create_baobzi_funs (F := Qc) (D := Qc) ["sin"; "bessel_Y0"] params_init).1
      !! "bessel_Y0"
    = Some (create_baobzi_func (F := Qc)
              (lib_d (F := Qc) "potential_baobzi_funs" "bessel_Y0")
                               (Q2Qc (1 # 10), Q2Qc 30))
  ∧ (create_baobzi_funs (F := Qc) (D := Qc) ["hermite_0"] params_init).2
      !! "hermite_0" = Some Params_default.
Proof. repeat split. Qed.

(** On a pipe that gives the tag of a release and a newline. *)
Lemma exec_drops_last_character_witness :
  exec (λ _, Some ("v0.9.4" +:+ endl)) "cd ../extern/SCTL; git describe --tags" = Returned "v0.9.4"
  ∧ (("cd ../extern/SCTL; git describe --tags" : string)
     = "cd ../extern/SCTL; git describe --tags" →
     get_sctl_version (λ _, Some ("v0.9.4" +:+ endl)) = Returned "v0.9.4")
  ∧ (("cd ../extern/SCTL; git describe --tags" : string)
     = "grep -m1 'model name' /proc/cpuinfo | cut -d' ' --complement -f1-3" →
     get_cpu_name (λ _, Some ("v0.9.4" +:+ endl)) = Returned "v0.9.4").
Proof.
  apply (proj2 (proj2 (exec_drops_last_character (λ _, Some ("v0.9.4" +:+ endl))
                         "cd ../extern/SCTL; git describe --tags"))
           "v0.9.4" (Ascii.ascii_of_nat 10)).
  - reflexivity.
  - reflexivity.
Defined.

Lemma baobzi_version_strips_tag_witness :
  get_baobzi_version (λ _, Some ("v0.9.4" +:+ endl)) = Returned "0.9.4".
Proof.
  apply (proj1 (baobzi_version_strips_tag (λ _, Some ("v0.9.4" +:+ endl))
                  (Ascii.ascii_of_nat 118) (Ascii.ascii_of_nat 10)
                  "0.9.4")).
  - reflexivity.
  - reflexivity.
Defined.

Example version_of_a_single_character :
  get_baobzi_version (λ _, Some "v") = Thrown out_of_range
  ∧ get_baobzi_version (λ _, Some EmptyString) = Undefined
  ∧ get_baobzi_version (λ _, None) = Thrown (runtime_error "popen() failed!").
Proof. repeat split. Qed.

(** Version 2.02.10 of the vector class library is reported as 2.2.0. *)
Lemma af_version_drops_tens_of_patch_witness :
  get_af_version (2 * 10000 + 2 * 100 + 10)
  = to_string 2 +:+ "." +:+ to_string 2 +:+ "." +:+ to_string (10 `mod` 10).
Proof. apply (af_version_drops_tens_of_patch 2 2 10); lia. Defined.

Example af_version_values :
  get_af_version 20210 = "2.2.0" ∧ get_af_version 20102 = "2.1.2".
Proof. split; vm_compute; reflexivity. Qed.

Lemma labels_fit_their_column_witness :
  String.length ((backend_prefix (F := Qc) (D := Qc)
                    (Float_backend "boost_fx1"
                       (boost_funs_fx1 (F := Qc) (D := Qc)))
                  +:+ "_" +:+ "riemann_zeta") +:+ ": ") ≤ 25
  ∧ String.length
      (setw_left 25 ((backend_prefix (F := Qc) (D := Qc)
                        (Float_backend "boost_fx1"
                       (boost_funs_fx1 (F := Qc) (D := Qc)))
                      +:+ "_" +:+ "riemann_zeta") +:+ ": ")) = 25.
Proof.
  apply (labels_fit_their_column (F := Qc) (D := Qc) false [] params_init
           (Float_backend "boost_fx1"
                       (boost_funs_fx1 (F := Qc) (D := Qc))) "riemann_zeta").
  - apply list_elem_of_here.
  - cbn [backend_keys]. unfold boost_funs_fx1, scalar_f.
    rewrite dom_table. apply elem_of_list_to_set.
    apply (bool_decide_unpack _). vm_compute. reflexivity.
Defined.

Lemma clock_is_read_twice_per_adapter_witness :
  ∃ ss out w',
    main (F := Qc) (D := Qc) false (Z.of_nat (length argv_filter))
         argv_filter ticking
    = Some ((ss, out, 0%Z), w')
    ∧ ticks w'
      = ticks (ticking (D := Qc))
        + 2 * (2 * sum_list
                     ((λ key,
                         adapters_for key
                           (backends (F := Qc) (D := Qc) false
                              (create_baobzi_funs (F := Qc)
                                 (elements (keys_to_eval (F := Qc) (D := Qc) false
                                              (list_to_set (drop 1 argv_filter))))
                                 params_init).1))
                        <$> elements (keys_to_eval (F := Qc) (D := Qc) false
                                        (list_to_set (drop 1 argv_filter))))).
Proof.
  apply (clock_is_read_twice_per_adapter (F := Qc) false argv_filter ticking).
  apply demo_libraries_well_behaved.
Defined.

(** The request for ["sin"] and ["bessel_Y0"]: 18 backends have the first
    and 5 the second, so that the run reads the clock 92 times. *)
Example adapters_for_a_request :
  adapters_for "sin"
    (backends (F := Qc) (D := Qc) false
       (create_baobzi_funs (F := Qc) ["sin"; "bessel_Y0"] params_init).1) = 18
  ∧ adapters_for "bessel_Y0"
      (backends (F := Qc) (D := Qc) false
         (create_baobzi_funs (F := Qc) ["sin"; "bessel_Y0"] params_init).1) = 5.
Proof. split; vm_compute; reflexivity. Qed.

Lemma version_strings_can_be_read_back_witness :
  (3 = 3 ∧ 6 = 6 ∧ 1 = 1)%Z.
Proof.
  apply (proj1 (version_strings_can_be_read_back 3 6 1 3 6 1)). reflexivity.
Defined.

Example version_strings_values :
  get_sleef_version 3 6 1 = "3.6.1" ∧ get_eigen_version 3 4 0 = "3.4.0".
Proof. split; vm_compute; reflexivity. Qed.

Lemma table_domains_at_their_endpoints_witness :
  let par : Params IEEE.double := Domain (vlit (1 # 10)) (vlit 30) in
  transform_domain (VAL_T := IEEE.double) [vlit 0; vlit 1]
                   (domain par).1 (domain par).2
  = [(domain par).1; (domain par).2]
  ∧ ("bessel_Y0" ∉ ["sin"; "cos"; "tan"] →
     Forall (λ y, IEEE.leb (domain par).1 (IEEE.widen y) = true
                  ∧ IEEE.leb (IEEE.widen y) (domain par).2 = true)
            (transform_domain (VAL_T := IEEE.float) [vlit 0; vlit 1]
                              (domain par).1 (domain par).2))
  ∧ ("bessel_Y0" ∈ ["sin"; "cos"; "tan"] →
     Forall (λ y, IEEE.ltb (domain par).2 (IEEE.widen y) = true)
            (transform_domain (VAL_T := IEEE.float) [vlit 1]
                              (domain par).1 (domain par).2)).
Proof.
  apply (table_domains_at_their_endpoints "bessel_Y0"
           (Domain (vlit (1 # 10)) (vlit 30))).
  vm_compute. reflexivity.
Defined.

(** The domains of the table of [main] are ordered. *)
Lemma params_init_ordered (name : string) (par : Params Qc) :
  params_init !! name = Some par → ((domain par).1 ≤ (domain par).2)%Qc.
Proof.
  intros Hpar. unfold params_init in Hpar.
  apply elem_of_list_to_map_2 in Hpar.
  repeat (apply elem_of_cons in Hpar as [[= -> ->]|Hpar]);
    [..|by apply elem_of_nil in Hpar];
    by apply Qle_bool_imp_le.
Qed.

Lemma approximant_is_evaluated_within_its_interval_witness :
  ∃ input center hl,
    create_baobzi_func (F := Qc) (lib_d (F := Qc) "potential_baobzi_funs" "bessel_Y0")
                       (Q2Qc (1 # 10), Q2Qc 30)
    = Baobzi (new_Baobzi (F := Qc) input center hl)
    ∧ ∀ vals_in : list Qc,
        Forall (λ v, (0 ≤ v)%Qc ∧ (v ≤ 1)%Qc) vals_in →
        Forall (λ y, (center - hl ≤ y)%Qc ∧ (y ≤ center + hl)%Qc)
               (mapped_inputs
                  (create_baobzi_funs (F := Qc) ["sin"; "bessel_Y0"] params_init).2
                  "bessel_Y0" vals_in).
Proof.
  apply (approximant_is_evaluated_within_its_interval (F := Qc)
           ["sin"; "bessel_Y0"] params_init "bessel_Y0").
  - apply params_init_ordered.
  - reflexivity.
Defined.


Example report_of_an_unwritten_buffer :
  report (test_func "square" "demo" (funs (A := Qc)) ∅ sample_Qc 0) ticking
  = None
  ∧ is_Some (report (test_func "square" "demo" (funs (A := Qc)) ∅ sample_Qc 3)
                    ticking)
  ∧ report (test_func "tan" "demo" (funs (A := Qc)) ∅ sample_Qc 0) ticking
    = Some (EmptyString, ticking).
Proof. split; [|split]; [reflexivity | by eexists | reflexivity]. Qed.
